(** * Pandora k-mer graphs: a shallow embedding and its properties

    The development follows two translation units of the repository:

    - [src/src/kmergraph.cpp] — the k-mer graph proper ([KmerGraph]): node
      and edge insertion and the bubble-level node order;
    - [src/src/kmergraphwithcoverage.cpp] — the coverage-augmented graph
      ([KmerGraphWithCoverage]): coverage counters, the probability models,
      the maximum-likelihood path and the GFA loader.

    The later sections add the members of these two units that the first
    ones leave out ([check], [save], [load] and [operator==] of
    [KmerGraph]; [extract_path]) and the self-contained functions of four
    more:

    - [src/src/estimate_parameters.cpp] — the peaks of the coverage
      histogram and the threshold of the probability histogram;
    - [src/src/local_assembly.cpp] — string helpers, start and end k-mers
      and the enumeration of paths of the depth-first tree;
    - [src/src/panedge.cpp] — the comparison operators of [PanEdge];
    - [src/src/pangenome/panread.cpp] — [Read::remove_node] and
      [Read::find_position].

    C++ calls are embedded as functions into an [outcome]: a call either
    returns, or terminates the process with a diagnostic ([fatal_error], a
    failed [assert]), or has undefined behaviour (a [std::vector] indexed
    out of range, a signed overflow). *)

From Stdlib Require Import ZArith String Ascii Lia Permutation.
From Stdlib Require PrimFloat Uint63.
From stdpp Require Import base tactics option list numbers strings gmap.

Local Open Scope Z_scope.

(** ** Outcomes of a call *)

Inductive error : Type :=
| AssertionFailed           (* a failed [assert] *)
| SampleInvalid             (* "sample_id is invalid" *)
| NoReadsMapped             (* "no reads were mapped to this kmer graph" *)
| BinomialPNotSet           (* "binomial_parameter_p is not correctly set" *)
| InexistentNode            (* "attempt to access inexistent node" *)
| BinomialParametersNotOk   (* "binomial parameters are not ok" *)
| InvalidModel              (* "Invalid probability model" *)
| InvalidParameters         (* "invalid parameters" of a setter *)
| InfiniteLoop              (* "I think I've found an infinite loop" *)
| NoPathFound               (* "found no path through kmer prg" *)
| CheckFailed               (* KmerGraph::check *)
| GfaOffendingLine          (* "Error reading GFA. Offending line" *)
| GfaBadPath                (* "does not label nodes with their PRG path" *)
| GfaIdInconsistent         (* "node ID is inconsistent" / "has inconsistent id" *)
| GfaNodeOutOfRange.        (* "from_node out of range" / "to_node out of range" *)

Inductive outcome (A : Type) : Type :=
| Ok (a : A)
| Fatal (e : error)
| Undefined.

Arguments Ok {A} a.
Arguments Fatal {A} e.
Arguments Undefined {A}.

#[global] Instance outcome_ret : MRet outcome := fun _ a => Ok a.
#[global] Instance outcome_bind : MBind outcome := fun _ _ f m =>
  match m with
  | Ok a => f a
  | Fatal e => Fatal e
  | Undefined => Undefined
  end.

Definition is_ok {A} (r : outcome A) : bool :=
  match r with Ok _ => true | _ => false end.

(** [v[i]] on a [std::vector]: reading outside the vector is undefined. *)
Definition vec_get {A} (v : list A) (i : Z) : outcome A :=
  if i <? 0 then Undefined
  else match v !! Z.to_nat i with
       | Some a => Ok a
       | None => Undefined
       end.

(** [v[i] = a]. *)
Definition vec_set {A} (v : list A) (i : Z) (a : A) : outcome (list A) :=
  if (0 <=? i) && (i <? Z.of_nat (length v)) then Ok (<[Z.to_nat i := a]> v)
  else Undefined.

(** Fixed-width integers. *)
Definition UINT16_MAX : Z := 65535.
Definition UINT32_MAX : Z := 4294967295.
Definition INT_MAX : Z := 2147483647.
Definition u16 (x : Z) : Z := x mod 65536.
Definition u32 (x : Z) : Z := x mod 4294967296.
(** [int] from [uint32_t] and back, two's complement. *)
Definition to_int (x : Z) : Z := if x <=? INT_MAX then x else x - 4294967296.

(** Modelled from the spec: [Interval] and [Path] are declared in
    interval.h and path.h, outside the two translation units.  A path is
    an ordered sequence of
    half-open intervals; its length is the total length of its intervals,
    and two paths are equal when their interval sequences are. *)
Definition Interval : Type := Z * Z.
Definition Path : Type := list Interval.
Definition path_length (p : Path) : Z :=
  foldr (fun iv acc => (iv.2 - iv.1) + acc) 0 p.

(** ** [KmerGraph] (src/src/kmergraph.cpp) *)

Module KmerGraph.

(** A [KmerNode*] is represented by the position of the node in [nodes]:
    every node is allocated once, by [add_node], and pushed at the back. *)
Record KmerNode : Type := mkKmerNode {
  id : Z;
  path : Path;
  inNodes : list nat;
  outNodes : list nat;
  covg : Z
}.

Record t : Type := mkKmerGraph {
  nodes : list KmerNode;
  next_id : Z
}.

Definition empty : t := mkKmerGraph [] 0.

Definition push_out (p : nat) (n : KmerNode) : KmerNode :=
  mkKmerNode (id n) (path n) (inNodes n) (outNodes n ++ [p]) (covg n).
Definition push_in (p : nat) (n : KmerNode) : KmerNode :=
  mkKmerNode (id n) (path n) (inNodes n ++ [p]) (outNodes n) (covg n).

(** Modelled from the spec: [KmerNode::operator==] is defined with
    kmernode.h, outside the two translation units; insertion is
    deduplicated on the node's path. *)
Definition node_eqb (a b : KmerNode) : bool := bool_decide (path a = path b).

(** [KmerGraph::add_node] *)
Definition add_node (g : t) (p : Path) : t :=
  let n := mkKmerNode (next_id g) p [] [] 0 in
  if existsb (node_eqb n) (nodes g) then g
  else mkKmerGraph (nodes g ++ [n]) (u32 (next_id g + 1)).

(** [KmerGraph::add_edge (const uint32_t& from, const uint32_t& to)] *)
Definition add_edge (g : t) (from to : Z) : outcome t :=
  let size := Z.of_nat (length (nodes g)) in
  if negb ((from <=? size) && (to <=? size)) then Fatal AssertionFailed
  else
    nf ← vec_get (nodes g) from;
    _ ← vec_get (nodes g) to;
    let pf := Z.to_nat from in
    let pt := Z.to_nat to in
    let nodes1 :=
      if bool_decide (pt ∈ outNodes nf) then nodes g
      else alter (push_out pt) pf (nodes g) in
    nt ← vec_get nodes1 to;
    let nodes2 :=
      if bool_decide (pf ∈ inNodes nt) then nodes1
      else alter (push_in pf) pt nodes1 in
    Ok (mkKmerGraph nodes2 (next_id g)).

(** [int] increment; signed overflow is undefined. *)
Definition incr_int (x : Z) : outcome Z :=
  if x <? INT_MAX then Ok (x + 1) else Undefined.

(** [nodes_by_level[lvl].push_back(p)], after [assert(lvl >= 0)]. *)
Definition place (levels : list (list nat)) (lvl : Z) (p : nat)
  : outcome (list (list nat)) :=
  if lvl <? 0 then Fatal AssertionFailed
  else
    bucket ← vec_get levels lvl;
    vec_set levels lvl (bucket ++ [p]).

(** The first loop of [get_node_order], from position [i] on. *)
Fixpoint walk (ns : list KmerNode) (i : nat) (starts ends : Z)
    (levels : list (list nat)) : outcome (list (list nat)) :=
  match ns with
  | [] => Ok levels
  | n :: rest =>
      ends' ← (if 1 <? Z.of_nat (length (inNodes n)) then incr_int ends
               else Ok ends);
      levels' ← place levels (starts - ends') i;
      starts' ← (if 1 <? Z.of_nat (length (outNodes n)) then incr_int starts
                 else Ok starts);
      walk rest (S i) starts' ends' levels'
  end.

(** The second loop: [for (i = size; i != 0; --i)] appends level [i-1]. *)
Fixpoint emit (i : nat) (levels : list (list nat)) : list nat :=
  match i with
  | O => []
  | S i' => default [] (levels !! i') ++ emit i' levels
  end.

(** [KmerGraph::get_node_order] *)
Definition get_node_order (g : t) : outcome (list nat) :=
  levels ← walk (nodes g) 0%nat 0 0 (replicate 10 []);
  Ok (emit (length levels) levels).

(** The graph of the [getNodeOrder] test: nodes 0..6 and eight edges. *)
Definition order_test_paths : list Path :=
  [ [(0,0)];
    [(0,1); (4,5); (8,9)];
    [(4,5); (8,9); (16,16); (23,24)];
    [(0,1); (4,5); (12,13)];
    [(4,5); (12,13); (16,16); (23,24)];
    [(0,1); (19,20); (23,24)];
    [(24,24)] ].

Definition order_test_edges : list (Z * Z) :=
  [(0,1); (1,2); (0,3); (3,4); (0,5); (2,6); (4,6); (5,6)].

Definition add_edges (g : t) (es : list (Z * Z)) : outcome t :=
  foldl (fun r e => g' ← r; add_edge g' e.1 e.2) (Ok g) es.

Definition order_test_graph : outcome t :=
  add_edges (foldl add_node empty order_test_paths) order_test_edges.

(** The bubble level of the node at position [i], in the words of the
    specification: bubble starts seen strictly before it minus bubble ends
    seen up to and including it. *)
Definition is_bubble_start (n : KmerNode) : bool :=
  1 <? Z.of_nat (length (outNodes n)).
Definition is_bubble_end (n : KmerNode) : bool :=
  1 <? Z.of_nat (length (inNodes n)).
Definition count (f : KmerNode → bool) (ns : list KmerNode) : Z :=
  Z.of_nat (length (filter (fun n => f n = true) ns)).
Definition bubble_level (g : t) (i : nat) : Z :=
  count is_bubble_start (take i (nodes g))
  - count is_bubble_end (take (S i) (nodes g)).

Definition levels_in_range (g : t) : bool :=
  forallb (fun i => (0 <=? bubble_level g i) && (bubble_level g i <? 10))
          (seq 0 (length (nodes g))).

(** Positions of the nodes at level [l], in insertion order. *)
Definition level_members (g : t) (l : Z) : list nat :=
  filter (fun i => bubble_level g i = l) (seq 0 (length (nodes g))).

Definition order_by_level (g : t) : list nat :=
  concat (map (level_members g) [9; 8; 7; 6; 5; 4; 3; 2; 1; 0]).

(** *** Vocabulary of the statements *)

Definition indicator (b : bool) : Z := if b then 1 else 0.

(** The counters of the first loop agree with a level function [lev] on
    the nodes still to be walked. *)
Definition tracks (lev : nat → Z) (ns : list KmerNode) (i : nat)
    (starts ends : Z) : Prop :=
  ∀ j : nat, (j < length ns)%nat →
    lev (i + j)%nat
    = (starts + count is_bubble_start (take j ns))
      - (ends + count is_bubble_end (take (S j) ns)).

(** The graph of the [addEdge] test, before any edge is added. *)
Definition two_node_graph : t := foldl add_node empty [[(0,3)]; [(0,4)]].

(** The graph of the [getNodeOrder] test, as a value. *)
Definition order_test_value : t :=
  match order_test_graph with Ok g => g | _ => empty end.

(** A chain of three nodes. *)
Definition chain_graph : t :=
  match add_edges (foldl add_node empty [[(0,0)]; [(0,3)]; [(3,3)]])
          [(0,1); (1,2)] with
  | Ok g => g
  | _ => empty
  end.

(** Two graphs on which the running level leaves the ten buckets.  In the
    first, with the edges 0→1, 0→2, 0→3, 1→4, 2→4, 4→5 and 3→5, one
    bubble start is followed by two bubble ends and the last node is at
    level -1.  In the second the nodes 0 to 9 each start a bubble, by the
    edges [i → i + 1] and [i → 11], and the node 10 is at level 10. *)
Definition two_ends_graph : outcome t :=
  add_edges
    (foldl add_node empty
       [[(0,0)]; [(0,3)]; [(1,4)]; [(2,5)]; [(3,6)]; [(6,6)]])
    [(0,1); (0,2); (0,3); (1,4); (2,4); (4,5); (3,5)].

Definition ten_starts_graph : outcome t :=
  add_edges
    (foldl add_node empty ((λ i : Z, [(i, i + 3)]) <$> seqZ 0 12))
    (((λ i : Z, (i, i + 1)) <$> seqZ 0 11)
       ++ ((λ i : Z, (i, 11)) <$> seqZ 0 10)).

(** *** The other members of [KmerGraph] *)

(** [KmerGraph::clear] *)
Definition clear (g : t) : t := mkKmerGraph [] 0.

(** [find_if (nodes.begin(), nodes.end(), condition(q))]: the position of
    the first node whose path is [q]. *)
Definition find_path (ns : list KmerNode) (q : Path) : option nat :=
  fst <$> list_find (λ n, path n = q) ns.

(** [KmerGraph::add_edge (const Path& from, const Path& to)]: the in-edge
    is pushed only together with the out-edge. *)
Definition add_edge_path (g : t) (from to : Path) : outcome t :=
  match find_path (nodes g) from, find_path (nodes g) to with
  | Some pf, Some pt =>
      nf ← vec_get (nodes g) (Z.of_nat pf);
      if bool_decide (pt ∈ outNodes nf) then Ok g
      else Ok (mkKmerGraph
                 (alter (push_in pf) pt (alter (push_out pt) pf (nodes g)))
                 (next_id g))
  | _, _ => Fatal AssertionFailed
  end.

(** [KmerGraph::check]; [num_minikmers + 2] is computed in [uint]. *)
Definition check (g : t) (num_minikmers : Z) : outcome unit :=
  let size := Z.of_nat (length (nodes g)) in
  if negb ((num_minikmers =? 0) || (size =? u32 (num_minikmers + 2)))
  then Fatal AssertionFailed
  else if forallb
            (λ c, ((0 <? Z.of_nat (length (inNodes c))) || (id c =? 0))
                  && ((0 <? Z.of_nat (length (outNodes c)))
                      || (id c =? size - 1)))
            (nodes g)
  then Ok ()
  else Fatal AssertionFailed.

(** *** The GFA file of a graph

    A line of the file is held as the fields that [split (line, "\t")]
    gives and that [load] converts: the text of a number is the number, and
    the text of a path is the path. *)
Record s_line : Type := mkS {
  s_fields : Z;          (* split_line.size() *)
  s_id : Z;              (* stoi(split_line[1]) *)
  s_path : Path;         (* split_line[2], read as a path *)
  s_covg : Z             (* stoi of the RC:i: field *)
}.

Record l_line : Type := mkL {
  l_fields : Z;          (* split_line.size() *)
  l_from : Z;            (* stoi(split_line[1]) *)
  l_to : Z;              (* stoi(split_line[3]) *)
  l_same_sign : bool     (* split_line[2] == split_line[4] *)
}.

Inductive gfa_line : Type :=
| SLine (s : s_line)
| LLine (l : l_line)
| OtherLine.

(** The L-lines that [save] writes for the out-nodes [outs] of the node
    with id [from]: "L", from, "+", to, "+", "0M". *)
Fixpoint save_links (all : list KmerNode) (from : Z) (outs : list nat)
  : outcome (list gfa_line) :=
  match outs with
  | [] => Ok []
  | p :: rest =>
      target ← vec_get all (Z.of_nat p);
      ls ← save_links all from rest;
      Ok (LLine (mkL 6 from (id target) true) :: ls)
  end.

(** The loop of [save]: for every node its S-line, "S", id, path and
    "RC:i:" covg, followed by its L-lines. *)
Fixpoint save_nodes (all ns : list KmerNode) : outcome (list gfa_line) :=
  match ns with
  | [] => Ok []
  | n :: rest =>
      links ← save_links all (id n) (outNodes n);
      ls ← save_nodes all rest;
      Ok (SLine (mkS 4 (id n) (path n) (covg n)) :: links ++ ls)
  end.

(** [KmerGraph::save]: the header line, then the nodes. *)
Definition save (g : t) : outcome (list gfa_line) :=
  ls ← save_nodes (nodes g) (nodes g);
  Ok (OtherLine :: ls).

Definition with_covg (c : Z) (n : KmerNode) : KmerNode :=
  mkKmerNode (id n) (path n) (inNodes n) (outNodes n) c.

(** The body of the first loop of [load] on an S-line. *)
Definition load_s (g : t) (s : s_line) : outcome t :=
  if negb (4 <=? s_fields s) then Fatal AssertionFailed
  else
    let id := u32 (s_id s) in
    let g1 := add_node g (s_path s) in
    let back_pos := Z.of_nat (length (nodes g1)) - 1 in
    back ← vec_get (nodes g1) back_pos;
    if negb (KmerGraph.id back =? id) then Fatal AssertionFailed
    else
      nodes' ← vec_set (nodes g1) back_pos (with_covg (u32 (s_covg s)) back);
      Ok (mkKmerGraph nodes' (next_id g1)).

(** The body of the second loop of [load] on an L-line. *)
Definition load_l (g : t) (l : l_line) : outcome t :=
  if negb (5 <=? l_fields l) then Fatal AssertionFailed
  else
    let from := u32 (if l_same_sign l then l_from l else l_to l) in
    let to := u32 (if l_same_sign l then l_to l else l_from l) in
    add_edge g from to.

Fixpoint load_nodes (lines : list gfa_line) (g : t) : outcome t :=
  match lines with
  | [] => Ok g
  | SLine s :: rest => g' ← load_s g s; load_nodes rest g'
  | _ :: rest => load_nodes rest g
  end.

Fixpoint load_edges (lines : list gfa_line) (g : t) : outcome t :=
  match lines with
  | [] => Ok g
  | LLine l :: rest => g' ← load_l g l; load_edges rest g'
  | _ :: rest => load_edges rest g
  end.

(** [KmerGraph::load], on a file that could be opened: the nodes of the
    file are added to the graph as it is, then the edges.  [lines] are the
    lines that the two loops [while (getline (myfile, line).good ())]
    process, those that a newline ends, as are all the lines that [save]
    writes. *)
Definition load (g : t) (lines : list gfa_line) : outcome t :=
  g1 ← load_nodes lines g;
  load_edges lines g1.

(** [KmerGraph::operator==] *)
Definition equal (x y : t) : bool :=
  if negb (Z.of_nat (length (nodes y)) =? Z.of_nat (length (nodes x)))
  then false
  else forallb (λ n, existsb (node_eqb n) (nodes y)) (nodes x).

(** *** Vocabulary of the statements about sequences of calls *)

Inductive call : Type :=
| AddNode (p : Path)
| AddEdge (from to : Z)
| AddEdgeByPath (from to : Path)
| Clear.

Definition perform (g : t) (c : call) : outcome t :=
  match c with
  | AddNode p => Ok (add_node g p)
  | AddEdge from to => add_edge g from to
  | AddEdgeByPath from to => add_edge_path g from to
  | Clear => Ok (clear g)
  end.

Fixpoint perform_all (cs : list call) (g : t) : outcome t :=
  match cs with
  | [] => Ok g
  | c :: rest => g' ← perform g c; perform_all rest g'
  end.

(** The id of a node is its position, and [next_id] the number of nodes,
    both as [uint32_t]. *)
Definition ids_are_positions (g : t) : Prop :=
  next_id g = u32 (Z.of_nat (length (nodes g)))
  ∧ ∀ (i : nat) n, nodes g !! i = Some n → id n = u32 (Z.of_nat i).

(** Every edge list names nodes of the graph, once each. *)
Definition edges_closed (g : t) : Prop :=
  ∀ (i : nat) n, nodes g !! i = Some n →
    (∀ j, j ∈ outNodes n → (j < length (nodes g))%nat)
    ∧ (∀ j, j ∈ inNodes n → (j < length (nodes g))%nat)
    ∧ NoDup (outNodes n) ∧ NoDup (inNodes n).

(** [j] is an out-node of [i] exactly when [i] is an in-node of [j]. *)
Definition reciprocal (g : t) : Prop :=
  ∀ (i j : nat) ni nj,
    nodes g !! i = Some ni → nodes g !! j = Some nj →
    (j ∈ outNodes ni ↔ i ∈ inNodes nj).

Definition distinct_paths (g : t) : Prop := NoDup (path <$> nodes g).

Definition well_formed (g : t) : Prop :=
  ids_are_positions g ∧ edges_closed g ∧ reciprocal g ∧ distinct_paths g.

(** What [add_edge] makes of the two endpoints. *)
Definition add_out (j : nat) (n : KmerNode) : KmerNode :=
  if bool_decide (j ∈ outNodes n) then n else push_out j n.
Definition add_in (i : nat) (n : KmerNode) : KmerNode :=
  if bool_decide (i ∈ inNodes n) then n else push_in i n.

(** The node at position [i] after an edge [from → to] was added. *)
Definition linked (from to i : nat) (n : KmerNode) : KmerNode :=
  let n1 := if decide (i = from) then add_out to n else n in
  if decide (i = to) then add_in from n1 else n1.

(** The node at position [k] after the edges [es] were added in turn. *)
Definition relink (es : list (nat * nat)) (k : nat) (n : KmerNode)
  : KmerNode :=
  foldl (λ n e, linked e.1 e.2 k n) n es.

(** A node as the first loop of [load] rebuilds it: without edges. *)
Definition strip (n : KmerNode) : KmerNode :=
  mkKmerNode (id n) (path n) [] [] (covg n).

(** The lines of the nodes [ns] that sit at the positions from [i] on, and
    the edges these lines name, in file order. *)
Definition links_of (from : nat) (outs : list nat) : list gfa_line :=
  (λ p, LLine (mkL 6 (Z.of_nat from) (Z.of_nat p) true)) <$> outs.

Fixpoint file_from (i : nat) (ns : list KmerNode) : list gfa_line :=
  match ns with
  | [] => []
  | n :: rest =>
      SLine (mkS 4 (Z.of_nat i) (path n) (covg n))
      :: links_of i (outNodes n) ++ file_from (S i) rest
  end.

Fixpoint edges_from (i : nat) (ns : list KmerNode) : list (nat * nat) :=
  match ns with
  | [] => []
  | n :: rest => ((λ p, (i, p)) <$> outNodes n) ++ edges_from (S i) rest
  end.

(** Two nodes that differ at most in the order of their in-nodes. *)
Definition same_node (a b : KmerNode) : Prop :=
  id a = id b ∧ path a = path b ∧ covg a = covg b
  ∧ outNodes a = outNodes b ∧ inNodes a ≡ₚ inNodes b.

(** The calls of the [addNode] and [addEdge] tests, one after the other,
    and the graph they leave. *)
Definition test_calls : list call :=
  [ AddNode [(0, 3)]; AddNode [(0, 3)]; AddNode [(0, 4)];
    AddEdgeByPath [(0, 3)] [(0, 4)]; AddEdgeByPath [(0, 3)] [(0, 4)];
    AddEdge 0 1; AddNode [(4, 5)]; AddEdge 1 2; AddEdge 0 2 ].

Definition test_graph : t :=
  match perform_all test_calls empty with Ok g => g | _ => empty end.

End KmerGraph.

(** ** Floating-point arithmetic

    The probability code computes in [float].  The embedding is parametric
    in the number type and its operations: nothing below depends on how
    they round.  [fltb], [fleb] and [feqb] are the C++ comparisons [<],
    [<=] and [==]; [a > b] is [fltb b a]. *)

Class FloatOps (F : Type) : Type := {
  fadd : F → F → F;
  fsub : F → F → F;
  fmul : F → F → F;
  fdiv : F → F → F;
  fltb : F → F → bool;
  fleb : F → F → bool;
  feqb : F → F → bool;
  of_int : Z → F;               (* conversion of an integer value *)
  flog : F → F;                 (* log *)
  fexp : F → F;                 (* exp *)
  flowest : F;                  (* std::numeric_limits<float>::lowest() *)
  ftolerance : F;               (* the literal 0.000001 *)
  (* boost: pdf(negative_binomial(r, p), k) *)
  nbin_pdf : F → F → Z → F;
  (* utils.h: log of the multinomial coefficient C(n; k1, k2) *)
  lognchoosek2 : Z → Z → Z → F
}.

(** [std::max(a, b)] *)
Definition fmax {F} `{FloatOps F} (a b : F) : F := if fltb a b then b else a.

(** *** An instance: IEEE 754 binary64

    Rocq's primitive floats, to run the embedding on concrete graphs.  The
    four field operations and the comparisons are the machine's; [log] and
    [exp] are computed by series, the negative binomial mass through
    Lanczos' approximation of the Gamma function.  The program's [float]
    is binary32: it rounds to fewer digits and treats infinities, NaN and
    comparisons alike. *)

Module Binary64.

Abbreviation float := PrimFloat.float.

(** Integers up to 63 bits convert exactly or by one rounding. *)
Definition of_Z (z : Z) : float :=
  if z <? 0 then PrimFloat.opp (PrimFloat.of_uint63 (Uint63.of_Z (- z)))
  else PrimFloat.of_uint63 (Uint63.of_Z z).

Definition ratio (a b : Z) : float := PrimFloat.div (of_Z a) (of_Z b).

Definition is_nan (x : float) : bool := negb (PrimFloat.eqb x x).

Definition ln2 : float := ratio 6243314768165359 9007199254740992.

(** [sum_{k < n} y^(2k+1) / (2k+1)] *)
Fixpoint atanh_series (n : nat) (k : Z) (y2 pow acc : float) : float :=
  match n with
  | O => acc
  | S n' =>
      atanh_series n' (k + 2) y2 (PrimFloat.mul pow y2)
        (PrimFloat.add acc (PrimFloat.div pow (of_Z k)))
  end.

Definition log (x : float) : float :=
  if is_nan x then x
  else if PrimFloat.ltb x (of_Z 0) then PrimFloat.div (of_Z 0) (of_Z 0)
  else if PrimFloat.eqb x (of_Z 0) then PrimFloat.neg_infinity
  else if PrimFloat.eqb x PrimFloat.infinity then x
  else
    let (m, e) := PrimFloat.frshiftexp x in
    let y := PrimFloat.div (PrimFloat.sub m (of_Z 1)) (PrimFloat.add m (of_Z 1)) in
    let s := atanh_series 24 1 (PrimFloat.mul y y) y (of_Z 0) in
    PrimFloat.add (PrimFloat.mul (of_Z 2) s)
      (PrimFloat.mul (of_Z (Uint63.to_Z e - 2101)) ln2).

(** [sum_{k < n} r^k / k!] *)
Fixpoint exp_series (n : nat) (k : Z) (r term acc : float) : float :=
  match n with
  | O => acc
  | S n' =>
      exp_series n' (k + 1) r
        (PrimFloat.div (PrimFloat.mul term r) (of_Z k))
        (PrimFloat.add acc term)
  end.

Fixpoint square_times (n : nat) (x : float) : float :=
  match n with
  | O => x
  | S n' => square_times n' (PrimFloat.mul x x)
  end.

Definition exp (x : float) : float :=
  if is_nan x then x
  else if PrimFloat.eqb x PrimFloat.infinity then x
  else if PrimFloat.eqb x PrimFloat.neg_infinity then of_Z 0
  else
    let r := PrimFloat.div x (of_Z 1024) in
    square_times 10 (exp_series 20 1 r (of_Z 1) (of_Z 0)).

(** [sum_{lo < m <= lo + n} log m] *)
Fixpoint sum_logs (n : nat) (m : Z) (acc : float) : float :=
  match n with
  | O => acc
  | S n' => sum_logs n' (m + 1) (PrimFloat.add acc (log (of_Z m)))
  end.

(** [log (n! / (k1! k2! (n - k1 - k2)!))] *)
Definition log_multinomial (n k1 k2 : Z) : float :=
  PrimFloat.sub
    (PrimFloat.sub (sum_logs (Z.to_nat (k1 + k2)) (n - k1 - k2 + 1) (of_Z 0))
                   (sum_logs (Z.to_nat k1) 1 (of_Z 0)))
    (sum_logs (Z.to_nat k2) 1 (of_Z 0)).

(** Lanczos approximation of [log (Gamma x)], for [x >= 1/2]. *)
Definition lanczos : list float :=
  [ ratio 6765203681218851 10000000000000;
    ratio (-12591392167224028) 10000000000000;
    ratio 77132342877765313 100000000000000;
    ratio (-17661502916214059) 100000000000000;
    ratio 12507343278686905 1000000000000000;
    ratio (-13857109526572012) 100000000000000000;
    PrimFloat.div (ratio 99843695780195716 10000000000000000) (of_Z 1000000);
    PrimFloat.div (ratio 15056327351493116 10000000000000000) (of_Z 10000000) ].

Fixpoint lanczos_sum (cs : list float) (i : Z) (x acc : float) : float :=
  match cs with
  | [] => acc
  | c :: cs' =>
      lanczos_sum cs' (i + 1) x
        (PrimFloat.add acc (PrimFloat.div c (PrimFloat.add x (of_Z i))))
  end.

Definition lgamma (x : float) : float :=
  let x1 := PrimFloat.sub x (of_Z 1) in
  let a := lanczos_sum lanczos 1 x1 (ratio 99999999999980993 100000000000000000) in
  let t := PrimFloat.add x1 (ratio 15 2) in
  PrimFloat.add
    (PrimFloat.sub
       (PrimFloat.add (ratio 9189385332046727 10000000000000000)
          (PrimFloat.mul (PrimFloat.add x1 (ratio 1 2)) (log t)))
       t)
    (log a).

(** The mass at [k] of the negative binomial with [r] successes and success
    fraction [p]: [Gamma (r + k) / (k! Gamma r) p^r (1 - p)^k]. *)
Definition negative_binomial_pdf (r p : float) (k : Z) : float :=
  exp (PrimFloat.add
         (PrimFloat.sub
            (PrimFloat.sub (lgamma (PrimFloat.add r (of_Z k)))
                           (lgamma (of_Z (k + 1))))
            (lgamma r))
         (PrimFloat.add (PrimFloat.mul r (log p))
            (PrimFloat.mul (of_Z k) (log (PrimFloat.sub (of_Z 1) p))))).

(** [numeric_limits<float>::lowest()], which is [-(2^24 - 1) * 2^104]. *)
Definition lowest : float :=
  PrimFloat.opp
    (PrimFloat.mul (PrimFloat.mul (of_Z 16777215) (of_Z 4503599627370496))
                   (of_Z 4503599627370496)).

(** The [float] nearest to 0.000001, which is [17592186 / 2^44]. *)
Definition tolerance : float := ratio 17592186 17592186044416.

#[global] Instance ops : FloatOps float := {|
  fadd := PrimFloat.add;
  fsub := PrimFloat.sub;
  fmul := PrimFloat.mul;
  fdiv := PrimFloat.div;
  fltb := PrimFloat.ltb;
  fleb := PrimFloat.leb;
  feqb := PrimFloat.eqb;
  of_int := of_Z;
  flog := log;
  fexp := exp;
  flowest := lowest;
  ftolerance := tolerance;
  nbin_pdf := negative_binomial_pdf;
  lognchoosek2 := log_multinomial
|}.

End Binary64.

(** ** [KmerGraphWithCoverage] (src/src/kmergraphwithcoverage.cpp) *)

Module KGC.

Inductive Strand : Type := Forward | Reverse.

#[global] Instance Strand_eq_dec : EqDecision Strand.
Proof. solve_decision. Defined.

(** Nodes are held through shared pointers, and the graph's [nodes] and
    [sorted_nodes] are two views of the same nodes.  A pointer to a node is
    represented by the node's id, the one field this translation unit reads
    through [in_nodes] and [out_nodes]. *)
Record KmerNode : Type := mkKmerNode {
  id : Z;
  path : Path;
  in_nodes : list Z;
  out_nodes : list Z;
  num_AT : Z
}.

(** The members of the borrowed graph that this translation unit uses. *)
Record KmerGraph : Type := mkKmerGraph {
  nodes : list KmerNode;
  sorted_nodes : list KmerNode;
  k : Z
}.

(** The members of [KmerGraphWithCoverage]; [F] is the type of its
    [float] members. *)
Record t (F : Type) : Type := mkKGC {
  kmer_prg : KmerGraph;
  node_index_to_sample_coverage : list (list (Z * Z));
  num_reads : Z;
  exp_depth_covg : Z;
  binomial_parameter_p : F;
  negative_binomial_parameter_p : F;
  negative_binomial_parameter_r : F;
  thresh : F
}.

Arguments kmer_prg {F} _.
Arguments node_index_to_sample_coverage {F} _.
Arguments num_reads {F} _.
Arguments exp_depth_covg {F} _.
Arguments binomial_parameter_p {F} _.
Arguments negative_binomial_parameter_p {F} _.
Arguments negative_binomial_parameter_r {F} _.
Arguments thresh {F} _.

Definition with_coverage {F} (g : t F) (c : list (list (Z * Z))) : t F :=
  mkKGC F (kmer_prg g) c (num_reads g) (exp_depth_covg g)
        (binomial_parameter_p g) (negative_binomial_parameter_p g)
        (negative_binomial_parameter_r g) (thresh g).

Definition with_binomial_p {F} (g : t F) (p : F) : t F :=
  mkKGC F (kmer_prg g) (node_index_to_sample_coverage g) (num_reads g)
        (exp_depth_covg g) p (negative_binomial_parameter_p g)
        (negative_binomial_parameter_r g) (thresh g).

Definition with_kmer_prg {F} (g : t F) (kg : KmerGraph) : t F :=
  mkKGC F kg (node_index_to_sample_coverage g) (num_reads g)
        (exp_depth_covg g) (binomial_parameter_p g)
        (negative_binomial_parameter_p g)
        (negative_binomial_parameter_r g) (thresh g).

Definition strand_of (s : Strand) (c : Z * Z) : Z :=
  match s with Forward => c.1 | Reverse => c.2 end.

Definition strand_set (s : Strand) (v : Z) (c : Z * Z) : Z * Z :=
  match s with Forward => (v, c.2) | Reverse => (c.1, v) end.

Section Coverage.
Context {F : Type}.

(** [KmerGraphWithCoverage::increment_covg] *)
Definition increment_covg (g : t F) (node_id : Z) (strand : Strand)
    (sample_id : Z) : outcome (t F) :=
  row ← vec_get (node_index_to_sample_coverage g) node_id;
  if negb (sample_id <? Z.of_nat (length row)) then Fatal SampleInvalid
  else
    c ← vec_get row sample_id;
    let v := strand_of strand c in
    let v' := if v <? UINT16_MAX then u16 (v + 1) else v in
    row' ← vec_set row sample_id (strand_set strand v' c);
    cov' ← vec_set (node_index_to_sample_coverage g) node_id row';
    Ok (with_coverage g cov').

(** [KmerGraphWithCoverage::get_covg] *)
Definition get_covg (g : t F) (node_id : Z) (strand : Strand)
    (sample_id : Z) : outcome Z :=
  row ← vec_get (node_index_to_sample_coverage g) node_id;
  if Z.of_nat (length row) <=? sample_id then Ok 0
  else
    c ← vec_get row sample_id;
    Ok (strand_of strand c).

(** [KmerGraphWithCoverage::set_covg] *)
Definition set_covg (g : t F) (node_id : Z) (value : Z) (strand : Strand)
    (sample_id : Z) : outcome (t F) :=
  row ← vec_get (node_index_to_sample_coverage g) node_id;
  if negb (sample_id <? Z.of_nat (length row)) then Fatal SampleInvalid
  else
    c ← vec_get row sample_id;
    row' ← vec_set row sample_id (strand_set strand value c);
    cov' ← vec_set (node_index_to_sample_coverage g) node_id row';
    Ok (with_coverage g cov').

(** The strand-specific accessors of kmergraphwithcoverage.h forward to
    [get_covg] and [set_covg]. *)
Definition get_forward_covg (g : t F) (node_id sample_id : Z) : outcome Z :=
  get_covg g node_id Forward sample_id.
Definition get_reverse_covg (g : t F) (node_id sample_id : Z) : outcome Z :=
  get_covg g node_id Reverse sample_id.
Definition set_forward_covg (g : t F) (node_id value sample_id : Z)
  : outcome (t F) := set_covg g node_id value Forward sample_id.
Definition set_reverse_covg (g : t F) (node_id value sample_id : Z)
  : outcome (t F) := set_covg g node_id value Reverse sample_id.

(** The sum of two [uint32_t] coverages. *)
Definition sum_covg (g : t F) (node_id sample_id : Z) : outcome Z :=
  f ← get_forward_covg g node_id sample_id;
  r ← get_reverse_covg g node_id sample_id;
  Ok (u32 (f + r)).

(** The loop of [coverage_is_zeroes]: [true] when it runs to the end,
    [false] when it breaks. *)
Fixpoint all_zero_from (g : t F) (ns : list KmerNode) (sample_id : Z)
  : outcome bool :=
  match ns with
  | [] => Ok true
  | n :: rest =>
      covg ← sum_covg g (id n) sample_id;
      if 0 <? covg then Ok false else all_zero_from g rest sample_id
  end.

(** [KmerGraphWithCoverage::coverage_is_zeroes] *)
Definition coverage_is_zeroes (g : t F) (sample_id : Z) : outcome bool :=
  all_zero_from g (nodes (kmer_prg g)) sample_id.

End Coverage.

Section Probability.
Context {F : Type} `{FloatOps F}.

(** [KmerGraphWithCoverage::set_binomial_parameter_p] *)
Definition set_binomial_parameter_p (g : t F) (e_rate : F) : outcome (t F) :=
  let valid_parameters_to_set_p :=
    negb (k (kmer_prg g) =? 0)
    && (fltb (of_int 0) e_rate && fltb e_rate (of_int 1)) in
  if negb valid_parameters_to_set_p then Fatal InvalidParameters
  else
    Ok (with_binomial_p g
          (fdiv (of_int 1) (fexp (fmul e_rate (of_int (k (kmer_prg g))))))).

(** [KmerGraphWithCoverage::nbin_prob] *)
Definition nbin_prob (g : t F) (node_id sample_id : Z) : outcome F :=
  k ← sum_covg g node_id sample_id;
  let prob :=
    nbin_pdf (negative_binomial_parameter_r g)
             (negative_binomial_parameter_p g) k in
  let log_prob := flog prob in
  Ok (fmax log_prob (fdiv flowest (of_int 1000))).

(** [KmerGraphWithCoverage::lin_prob] *)
Definition lin_prob (g : t F) (node_id sample_id : Z) : outcome F :=
  if num_reads g =? 0 then Fatal NoReadsMapped
  else
    k ← sum_covg g node_id sample_id;
    Ok (flog (fdiv (of_int k) (of_int (num_reads g)))).

(** [KmerGraphWithCoverage::bin_prob (node_id, num, sample_id)] *)
Definition bin_prob_num (g : t F) (node_id num sample_id : Z) : outcome F :=
  let p := binomial_parameter_p g in
  if feqb p (of_int 1) then Fatal BinomialPNotSet
  else if negb (node_id <? Z.of_nat (length (nodes (kmer_prg g))))
  then Fatal InexistentNode
  else
    sum_coverages ← sum_covg g node_id sample_id;
    first ← vec_get (sorted_nodes (kmer_prg g)) 0;
    final ← vec_get (sorted_nodes (kmer_prg g))
              (Z.of_nat (length (sorted_nodes (kmer_prg g))) - 1);
    if (node_id =? id first) || (node_id =? id final) then Ok (of_int 0)
    else if num <? sum_coverages then
      x_f ← get_forward_covg g node_id sample_id;
      x_r ← get_reverse_covg g node_id sample_id;
      Ok (fadd (lognchoosek2 sum_coverages x_f x_r)
               (fmul (of_int sum_coverages) (flog (fdiv p (of_int 2)))))
    else
      x_f ← get_forward_covg g node_id sample_id;
      x_r ← get_reverse_covg g node_id sample_id;
      Ok (fadd (fadd (lognchoosek2 num x_f x_r)
                     (fmul (of_int sum_coverages) (flog (fdiv p (of_int 2)))))
               (fmul (of_int (u32 (num - sum_coverages)))
                     (flog (fsub (of_int 1) p)))).

(** [KmerGraphWithCoverage::bin_prob (node_id, sample_id)] *)
Definition bin_prob (g : t F) (node_id sample_id : Z) : outcome F :=
  if num_reads g =? 0 then Fatal NoReadsMapped
  else bin_prob_num g node_id (num_reads g) sample_id.

(** [KmerGraphWithCoverage::get_prob] *)
Definition get_prob (g : t F) (prob_model : string) (node_id sample_id : Z)
  : outcome F :=
  if String.eqb prob_model "nbin" then nbin_prob g node_id sample_id
  else if String.eqb prob_model "bin" then
    let binomial_parameters_are_ok :=
      fltb (binomial_parameter_p g) (of_int 1) && (0 <? num_reads g) in
    if negb binomial_parameters_are_ok then Fatal BinomialParametersNotOk
    else bin_prob g node_id sample_id
  else if String.eqb prob_model "lin" then lin_prob g node_id sample_id
  else Fatal InvalidModel.

(** The summation loop of [prob_path]. *)
Fixpoint sum_probs (g : t F) (prob_model : string) (sample_id : Z)
    (kpath : list KmerNode) (acc : F) : outcome F :=
  match kpath with
  | [] => Ok acc
  | n :: rest =>
      p ← get_prob g prob_model (id n) sample_id;
      sum_probs g prob_model sample_id rest (fadd acc p)
  end.

(** The divisor [len] of [prob_path], a [uint32_t]. *)
Definition effective_len (kpath : list KmerNode) : outcome Z :=
  first ← vec_get kpath 0;
  final ← vec_get kpath (Z.of_nat (length kpath) - 1);
  let len0 := u32 (Z.of_nat (length kpath)) in
  let len1 := if path_length (path first) =? 0 then u32 (len0 - 1) else len0 in
  let len2 := if path_length (path final) =? 0 then u32 (len1 - 1) else len1 in
  Ok (if len2 =? 0 then 1 else len2).

(** [KmerGraphWithCoverage::prob_path] *)
Definition prob_path (g : t F) (kpath : list KmerNode) (sample_id : Z)
    (prob_model : string) : outcome F :=
  return_prob_path ← sum_probs g prob_model sample_id kpath (of_int 0);
  len ← effective_len kpath;
  Ok (fdiv return_prob_path (of_int len)).

End Probability.

(** *** The maximum-likelihood path *)

(** The three vectors of [find_max_path], each indexed by node id. *)
Record dp_state (F : Type) : Type := mkDP {
  max_sum_of_log_probs_from_node : list F;
  length_of_maxpath_from_node : list Z;
  prev_node_along_maxpath : list Z
}.

Arguments mkDP {F} _ _ _.
Arguments max_sum_of_log_probs_from_node {F} _.
Arguments length_of_maxpath_from_node {F} _.
Arguments prev_node_along_maxpath {F} _.

(** The scalars that live across the inner loop. *)
Record best (F : Type) : Type := mkBest {
  max_mean : F;
  max_length : Z      (* an [int] *)
}.

Arguments mkBest {F} _ _.
Arguments max_mean {F} _.
Arguments max_length {F} _.

(** Modelled from the spec: [KmerGraph::check ()] of the graph the
    coverage object borrows is defined outside the two translation units.
    It verifies that every non-source node has an in-edge and every
    non-sink node an out-edge, as [KmerGraph::check] of kmergraph.cpp
    does; a violation is fatal. *)
Definition check (kg : KmerGraph) : bool :=
  forallb (fun c =>
             (negb (Z.of_nat (length (in_nodes c)) =? 0) || (id c =? 0))
             && (negb (Z.of_nat (length (out_nodes c)) =? 0)
                 || (id c =? Z.of_nat (length (nodes kg)) - 1)))
          (nodes kg).

Section MaxPath.
Context {F : Type} `{FloatOps F}.

Variable g : t F.
Variable prob_model : string.
Variable max_num_kmers_to_average : Z.
Variable sample_id : Z.

Let sorted : list KmerNode := sorted_nodes (kmer_prg g).
Let back_id : outcome Z :=
  n ← vec_get sorted (Z.of_nat (length sorted) - 1); Ok (id n).

(** [for (step = 0; step < max_num_kmers_to_average; step++)
       prev_node = prev_node_along_maxpath[prev_node];] *)
Fixpoint walk_back (steps : nat) (prev : list Z) (prev_node : Z) : outcome Z :=
  match steps with
  | O => Ok prev_node
  | S steps' =>
      prev_node' ← vec_get prev prev_node;
      walk_back steps' prev prev_node'
  end.

(** [S[v] / L[v]], as read from the vectors. *)
Definition mean_from (st : dp_state F) (v : Z) : outcome F :=
  s ← vec_get (max_sum_of_log_probs_from_node st) v;
  l ← vec_get (length_of_maxpath_from_node st) v;
  Ok (fdiv s (of_int l)).

(** The condition of the [if] in the inner loop. *)
Definition wins (st : dp_state F) (b : best F) (v : Z) : outcome bool :=
  terminus ← back_id;
  mean_v ← mean_from st v;
  l_v ← vec_get (length_of_maxpath_from_node st) v;
  let is_terminus_and_most_likely :=
    (v =? terminus) && fltb (fadd (max_mean b) ftolerance) (thresh g) in
  let avg_log_likelihood_is_most_likely :=
    fltb (fadd (max_mean b) ftolerance) mean_v in
  let avg_log_likelihood_is_close_to_most_likely :=
    fleb (fsub (max_mean b) mean_v) ftolerance in
  let is_longer_path := u32 (max_length b) <? l_v in
  Ok (is_terminus_and_most_likely || avg_log_likelihood_is_most_likely
      || (avg_log_likelihood_is_close_to_most_likely && is_longer_path)).

(** The body of the [if (length > max_num_kmers_to_average)]. *)
Definition truncate (cur : Z) (st : dp_state F) : outcome (dp_state F) :=
  l_u ← vec_get (length_of_maxpath_from_node st) cur;
  if max_num_kmers_to_average <? l_u then
    prev_node ← vec_get (prev_node_along_maxpath st) cur;
    prev_node ← walk_back (Z.to_nat max_num_kmers_to_average)
                  (prev_node_along_maxpath st) prev_node;
    tail ← vec_get sorted prev_node;
    p ← get_prob g prob_model (id tail) sample_id;
    s_u ← vec_get (max_sum_of_log_probs_from_node st) cur;
    sums ← vec_set (max_sum_of_log_probs_from_node st) cur (fsub s_u p);
    lens ← vec_set (length_of_maxpath_from_node st) cur (u32 (l_u - 1));
    if u32 (l_u - 1) =? max_num_kmers_to_average
    then Ok (mkDP sums lens (prev_node_along_maxpath st))
    else Fatal AssertionFailed
  else Ok st.

(** One pass of the inner loop, for the out-node with id [v] of the node
    with id [cur]. *)
Definition consider (cur : Z) (sb : dp_state F * best F) (v : Z)
  : outcome (dp_state F * best F) :=
  let (st, b) := sb in
  w ← wins st b v;
  if (w : bool) then
    p ← get_prob g prob_model cur sample_id;
    s_v ← vec_get (max_sum_of_log_probs_from_node st) v;
    sums ← vec_set (max_sum_of_log_probs_from_node st) cur (fadd p s_v);
    l_v ← vec_get (length_of_maxpath_from_node st) v;
    lens ← vec_set (length_of_maxpath_from_node st) cur (u32 (1 + l_v));
    prevs ← vec_set (prev_node_along_maxpath st) cur v;
    st' ← truncate cur (mkDP sums lens prevs);
    terminus ← back_id;
    if negb (v =? terminus) then
      mean_v ← mean_from st' v;
      l_v' ← vec_get (length_of_maxpath_from_node st') v;
      Ok (st', mkBest mean_v (to_int l_v'))
    else Ok (st', mkBest (thresh g) (max_length b))
  else Ok sb.

(** The inner loop over [current_node->out_nodes]. *)
Fixpoint inner (cur : Z) (sb : dp_state F * best F) (outs : list Z)
  : outcome (dp_state F * best F) :=
  match outs with
  | [] => Ok sb
  | v :: rest => sb' ← consider cur sb v; inner cur sb' rest
  end.

(** One pass of the outer loop, for [current_node]. *)
Definition process (st : dp_state F) (current_node : KmerNode)
  : outcome (dp_state F) :=
  sb ← inner (id current_node) (st, mkBest flowest 0) (out_nodes current_node);
  Ok sb.1.

(** The outer loop [for (j; j != 0; --j)], with
    [current_node = sorted_nodes[j - 1]]. *)
Fixpoint outer (j : nat) (st : dp_state F) : outcome (dp_state F) :=
  match j with
  | O => Ok st
  | S j' =>
      current_node ← vec_get sorted (Z.of_nat j');
      st' ← process st current_node;
      outer j' st'
  end.

(** The [while] loop that extracts the path.  Every pass pushes a node,
    and a path of more than 1000000 nodes is fatal, so the loop is entered
    at most 1000001 times; [fuel] counts the passes that are left. *)
Fixpoint extract (fuel : nat) (st : dp_state F) (prev_node : Z)
    (maxpath : list KmerNode) : outcome (list KmerNode) :=
  if prev_node <? Z.of_nat (length sorted) - 1 then
    match fuel with
    | O => Undefined
    | S fuel' =>
        n ← vec_get (nodes (kmer_prg g)) prev_node;
        let maxpath' := maxpath ++ [n] in
        prev_node' ← vec_get (prev_node_along_maxpath st) prev_node;
        if 1000000 <? Z.of_nat (length maxpath') then Fatal InfiniteLoop
        else extract fuel' st prev_node' maxpath'
    end
  else Ok maxpath.

Definition extract_fuel (maxpath : list KmerNode) : nat :=
  S (Z.to_nat (1000000 - Z.of_nat (length maxpath))).

(** The extraction of the path, from the successor of the source on. *)
Definition reconstruct (st : dp_state F) (maxpath : list KmerNode)
  : outcome (list KmerNode) :=
  source ← vec_get sorted 0;
  prev_node ← vec_get (prev_node_along_maxpath st) (id source);
  extract (extract_fuel maxpath) st prev_node maxpath.

(** The state before the outer loop. *)
Definition dp_init : dp_state F :=
  let n := length sorted in
  mkDP (replicate n (of_int 0)) (replicate n 0)
       (replicate n (u32 (Z.of_nat n - 1))).

(** The dynamic program: the vectors after the outer loop.  With no sorted
    node at all, [j] starts from [UINT32_MAX] and [sorted_nodes[j - 1]] is
    read out of range. *)
Definition run_dp : outcome (dp_state F) :=
  match sorted with
  | [] => Undefined
  | _ :: _ => outer (length sorted - 1) dp_init
  end.

(** [KmerGraphWithCoverage::find_max_path]; the result pairs the returned
    score with the contents of the reference parameter [maxpath]. *)
Definition find_max_path (maxpath : list KmerNode)
  : outcome (F * list KmerNode) :=
  if negb (check (kmer_prg g)) then Fatal CheckFailed
  else
    coverages_all_zero ← coverage_is_zeroes g sample_id;
    if (coverages_all_zero : bool) then Ok (flowest, maxpath)
    else
      st ← run_dp;
      maxpath' ← reconstruct st maxpath;
      l_0 ← vec_get (length_of_maxpath_from_node st) 0;
      if negb (0 <? l_0) then Fatal NoPathFound
      else
        p ← prob_path g maxpath' sample_id prob_model;
        Ok (p, maxpath').

End MaxPath.

(** *** Loading a GFA file *)

(** A line of the file after [split (line, "\t")] and the numeric
    conversions [load] applies to its fields. *)
Record s_line : Type := mkS {
  s_fields : Z;          (* split_line.size() *)
  s_id : Z;              (* stoi(split_line[1]), an int *)
  s_digit : bool;        (* isdigit of the first character of split_line[2] *)
  s_path : Path;         (* split_line[2], read as a path *)
  s_fc : Z;              (* stoul of the FC:i: field *)
  s_rc : Z;              (* stoul of the RC:i: field *)
  s_num_AT : Z           (* stoi(split_line[5]) *)
}.

Record l_line : Type := mkL {
  l_fields : Z;          (* split_line.size() *)
  l_from : Z;            (* stoi(split_line[1]), an int *)
  l_to : Z;              (* stoi(split_line[3]), an int *)
  l_same_sign : bool     (* split_line[2] == split_line[4] *)
}.

Inductive gfa_line : Type :=
| SLine (s : s_line)
| LLine (l : l_line)
| OtherLine.

(** A file as [getline] cuts it: the lines that a newline ends, and the
    characters after the last newline when the file does not end with
    one. *)
Record gfa_file : Type := mkFile {
  ended_lines : list gfa_line;
  open_line : option gfa_line
}.

(** The lines on which the body of a loop
    [while (getline (myfile, line).good ())] runs.  [getline] reads a line
    that no newline ends up to the end of the file and sets [eofbit]: the
    stream is not [good ()], and the loop ends without a pass on that
    line.  After the last newline of a file that ends with one, [getline]
    reads nothing and fails. *)
Definition good_lines (file : gfa_file) : list gfa_line := ended_lines file.


Definition push_out (p : Z) (n : KmerNode) : KmerNode :=
  mkKmerNode (id n) (path n) (in_nodes n) (out_nodes n ++ [p]) (num_AT n).
Definition push_in (p : Z) (n : KmerNode) : KmerNode :=
  mkKmerNode (id n) (path n) (in_nodes n ++ [p]) (out_nodes n) (num_AT n).

(** A write through a pointer reaches the node in both views. *)
Definition update_node (f : KmerNode → KmerNode) (target : Z)
    (ns : list KmerNode) : list KmerNode :=
  map (fun n => if id n =? target then f n else n) ns.

(** Modelled from the spec: [KmerGraph::add_edge (KmerNodePtr, KmerNodePtr)]
    of the borrowed graph is defined outside the two translation units.
    It is idempotent and adds reciprocal in/out references. *)
Definition add_edge (kg : KmerGraph) (from to : KmerNode) : KmerGraph :=
  let kg1 :=
    if bool_decide (id to ∈ out_nodes from) then kg
    else mkKmerGraph (update_node (push_out (id to)) (id from) (nodes kg))
           (update_node (push_out (id to)) (id from) (sorted_nodes kg)) (k kg) in
  if bool_decide (id from ∈ in_nodes to) then kg1
  else mkKmerGraph (update_node (push_in (id from)) (id to) (nodes kg1))
         (update_node (push_in (id from)) (id to) (sorted_nodes kg1)) (k kg1).

(** Modelled from the spec: [KmerGraph::clear ()] of the borrowed graph is
    defined outside the two translation units; after it the graph has no
    node. *)
Definition clear (kg : KmerGraph) : KmerGraph := mkKmerGraph [] [] (k kg).

Section Load.
Context {F : Type}.

(** The strict order of the [sorted_nodes] set; its comparator is defined
    outside the two translation units. *)
Variable node_lt : KmerNode → KmerNode → bool.

(** [sorted_nodes.insert(n)] *)
Fixpoint set_insert (n : KmerNode) (l : list KmerNode) : list KmerNode :=
  match l with
  | [] => [n]
  | m :: rest =>
      if node_lt n m then n :: m :: rest
      else if node_lt m n then m :: set_insert n rest
      else m :: rest
  end.

(** First pass: the last S-line id read and the greatest of them. *)
Fixpoint scan_ids (lines : list gfa_line) (id num_nodes : Z)
  : outcome (Z * Z) :=
  match lines with
  | [] => Ok (id, num_nodes)
  | SLine s :: rest =>
      if negb (4 <=? s_fields s) then Fatal GfaOffendingLine
      else scan_ids rest (u32 (s_id s)) (Z.max num_nodes (u32 (s_id s)))
  | _ :: rest => scan_ids rest id num_nodes
  end.

(** What the second pass carries from line to line. *)
Record ingest : Type := mkIngest {
  ig_kgc : t F;
  ig_id : Z;
  ig_outnode_counts : list Z;
  ig_innode_counts : list Z
}.

Definition ingest_s (num_nodes : Z) (st : ingest) (s : s_line)
  : outcome ingest :=
  if negb (4 <=? s_fields s) then Fatal GfaOffendingLine
  else
    let id := u32 (s_id s) in
    if negb (s_digit s) then Fatal GfaBadPath
    else
      let p := s_path s in
      let kg := kmer_prg (ig_kgc st) in
      (* the node is built here with the [num_AT] that the end of the
         branch assigns to it; without a sixth field it keeps what the
         constructor [KmerNode (id, p)] gives it, which is declared in
         kmernode.h, outside the sources, and taken to be 0 *)
      let n := mkKmerNode id p [] []
                 (if 6 <=? s_fields s then s_num_AT s else 0) in
      let size := Z.of_nat (length (nodes kg)) in
      let id_is_consistent :=
        (id =? size) || (u32 (num_nodes - id) =? size) in
      if negb id_is_consistent then Fatal GfaIdInconsistent
      else
        let k' :=
          if (k kg =? 0) && (0 <? path_length p) then path_length p
          else k kg in
        let kg' :=
          mkKmerGraph (nodes kg ++ [n]) (set_insert n (sorted_nodes kg)) k' in
        let g1 := with_kmer_prg (ig_kgc st) kg' in
        g2 ← set_forward_covg g1 id (u16 (s_fc s)) 0;
        if negb (5 <=? s_fields s) then Undefined
        else
          g3 ← set_reverse_covg g2 id (u16 (s_rc s)) 0;
          Ok (mkIngest g3 id (ig_outnode_counts st) (ig_innode_counts st)).

Definition ingest_l (st : ingest) (l : l_line) : outcome ingest :=
  if negb (5 <=? l_fields l) then Fatal GfaOffendingLine
  else
    let from_node := l_from l in
    let to_node := l_to l in
    if negb (from_node <? to_int (Z.of_nat (length (ig_outnode_counts st))))
    then Fatal GfaNodeOutOfRange
    else if negb (to_node <? to_int (Z.of_nat (length (ig_innode_counts st))))
    then Fatal GfaNodeOutOfRange
    else
      c_out ← vec_get (ig_outnode_counts st) from_node;
      outs ← vec_set (ig_outnode_counts st) from_node (u16 (c_out + 1));
      c_in ← vec_get (ig_innode_counts st) to_node;
      ins ← vec_set (ig_innode_counts st) to_node (u16 (c_in + 1));
      Ok (mkIngest (ig_kgc st) (ig_id st) outs ins).

(** Second pass. *)
Fixpoint ingest_lines (num_nodes : Z) (lines : list gfa_line) (st : ingest)
  : outcome ingest :=
  match lines with
  | [] => Ok st
  | SLine s :: rest =>
      st' ← ingest_s num_nodes st s; ingest_lines num_nodes rest st'
  | LLine l :: rest =>
      st' ← ingest_l st l; ingest_lines num_nodes rest st'
  | OtherLine :: rest => ingest_lines num_nodes rest st
  end.

(** The loop that checks the ids, from the node at position [id] on. *)
Fixpoint check_ids (all ns : list KmerNode) (id : Z) (counts_size : Z)
  : outcome unit :=
  match ns with
  | [] => Ok ()
  | n :: rest =>
      at_id ← vec_get all id;
      let id_is_consistent :=
        (KGC.id at_id =? id) && (KGC.id n <? counts_size)
        && (KGC.id n <? counts_size) in
      if negb id_is_consistent then Fatal GfaIdInconsistent
      else check_ids all rest (u32 (id + 1)) counts_size
  end.

(** Third pass: the edges. *)
Fixpoint link_lines (lines : list gfa_line) (kg : KmerGraph)
  : outcome KmerGraph :=
  match lines with
  | [] => Ok kg
  | LLine l :: rest =>
      if negb (5 <=? l_fields l) then Fatal GfaOffendingLine
      else
        let from := u32 (if l_same_sign l then l_from l else l_to l) in
        let to := u32 (if l_same_sign l then l_to l else l_from l) in
        nf ← vec_get (nodes kg) from;
        nt ← vec_get (nodes kg) to;
        link_lines rest (add_edge kg nf nt)
  | _ :: rest => link_lines rest kg
  end.

(** The body of [KmerGraphWithCoverage::load] on a file that could be
    opened, as a function of the lines that its three loops process. *)
Definition load_lines (g : t F) (lines : list gfa_line) : outcome (t F) :=
  let g0 := with_kmer_prg g (clear (kmer_prg g)) in
  '(id, num_nodes) ← scan_ids lines 0 0;
  let counts := replicate (Z.to_nat (u32 (num_nodes + 1))) 0 in
  st ← ingest_lines num_nodes lines (mkIngest g0 id counts counts);
  let kg := kmer_prg (ig_kgc st) in
  let nodes' := if ig_id st =? 0 then reverse (nodes kg) else nodes kg in
  _ ← check_ids nodes' nodes' 0 (Z.of_nat (length (ig_outnode_counts st)));
  kg' ← link_lines lines (mkKmerGraph nodes' (sorted_nodes kg) (k kg));
  Ok (with_kmer_prg (ig_kgc st) kg').

(** [KmerGraphWithCoverage::load]: each of the three loops is a
    [while (getline (myfile, line).good ())] from the start of the file. *)
Definition load (g : t F) (file : gfa_file) : outcome (t F) :=
  load_lines g (good_lines file).

End Load.

(** *** Vocabulary of the statements *)

(** The stored counters are 16-bit values. *)
Definition covg_wf {F} (g : t F) : Prop :=
  Forall (Forall (λ c : Z * Z,
                    (0 ≤ c.1 ≤ UINT16_MAX) ∧ (0 ≤ c.2 ≤ UINT16_MAX)))
         (node_index_to_sample_coverage g).

(** The sentinel test of [bin_prob]: the id of the first or of the last
    sorted node. *)
Definition is_sentinel (kg : KmerGraph) (node_id : Z) : bool :=
  match vec_get (sorted_nodes kg) 0,
        vec_get (sorted_nodes kg) (Z.of_nat (length (sorted_nodes kg)) - 1) with
  | Ok first, Ok final => (node_id =? id first) || (node_id =? id final)
  | _, _ => false
  end.

(** Forward plus reverse coverage of a node is zero. *)
Definition no_covg {F} (g : t F) (node_id sample_id : Z) : Prop :=
  ∃ x_f x_r,
    get_forward_covg g node_id sample_id = Ok x_f
    ∧ get_reverse_covg g node_id sample_id = Ok x_r
    ∧ x_f + x_r = 0.

(** The effective length of a path in the words of the specification: its
    length less one for each endpoint with an empty path, and at least 1. *)
Definition is_empty_path (n : option KmerNode) : Z :=
  match n with
  | Some n => if path_length (path n) =? 0 then 1 else 0
  | None => 0
  end.

Definition sentinel_endpoints (kpath : list KmerNode) : Z :=
  is_empty_path (kpath !! 0%nat)
  + is_empty_path (kpath !! (length kpath - 1)%nat).

Definition spec_effective_len (kpath : list KmerNode) : Z :=
  Z.max 1 (Z.of_nat (length kpath) - sentinel_endpoints kpath).

(** Every recorded length is at most [max_num_kmers_to_average]. *)
Definition lengths_bounded {F} (M : Z) (st : dp_state F) : Prop :=
  ∀ (j : nat) (l : Z),
    length_of_maxpath_from_node st !! j = Some l → 0 ≤ l ≤ M.

(** The ids of the S-lines of a file, in file order. *)
Fixpoint s_ids (lines : list gfa_line) : list Z :=
  match lines with
  | [] => []
  | SLine s :: rest => u32 (s_id s) :: s_ids rest
  | _ :: rest => s_ids rest
  end.




(** Every node id below [n] has a coverage row with a slot for sample 0. *)
Definition slots_allocated (cov : list (list (Z * Z))) (n : Z) : Prop :=
  ∀ i, 0 ≤ i < n →
       ∃ row, cov !! Z.to_nat i = Some row ∧ (0 < length row)%nat.


(** *** Concrete graphs *)

(** A chain source → 1 → 2 → 3 → sink with coverage on the three inner
    nodes, eight mapped reads, [p = 1/5] and [thresh = -25]. *)
Definition chain_nodes : list KmerNode :=
  [ mkKmerNode 0 [] [] [1] 0;
    mkKmerNode 1 [(0, 3)] [0] [2] 0;
    mkKmerNode 2 [(1, 4)] [1] [3] 0;
    mkKmerNode 3 [(2, 5)] [2] [4] 0;
    mkKmerNode 4 [] [3] [] 0 ].

Definition chain_with (coverage : list (list (Z * Z))) : t Binary64.float :=
  mkKGC Binary64.float (mkKmerGraph chain_nodes chain_nodes 3) coverage
        8 0 (Binary64.ratio 1 5) (Binary64.ratio 15 1000) (Binary64.of_Z 2)
        (Binary64.of_Z (-25)).

Definition chain_kgc : t Binary64.float :=
  chain_with [[(0, 0)]; [(1, 1)]; [(1, 0)]; [(2, 0)]; [(0, 0)]].

(** The same chain when no read covers node 1. *)
Definition zero_on_path : t Binary64.float :=
  chain_with [[(0, 0)]; [(0, 0)]; [(1, 0)]; [(2, 0)]; [(0, 0)]].

(** A chain source → 1 → sink in which only the source carries coverage.
    Coverage needs no arithmetic: the number type is [unit]. *)
Definition covered_source : t unit :=
  let ns := [ mkKmerNode 0 [] [] [1] 0;
              mkKmerNode 1 [(0, 3)] [0] [2] 0;
              mkKmerNode 2 [] [1] [] 0 ] in
  mkKGC unit (mkKmerGraph ns ns 3) [[(1, 0)]; [(0, 0)]; [(0, 0)]]
        5 0 tt tt tt tt.

(** One node with two sample slots, the first saturated on the forward
    strand. *)
Definition saturated : t unit :=
  mkKGC unit (mkKmerGraph [] [] 0) [[(65535, 7); (3, 4)]] 0 0 tt tt tt tt.

(** Three nodes with one sample slot each, and a file that lists the
    nodes 2, 1, 0 with the links 1 → 2 and 0 → 1. *)
Definition three_slots : t unit :=
  mkKGC unit (mkKmerGraph [] [] 0) [[(0, 0)]; [(0, 0)]; [(0, 0)]]
        0 0 tt tt tt tt.

Definition by_id (a b : KmerNode) : bool := id a <? id b.

Definition descending_file : list gfa_line :=
  [ OtherLine;
    SLine (mkS 5 2 true [(2, 5)] 2 1 0);
    LLine (mkL 6 1 2 true);
    SLine (mkS 5 1 true [(1, 4)] 2 1 0);
    LLine (mkL 6 0 1 true);
    SLine (mkS 5 0 true [(0, 3)] 2 1 0) ].

(** That file with a newline at its end. *)
Definition descending_gfa : gfa_file := mkFile descending_file None.



(** A file of one S-line with a sixth field. *)
Definition at_gfa : gfa_file :=
  mkFile [ SLine (mkS 6 0 true [(0, 3)] 2 1 7) ] None.

(** *** [extract_path] *)

Section ExtractPath.
Context {F : Type}.

(** The [while] loop of [extract_path].  Every pass pushes a node and a
    path of more than 1000000 nodes is fatal; [fuel] counts the passes that
    are left. *)
Fixpoint extract_path_loop (fuel : nat) (g : t F) (prev : list Z)
    (terminus_node_id prev_node : Z) (maxpath : list KmerNode)
  : outcome (list KmerNode) :=
  if prev_node <? terminus_node_id then
    match fuel with
    | O => Undefined
    | S fuel' =>
        n ← vec_get (nodes (kmer_prg g)) prev_node;
        let maxpath' := maxpath ++ [n] in
        prev_node' ← vec_get prev prev_node;
        if 1000000 <? Z.of_nat (length maxpath') then Fatal InfiniteLoop
        else extract_path_loop fuel' g prev terminus_node_id prev_node'
               maxpath'
    end
  else Ok maxpath.

(** [KmerGraphWithCoverage::extract_path], with the fuel that the guard of
    the loop makes enough. *)
Definition extract_path_with (fuel : nat) (g : t F)
    (considered_outnode : KmerNode) (prev_node_along_maxpath : list Z)
    (terminus_node_id : Z) : outcome (list KmerNode) :=
  let maxpath := [considered_outnode] in
  prev_node ← vec_get prev_node_along_maxpath (id considered_outnode);
  maxpath ← extract_path_loop fuel g prev_node_along_maxpath
              terminus_node_id prev_node maxpath;
  if Z.of_nat (length maxpath) =? 0 then Fatal NoPathFound
  else Ok maxpath.

Definition extract_path : t F → KmerNode → list Z → Z
                          → outcome (list KmerNode) :=
  extract_path_with (Z.to_nat 1000000).

End ExtractPath.

(** *** Vocabulary of the statements about the path found *)

(** The graph holds its nodes by id, and the sorted nodes are nodes of the
    graph. *)
Definition indexed_by_id (kg : KmerGraph) : Prop :=
  (∀ (i : nat) n, nodes kg !! i = Some n → id n = Z.of_nat i)
  ∧ ∀ n, n ∈ sorted_nodes kg →
         0 ≤ id n ∧ nodes kg !! Z.to_nat (id n) = Some n.

(** Every entry of the successor vector is the terminus it was filled with
    or an out-node of the sorted node with the id of the entry. *)
Definition successors_ok (kg : KmerGraph) (prev : list Z) : Prop :=
  ∀ (u : nat) v, prev !! u = Some v →
    v = u32 (Z.of_nat (length (sorted_nodes kg)) - 1)
    ∨ ∃ n, n ∈ sorted_nodes kg ∧ id n = Z.of_nat u ∧ v ∈ out_nodes n.

(** Each node of the list has the next one among its out-nodes. *)
Definition is_walk (kpath : list KmerNode) : Prop :=
  ∀ (i : nat) a b,
    kpath !! i = Some a → kpath !! S i = Some b → id b ∈ out_nodes a.

(** *** Vocabulary of the statements about [load] *)

(** The node that the second pass of [load] builds from an S-line. *)
Definition node_of_line (s : s_line) : KmerNode :=
  mkKmerNode (u32 (s_id s)) (s_path s) [] []
    (if 6 <=? s_fields s then s_num_AT s else 0).

Fixpoint nodes_of_lines (lines : list gfa_line) : list KmerNode :=
  match lines with
  | [] => []
  | SLine s :: rest => node_of_line s :: nodes_of_lines rest
  | _ :: rest => nodes_of_lines rest
  end.

(** What a node is apart from its edges. *)
Definition label (n : KmerNode) : Z * Path * Z := (id n, path n, num_AT n).

End KGC.

(** ** Parameter estimation (src/src/estimate_parameters.cpp) *)

Module EstimateParameters.

(** *** [find_mean_covg] *)

(** The locals of [find_mean_covg]; [max_covg] is declared without a
    value. *)
Record peak_search : Type := mkSearch {
  first_peak : bool;
  max_covg : option Z;
  noise_buffer : Z
}.

(** One pass of the loop, for the index [i]. *)
Definition mean_covg_step (kmer_covg_dist : list Z) (st : peak_search)
    (i : Z) : outcome peak_search :=
  here ← vec_get kmer_covg_dist i;
  before ← vec_get kmer_covg_dist (i - 1);
  if here <=? before then Ok st
  else if first_peak st && (noise_buffer st <? 3) then
    Ok (mkSearch (first_peak st) (max_covg st) (u32 (noise_buffer st + 1)))
  else if first_peak st then
    Ok (mkSearch false (Some i) (noise_buffer st))
  else
    match max_covg st with
    | None => Undefined
    | Some m =>
        at_max ← vec_get kmer_covg_dist m;
        if at_max <? here then Ok (mkSearch false (Some i) (noise_buffer st))
        else Ok st
    end.

(** [passes] passes of the loop, from the index [i] on. *)
Fixpoint mean_covg_loop (kmer_covg_dist : list Z) (st : peak_search) (i : Z)
    (passes : nat) : outcome peak_search :=
  match passes with
  | O => Ok st
  | S passes' =>
      st' ← mean_covg_step kmer_covg_dist st i;
      mean_covg_loop kmer_covg_dist st' (i + 1) passes'
  end.

(** [find_mean_covg], for a vector of fewer than 2^32 entries.  The loop
    [for (uint i = 1; i != size; ++i)] makes [size - 1] passes, counted in
    [uint]: on an empty vector that is 2^32 - 1 passes, the first of which
    reads [kmer_covg_dist[1]]. *)
Definition find_mean_covg (kmer_covg_dist : list Z) : outcome Z :=
  let size := Z.of_nat (length kmer_covg_dist) in
  st ← mean_covg_loop kmer_covg_dist (mkSearch true None 0) 1
         (Z.to_nat (u32 (size - 1)));
  if first_peak st then Ok 0
  else match max_covg st with
       | Some m => Ok m
       | None => Undefined
       end.

(** *** [find_prob_thresh] *)

(** [std::max_element] and [std::min_element] on the range of the indices
    from [first] to [last - 1] of a vector, as the index they point at: the
    scan keeps the first best element, and an empty range gives [last]. *)
Fixpoint scan_best (better : Z → Z → bool) (l : list Z) (i best : Z)
    (best_val : Z) : Z :=
  match l with
  | [] => best
  | x :: rest =>
      if better best_val x then scan_best better rest (i + 1) i x
      else scan_best better rest (i + 1) best best_val
  end.

Definition best_element (better : Z → Z → bool) (v : list Z)
    (first last : Z) : outcome Z :=
  if (0 <=? first) && (first <=? last) && (last <=? Z.of_nat (length v)) then
    match take (Z.to_nat (last - first)) (drop (Z.to_nat first) v) with
    | [] => Ok last
    | x :: rest => Ok (scan_best better rest (first + 1) first x)
    end
  else Undefined.

Definition max_element : list Z → Z → Z → outcome Z :=
  best_element (λ largest x, largest <? x).
Definition min_element : list Z → Z → Z → outcome Z :=
  best_element (λ smallest x, x <? smallest).

(** The loop [while ((first_peak == 0 or second_peak == size - 1) and
    first_peak != second_peak)], which moves one of the two peaks to the
    greatest entry between them; [margin] is 15 in the first loop and 6 in
    the second.  [None]: the loop has not ended within [fuel] passes. *)
Fixpoint find_peaks (fuel : nat) (kmer_prob_dist : list Z) (margin : Z)
    (first_peak second_peak : Z) : option (outcome (Z * Z)) :=
  let size := Z.of_nat (length kmer_prob_dist) in
  if ((first_peak =? 0) || (second_peak =? size - 1))
     && negb (first_peak =? second_peak)
  then
    match fuel with
    | O => None
    | S fuel' =>
        match max_element kmer_prob_dist (1 + first_peak) second_peak with
        | Ok peak =>
            if size - margin <? peak
            then find_peaks fuel' kmer_prob_dist margin first_peak peak
            else find_peaks fuel' kmer_prob_dist margin peak second_peak
        | Fatal e => Some (Fatal e)
        | Undefined => Some Undefined
        end
    end
  else Some (Ok (first_peak, second_peak)).

(** The loop of the single-peak case, from the index [i] on. *)
Fixpoint least_positive (kmer_prob_dist : list Z) (i : Z) (passes : nat)
    (peak : Z) : outcome Z :=
  match passes with
  | O => Ok peak
  | S passes' =>
      here ← vec_get kmer_prob_dist i;
      at_peak ← vec_get kmer_prob_dist peak;
      let peak' :=
        if (0 <? here) && ((here <? at_peak) || (at_peak =? 0)) then i
        else peak in
      least_positive kmer_prob_dist (i + 1) passes' peak'
  end.

(** The last statements: the least entry between the two peaks. *)
Definition minimum_between (kmer_prob_dist : list Z)
    (first_peak second_peak : Z) : outcome Z :=
  peak ← min_element kmer_prob_dist first_peak second_peak;
  Ok (peak - 200).

(** [find_prob_thresh]; each of its two [while] loops may make [fuel]
    passes.  The casts [(int) kmer_prob_dist.size ()] are exact on a
    vector of at most [INT_MAX] entries. *)
Definition find_prob_thresh (fuel : nat) (kmer_prob_dist : list Z)
  : option (outcome Z) :=
  let size := Z.of_nat (length kmer_prob_dist) in
  if size =? 0 then Some (Ok 0)
  else
    match find_peaks fuel kmer_prob_dist 15 0 (size - 1) with
    | None => None
    | Some (Fatal e) => Some (Fatal e)
    | Some Undefined => Some Undefined
    | Some (Ok (first_peak, second_peak)) =>
        if first_peak =? second_peak then
          match find_peaks fuel kmer_prob_dist 6 0 (size - 1) with
          | None => None
          | Some (Fatal e) => Some (Fatal e)
          | Some Undefined => Some Undefined
          | Some (Ok (first_peak, second_peak)) =>
              if first_peak =? second_peak then
                Some (peak ← max_element kmer_prob_dist 0 size;
                      peak ← least_positive kmer_prob_dist peak
                               (Z.to_nat (size - peak)) peak;
                      Ok (peak - 200))
              else
                Some (minimum_between kmer_prob_dist first_peak second_peak)
          end
        else Some (minimum_between kmer_prob_dist first_peak second_peak)
    end.

(** *** Vocabulary of the statements *)

(** The entry at an index, and the indices from 1 to [k - 1] at which the
    distribution rises. *)
Definition entry (dist : list Z) (j : Z) : Z :=
  default 0 (dist !! Z.to_nat j).

Definition rises (dist : list Z) (k : Z) : list Z :=
  filter (λ i, entry dist (i - 1) < entry dist i) (seqZ 1 (k - 1)).

(** [m] is the first index from [from] to [upto - 1] at which the
    distribution is greatest. *)
Definition first_greatest (dist : list Z) (from upto m : Z) : Prop :=
  from ≤ m < upto
  ∧ (∀ j, from ≤ j < upto → entry dist j ≤ entry dist m)
  ∧ (∀ j, from ≤ j < m → entry dist j < entry dist m).

(** [m] is the first index from [from] to [upto - 1] at which the
    distribution is least. *)
Definition first_least (dist : list Z) (from upto m : Z) : Prop :=
  from ≤ m < upto
  ∧ (∀ j, from ≤ j < upto → entry dist m ≤ entry dist j)
  ∧ (∀ j, from ≤ j < m → entry dist m < entry dist j).

(** What the search of [find_mean_covg] holds after the indices below [k]:
    it counts the rises up to the third and, from the fourth rise on, holds
    the first index at which the distribution is greatest since then. *)
Definition searched (dist : list Z) (k : Z) (st : peak_search) : Prop :=
  match rises dist k !! 3%nat with
  | None =>
      st = mkSearch true None (Z.of_nat (length (rises dist k)))
  | Some i0 =>
      ∃ m, st = mkSearch false (Some m) 3 ∧ first_greatest dist i0 k m
  end.

End EstimateParameters.

(** ** Local assembly (src/src/local_assembly.cpp)

    A [std::string] is the list of its characters. *)

Module LocalAssembly.

(** [has_ending]: [fullString.compare (pos, len, ending) == 0] holds when
    the [len] characters from [pos] on are [ending]. *)
Definition has_ending (fullString ending : list ascii) : bool :=
  if (length fullString <? length ending)%nat then false
  else bool_decide
         (take (length ending)
               (drop (length fullString - length ending) fullString)
          = ending).

(** The body of the loop of [reverse_complement]:
    [magic = base & 2 ? 4 : 21] and [base ^ magic], on the 8 bits of the
    character. *)
Definition complement (base : ascii) : ascii :=
  let b := N_of_ascii base in
  let magic := if N.testbit b 1 then 4%N else 21%N in
  ascii_of_N (N.lxor b magic).

(** [reverse_complement]: the loop writes [reverse[len - k - 1]] for
    [k = 0 .. len - 1] into a string of [len] blanks; the final
    [reverse[len] = '\0'] rewrites the terminator. *)
Definition reverse_complement (forward : list ascii) : list ascii :=
  let len := length forward in
  foldl (λ reverse k,
           match forward !! k with
           | Some base => <[(len - k - 1)%nat := complement base]> reverse
           | None => reverse
           end)
        (replicate len " "%char) (seq 0 len).

(** [sequence.substr (pos, len)]; [None] stands for the exception
    [std::out_of_range], thrown when [pos] is beyond the end. *)
Definition substr (s : list ascii) (pos len : Z) : option (list ascii) :=
  if Z.of_nat (length s) <? pos then None
  else Some (take (Z.to_nat len) (drop (Z.to_nat pos) s)).

(** The loop [for (i = 0; i < n; i++) kmers.insert (sequence.substr
    (pos_of i, k))], from [i] on. *)
Fixpoint collect_kmers (sequence : list ascii) (k : Z) (pos_of : Z → Z)
    (i : Z) (passes : nat) (kmers : gset (list ascii))
  : option (gset (list ascii)) :=
  match passes with
  | O => Some kmers
  | S passes' =>
      kmer ← substr sequence (pos_of i) k;
      collect_kmers sequence k pos_of (i + 1) passes' ({[ kmer ]} ∪ kmers)
  end.

(** The number of k-mers asked for, after the test [k + (n - 1) > L] in
    [unsigned int] and the assignment [n = L - k + 1]. *)
Definition clamp (L k n : Z) : Z :=
  if L <? u32 (k + u32 (n - 1)) then u32 (L - k + 1) else n.

(** [generate_start_kmers] *)
Definition generate_start_kmers (sequence : list ascii) (k n : Z)
  : option (gset (list ascii)) :=
  let L := Z.of_nat (length sequence) in
  if L <? k then Some ∅
  else collect_kmers sequence k (λ i, i) 0 (Z.to_nat (clamp L k n)) ∅.

(** [generate_end_kmers]; the position [L - k - i] is computed in
    [size_t]. *)
Definition generate_end_kmers (sequence : list ascii) (k n : Z)
  : option (gset (list ascii)) :=
  let L := Z.of_nat (length sequence) in
  if L <? k then Some ∅
  else collect_kmers sequence k (λ i, (L - k - i) mod 2 ^ 64) 0
         (Z.to_nat (clamp L k n)) ∅.

(** A [DfsTree] maps the k-mer of a node to its children, held here as
    their k-mers, which is all that the enumeration reads of them
    ([graph.toString (child_nodes[i])]). *)
#[warning="-notation-for-abbreviation"]
Notation DfsTree := (gmap (list ascii) (list (list ascii))).

(** [tree[start_kmer]]: the entry, which is created empty when there was
    none. *)
Definition tree_entry (tree : DfsTree) (kmer : list ascii)
  : DfsTree * list (list ascii) :=
  match tree !! kmer with
  | Some children => (tree, children)
  | None => (<[kmer := []]> tree, [])
  end.

(** [get_paths_between_util]; the accumulator grows by one character at
    each level and the recursion stops once it is longer than
    [max_path_length]: [fuel] bounds the levels. *)
Fixpoint get_paths_between_util (fuel : nat) (start_kmer end_kmer : list ascii)
    (path_accumulator : list ascii) (max_path_length : Z)
    (state : DfsTree * list (list ascii))
  : outcome (DfsTree * list (list ascii)) :=
  let (tree, full_paths) := state in
  let (tree, child_nodes) := tree_entry tree start_kmer in
  if max_path_length <? Z.of_nat (length path_accumulator)
  then Ok (tree, full_paths)
  else
    match fuel with
    | O => Undefined
    | S fuel' =>
        match list.last start_kmer with
        | None => Undefined          (* [back()] of an empty string *)
        | Some c =>
            let path_accumulator := path_accumulator ++ [c] in
            let full_paths :=
              if has_ending path_accumulator end_kmer
              then full_paths ++ [path_accumulator] else full_paths in
            foldl (λ r kmer,
                     st ← r;
                     get_paths_between_util fuel' kmer end_kmer
                       path_accumulator max_path_length st)
                  (Ok (tree, full_paths)) child_nodes
        end
    end.

(** [get_paths_between]: the accumulator starts as the start k-mer less
    its last character. *)
Definition get_paths_between_with (fuel : nat) (start_kmer end_kmer : list ascii)
    (tree : DfsTree) (max_path_length : Z)
  : outcome (DfsTree * list (list ascii)) :=
  let initial_acc := take (length start_kmer - 1) start_kmer in
  get_paths_between_util fuel start_kmer end_kmer initial_acc
    max_path_length (tree, []).

Definition get_paths_between (start_kmer end_kmer : list ascii)
    (tree : DfsTree) (max_path_length : Z)
  : outcome (DfsTree * list (list ascii)) :=
  get_paths_between_with
    (Z.to_nat (max_path_length + 2 - Z.of_nat (length start_kmer)))
    start_kmer end_kmer tree max_path_length.

(** *** Vocabulary of the statements *)

(** The Watson–Crick complement of a base, in either case. *)
Definition watson_crick (base : ascii) : ascii :=
  if bool_decide (base = "A"%char) then "T"%char
  else if bool_decide (base = "C"%char) then "G"%char
  else if bool_decide (base = "G"%char) then "C"%char
  else if bool_decide (base = "T"%char) then "A"%char
  else if bool_decide (base = "a"%char) then "t"%char
  else if bool_decide (base = "c"%char) then "g"%char
  else if bool_decide (base = "g"%char) then "c"%char
  else if bool_decide (base = "t"%char) then "a"%char
  else base.

Definition is_base (c : ascii) : Prop :=
  c ∈ list_ascii_of_string "ACGTacgt".

(** No child recorded in the tree has an empty k-mer. *)
Definition children_named (tree : DfsTree) : Prop :=
  ∀ kmer children, tree !! kmer = Some children →
                   Forall (λ child, child ≠ []) children.

(** The two trees list the same children under every k-mer. *)
Definition same_children (tree tree' : DfsTree) : Prop :=
  ∀ kmer, default [] (tree' !! kmer) = default [] (tree !! kmer).

(** The tree of the cycle A -> C -> A. *)
Definition cycle_tree : DfsTree :=
  <[ ["A"%char] := [["C"%char]] ]> (<[ ["C"%char] := [["A"%char]] ]> ∅).

End LocalAssembly.

(** ** Edges of the pan-genome graph (src/src/panedge.cpp)

    [from] and [to] point to nodes, of which the operators read the
    [node_id] only: an edge holds here the two ids. *)

Module PanEdge.

Record PanEdge : Type := {
  from : Z;            (* [from->node_id] *)
  to : Z;              (* [to->node_id] *)
  orientation : Z;
  covg : Z
}.

(** The constructor, with its [assert (i < 4)]. *)
Definition make (f t i : Z) : outcome PanEdge :=
  if i <? 4
  then Ok {| from := f; to := t; orientation := i; covg := 1 |}
  else Fatal AssertionFailed.

Definition rev_orient (orientation : Z) : Z :=
  if orientation =? 0 then 3
  else if orientation =? 3 then 0
  else orientation.

(** [operator==] *)
Definition equal (x y : PanEdge) : bool :=
  if (from x =? from y) && (to x =? to y)
     && (orientation x =? orientation y) then true
  else if (from x =? to y) && (to x =? from y)
          && (orientation x =? rev_orient (orientation y)) then true
  else false.

(** [operator!=] *)
Definition not_equal (x y : PanEdge) : bool := negb (equal x y).

(** [operator<] *)
Definition less (x y : PanEdge) : bool :=
  if from x <? from y then true
  else if from x >? from y then false
  else if to x <? to y then true
  else if to x >? to y then false
  else if orientation x <? orientation y then true
  else false.

(** *** Vocabulary of the statements *)

(** The same edge read from the other strand, as in the table of
    [rev_orient]. *)
Definition reversed (x : PanEdge) : PanEdge :=
  {| from := to x; to := from x;
     orientation := rev_orient (orientation x); covg := covg x |}.

(** The fields that the comparison operators read. *)
Definition key (x : PanEdge) : Z * Z * Z := (from x, to x, orientation x).

End PanEdge.

(** ** Reads of the pan-genome graph (src/src/pangenome/panread.cpp)

    A [NodePtr] is compared by address by [std::find]; the section is
    about any type of pointers with a decidable equality.  Of a read, the
    id and the two parallel vectors are held. *)

Module Read.
Section Read.
Context {NodePtr : Type} `{EqDecision NodePtr}.

Record Read : Type := {
  id : Z;
  nodes : list NodePtr;
  node_orientations : list bool
}.

(** [remove_node (NodePtr)]: the loop erases the first copy of the node
    and the orientation at the same distance [d], a [uint], until
    [std::find] finds no copy.  Erasing at or past the end of
    [node_orientations] is undefined; [None] stands for a loop that has not
    ended within [fuel] passes. *)
Fixpoint remove_node_loop (fuel : nat) (n_original : NodePtr) (r : Read)
  : option (outcome Read) :=
  match list_find (λ n, n = n_original) (nodes r) with
  | None => Some (Ok r)
  | Some (it, _) =>
      match fuel with
      | O => None
      | S fuel' =>
          let d := Z.to_nat (u32 (Z.of_nat it)) in
          if (d <? length (node_orientations r))%nat
          then remove_node_loop fuel' n_original
                 {| id := id r;
                    nodes := delete it (nodes r);
                    node_orientations := delete d (node_orientations r) |}
          else Some Undefined
      end
  end.

Definition remove_node (n_original : NodePtr) (r : Read)
  : option (outcome Read) :=
  remove_node_loop (length (nodes r)) n_original r.

(** *** [find_position]

    [node_id] reads the id of the node that a pointer points to.  The
    counters [i], [search_pos] and [found_pos] are [uint]; sums with a
    [size ()] are made in [size_t]. *)

Definition size_t (x : Z) : Z := x mod 18446744073709551616.

Section FindPosition.
Variable node_id : NodePtr → Z.
Variable r : Read.
Variable node_ids : list Z.
Variable node_orients : list bool.
Variable min_overlap : Z.

(** [nodes[a]->node_id == node_ids[b] and node_orientations[c] ==
    node_orients[d]], the last with [!] when [negated]; the second test
    is made only when the first holds. *)
Definition agree (a b c d : Z) (negated : bool) : outcome bool :=
  n ← vec_get (nodes r) a;
  node ← vec_get node_ids b;
  if node_id n =? node then
    o ← vec_get (node_orientations r) c;
    p ← vec_get node_orients d;
    Ok (bool_decide (o = xorb negated p))
  else Ok false.

(** The four [while] loops of the body have one shape and differ in five
    places: the test on [found_pos] that guards the loop, the position
    read in the read, whether the orientation sought is negated, the test
    for the end of the read, and the value returned. *)
Record scan : Type := {
  guard : Z → bool;
  at_node : Z → Z;
  negated : bool;
  at_end : Z → bool;
  result : Z → Z
}.

(** A [while] loop: [Some (Ok (Some p))] when it executes [return p],
    [Some (Ok None)] when it ends by its condition or by [break], and
    [None] when it has not ended within [fuel] passes. *)
Fixpoint while_loop (fuel : nat) (s : scan) (search_pos found_pos : Z)
  : option (outcome (option Z)) :=
  if guard s found_pos then
    match agree (at_node s found_pos) search_pos
                (at_node s found_pos) search_pos (negated s) with
    | Ok true =>
        if (search_pos =? size_t (Z.of_nat (length node_ids) - 1))
           || at_end s found_pos
        then
          if min_overlap <=? u32 (found_pos + 1)
          then Some (Ok (Some (result s found_pos)))
          else Some (Ok None)
        else
          match fuel with
          | O => None
          | S fuel' =>
              while_loop fuel' s (u32 (search_pos + 1)) (u32 (found_pos + 1))
          end
    | Ok false => Some (Ok None)
    | Fatal e => Some (Fatal e)
    | Undefined => Some Undefined
    end
  else Some (Ok None).

(** The loops of the four blocks, at the pass [i] of the [for] loop. *)
Definition forwards (i : Z) : scan :=
  let size := Z.of_nat (length (nodes r)) in
  {| guard found_pos := u32 (i + found_pos) <? size;
     at_node found_pos := u32 (i + found_pos);
     negated := false;
     at_end found_pos := u32 (i + found_pos) =? size_t (size - 1);
     result _ := i |}.

Definition forwards_truncated (i : Z) : scan :=
  let size := Z.of_nat (length (nodes r)) in
  {| guard found_pos := found_pos <? size;
     at_node found_pos := found_pos;
     negated := false;
     at_end found_pos := found_pos =? size_t (size - 1);
     result _ := 0 |}.

Definition backwards (i : Z) : scan :=
  let size := Z.of_nat (length (nodes r)) in
  {| guard found_pos := u32 (i + found_pos) <? size;
     at_node found_pos := size_t (size - 1 - i - found_pos);
     negated := true;
     at_end found_pos := u32 (i + 1 + found_pos) =? size;
     result found_pos := u32 (size_t (size - 1 - i - found_pos)) |}.

Definition backwards_truncated (i : Z) : scan :=
  let size := Z.of_nat (length (nodes r)) in
  {| guard found_pos := found_pos <? size;
     at_node found_pos := size_t (size - 1 - found_pos);
     negated := true;
     at_end found_pos := u32 (i + 1 + found_pos) =? size;
     result found_pos := u32 (size_t (size - 1 - found_pos)) |}.

(** One [if (test) { search_pos = ...; found_pos = 0; while ... }]. *)
Definition block (fuel : nat) (test : outcome bool) (s : scan)
    (search_pos : Z) : option (outcome (option Z)) :=
  match test with
  | Ok true => while_loop fuel s search_pos 0
  | Ok false => Some (Ok None)
  | Fatal e => Some (Fatal e)
  | Undefined => Some Undefined
  end.

(** The next block runs when the one before has not returned. *)
Definition or_else (first next : option (outcome (option Z)))
  : option (outcome (option Z)) :=
  match first with
  | Some (Ok None) => next
  | _ => first
  end.

(** [i + node_ids.size () > nodes.size ()] *)
Definition overhangs (i : Z) : bool :=
  Z.of_nat (length (nodes r)) <? size_t (i + Z.of_nat (length node_ids)).

(** The body of the [for] loop at [i]. *)
Definition body (fuel : nat) (i : Z) : option (outcome (option Z)) :=
  let size := Z.of_nat (length (nodes r)) in
  let sought := Z.of_nat (length node_ids) in
  or_else
    (block fuel (agree i 0 i 0 false) (forwards i) 0)
    (or_else
       (block fuel
          (if overhangs i
           then agree 0 (size_t (i + sought - size))
                      0 (size_t (i + Z.of_nat (length node_orients) - size))
                      false
           else Ok false)
          (forwards_truncated i) (u32 (size_t (i + sought - size))))
       (or_else
          (block fuel
             (agree (size_t (size - 1 - i)) 0
                    (size_t (Z.of_nat (length (node_orientations r)) - 1 - i))
                    0 true)
             (backwards i) 0)
          (block fuel
             (if overhangs i
              then agree (size - 1) (size_t (i + sought - size))
                         (Z.of_nat (length (node_orientations r)) - 1)
                         (size_t (i + Z.of_nat (length node_orients) - size))
                         true
              else Ok false)
             (backwards_truncated i) (u32 (size_t (i + sought - size)))))).

(** The [for] loop from [i] on, and the final [return] of the largest
    [uint]. *)
Fixpoint for_loop (fuel passes : nat) (i : Z) : option (outcome Z) :=
  if i <? Z.of_nat (length (nodes r)) then
    match passes with
    | O => None
    | S passes' =>
        match body fuel i with
        | Some (Ok None) => for_loop fuel passes' (u32 (i + 1))
        | Some (Ok (Some position)) => Some (Ok position)
        | Some (Fatal e) => Some (Fatal e)
        | Some Undefined => Some Undefined
        | None => None
        end
    end
  else Some (Ok UINT32_MAX).

(** [find_position], with its two assertions. *)
Definition find_position (fuel : nat) : option (outcome Z) :=
  if negb (length node_ids =? length node_orients)%nat
  then Some (Fatal AssertionFailed)
  else if negb (0 <? length node_ids)%nat then Some (Fatal AssertionFailed)
  else for_loop fuel fuel 0.

(** *** Vocabulary of the statements *)

(** The nodes sought stand in the read from [position] on, in the
    orientations sought. *)
Definition occurs_at (position : nat) : Prop :=
  ∀ j id, node_ids !! j = Some id →
          ∃ n, nodes r !! (position + j)%nat = Some n
               ∧ node_id n = id
               ∧ node_orientations r !! (position + j)%nat
                 = node_orients !! j.

(** No node of the read has an id that is sought. *)
Definition no_shared_id : Prop :=
  ∀ n id, n ∈ nodes r → id ∈ node_ids → node_id n ≠ id.

(** A loop reads inside the read while its guard holds, and returns a
    position of the read. *)
Definition scan_in_range (s : scan) : Prop :=
  let size := Z.of_nat (length (nodes r)) in
  ∀ found_pos, 0 ≤ found_pos ≤ size → guard s found_pos = true →
               0 ≤ at_node s found_pos < size
               ∧ found_pos < size
               ∧ 0 ≤ result s found_pos < size.

End FindPosition.

(** The nodes of a read with their orientations. *)
Definition oriented (r : Read) : list (NodePtr * bool) :=
  zip (nodes r) (node_orientations r).

End Read.
Arguments Read NodePtr : clear implicits.
End Read.

(** A call that fails no assertion. *)
Definition no_assert {A} (r : outcome A) : Prop := r ≠ Fatal AssertionFailed.

(** * Properties *)

(** ** The outcome monad and vectors *)

Lemma bind_Ok {A B} (m : outcome A) (f : A → outcome B) (b : B) :
  m ≫= f = Ok b ↔ ∃ a, m = Ok a ∧ f a = Ok b.
Proof.
  destruct m as [a| |]; simpl; split.
  - intros Hf. by exists a.
  - by intros (a' & [= <-] & Hf).
  - done.
  - by intros (? & ? & _).
  - done.
  - by intros (? & ? & _).
Qed.

Lemma vec_get_Ok {A} (v : list A) (i : Z) (a : A) :
  vec_get v i = Ok a ↔ 0 ≤ i ∧ v !! Z.to_nat i = Some a.
Proof.
  unfold vec_get. destruct (Z.ltb_spec i 0).
  - split; [done | lia].
  - destruct (v !! Z.to_nat i) eqn:E; split;
      first [ by intros [= ->] | by intros [_ [= ->]] | done | by intros [_ ?] ].
Qed.

Lemma vec_get_nat {A} (v : list A) (i : nat) (a : A) :
  v !! i = Some a → vec_get v (Z.of_nat i) = Ok a.
Proof. intros Hi. apply vec_get_Ok. split; [lia|]. by rewrite Nat2Z.id. Qed.

Lemma vec_get_ge {A} (v : list A) (i : Z) :
  Z.of_nat (length v) ≤ i → vec_get v i = Undefined.
Proof.
  intros Hi. unfold vec_get. destruct (Z.ltb_spec i 0); [done|].
  rewrite lookup_ge_None_2; [done | lia].
Qed.

Lemma vec_set_Ok {A} (v : list A) (i : Z) (a : A) :
  0 ≤ i < Z.of_nat (length v) →
  vec_set v i a = Ok (<[Z.to_nat i := a]> v).
Proof.
  intros Hi. unfold vec_set.
  destruct (Z.leb_spec 0 i), (Z.ltb_spec i (Z.of_nat (length v)));
    simpl; first [done | lia].
Qed.

Lemma vec_set_inv {A} (v v' : list A) (i : Z) (a : A) :
  vec_set v i a = Ok v' →
  0 ≤ i < Z.of_nat (length v) ∧ v' = <[Z.to_nat i := a]> v.
Proof.
  unfold vec_set.
  destruct (Z.leb_spec 0 i), (Z.ltb_spec i (Z.of_nat (length v)));
    simpl; intros [= <-] || done. split; [lia | done].
Qed.

(** ** [KmerGraph]: node order and edges *)

Module KmerGraphFacts.
Import KmerGraph.

Lemma count_cons f n ns : count f (n :: ns) = indicator (f n) + count f ns.
Proof.
  unfold count, indicator. rewrite filter_cons.
  destruct (f n); [rewrite decide_True by done | rewrite decide_False by done];
    simpl; lia.
Qed.

Lemma count_nil f : count f [] = 0.
Proof. done. Qed.

Lemma count_nonneg f ns : 0 ≤ count f ns.
Proof. unfold count. lia. Qed.

Lemma count_le_length f ns : count f ns ≤ Z.of_nat (length ns).
Proof. unfold count. pose proof (length_filter (λ n, f n = true) ns). lia. Qed.

Lemma tracks_tail lev n ns i starts ends :
  tracks lev (n :: ns) i starts ends →
  tracks lev ns (S i) (starts + indicator (is_bubble_start n))
         (ends + indicator (is_bubble_end n)).
Proof.
  intros Ht j Hj. specialize (Ht (S j)). simpl in Ht.
  rewrite !count_cons in Ht. rewrite Nat.add_succ_r in Ht.
  simpl "+"%nat. rewrite Ht; [lia | simpl; lia].
Qed.

Lemma tracks_head lev n ns i starts ends :
  tracks lev (n :: ns) i starts ends →
  lev i = starts - (ends + indicator (is_bubble_end n)).
Proof.
  intros Ht. specialize (Ht 0%nat). rewrite Nat.add_0_r in Ht.
  rewrite Ht; [|simpl; lia]. simpl take.
  rewrite count_cons, !count_nil. lia.
Qed.

Lemma place_Ok levels (l : nat) p :
  (l < length levels)%nat →
  place levels (Z.of_nat l) p
  = Ok (<[l := default [] (levels !! l) ++ [p]]> levels).
Proof.
  intros Hl. unfold place.
  destruct (Z.ltb_spec (Z.of_nat l) 0); [lia|].
  destruct (lookup_lt_is_Some_2 levels l Hl) as [b Hb].
  rewrite (vec_get_nat _ _ _ Hb). simpl.
  rewrite vec_set_Ok by lia. by rewrite Nat2Z.id, Hb.
Qed.

Lemma walk_in_range lev ns : ∀ i starts ends levels,
  tracks lev ns i starts ends →
  (∀ j : nat, (j < length ns)%nat → 0 ≤ lev (i + j)%nat < Z.of_nat (length levels)) →
  0 ≤ starts → starts + Z.of_nat (length ns) ≤ INT_MAX →
  0 ≤ ends → ends + Z.of_nat (length ns) ≤ INT_MAX →
  ∃ levels',
    walk ns i starts ends levels = Ok levels'
    ∧ length levels' = length levels
    ∧ ∀ l : nat, (l < length levels)%nat →
        levels' !! l
        = Some (default [] (levels !! l)
                ++ filter (λ p, lev p = Z.of_nat l) (seq i (length ns))).
Proof.
  induction ns as [|n ns IH]; intros i starts ends levels Ht Hr Hs Hs' He He'.
  - exists levels. split; [done|]. split; [done|]. intros l Hl. simpl.
    destruct (lookup_lt_is_Some_2 levels l Hl) as [b Hb].
    rewrite Hb. simpl. by rewrite app_nil_r.
  - simpl length in *.
    pose proof (tracks_head _ _ _ _ _ _ Ht) as Hhead.
    pose proof (Hr 0%nat ltac:(lia)) as Hr0. rewrite Nat.add_0_r in Hr0.
    set (ends1 := ends + indicator (is_bubble_end n)) in *.
    set (starts1 := starts + indicator (is_bubble_start n)).
    assert (Hi1 : 0 ≤ indicator (is_bubble_end n) ≤ 1)
      by (unfold indicator; destruct (is_bubble_end n); lia).
    assert (Hi2 : 0 ≤ indicator (is_bubble_start n) ≤ 1)
      by (unfold indicator; destruct (is_bubble_start n); lia).
    assert (Hends : (if 1 <? Z.of_nat (length (inNodes n)) then incr_int ends
                     else Ok ends) = Ok ends1).
    { unfold ends1, indicator, is_bubble_end, incr_int.
      destruct (1 <? Z.of_nat (length (inNodes n))).
      - destruct (Z.ltb_spec ends INT_MAX); [done | lia].
      - by rewrite Z.add_0_r. }
    assert (Hstarts : (if 1 <? Z.of_nat (length (outNodes n)) then incr_int starts
                       else Ok starts) = Ok starts1).
    { unfold starts1, indicator, is_bubble_start, incr_int.
      destruct (1 <? Z.of_nat (length (outNodes n))).
      - destruct (Z.ltb_spec starts INT_MAX); [done | lia].
      - by rewrite Z.add_0_r. }
    simpl walk. rewrite Hends. simpl.
    rewrite <- Hhead.
    replace (lev i) with (Z.of_nat (Z.to_nat (lev i))) by lia.
    rewrite place_Ok by lia. simpl. rewrite Hstarts. simpl.
    set (levels1 := <[Z.to_nat (lev i):=_]> levels).
    destruct (IH (S i) starts1 ends1 levels1) as (levels' & Hw & Hlen & Hl').
    + by apply tracks_tail.
    + intros j Hj. unfold levels1. rewrite length_insert.
      specialize (Hr (S j) ltac:(lia)). by rewrite Nat.add_succ_r in Hr.
    + unfold starts1. lia.
    + unfold starts1. lia.
    + unfold ends1. lia.
    + unfold ends1. lia.
    + exists levels'. split; [done|].
      unfold levels1 in Hlen. rewrite length_insert in Hlen. split; [done|].
      intros l Hl. rewrite Hl' by (unfold levels1; by rewrite length_insert).
      f_equal. unfold levels1. rewrite filter_cons.
      destruct (decide (Z.to_nat (lev i) = l)) as [<-|Hne].
      * rewrite list_lookup_insert_eq by lia. simpl.
        rewrite decide_True by lia. by rewrite <- app_assoc.
      * rewrite list_lookup_insert_ne by done.
        rewrite decide_False by lia. done.
Qed.

Lemma incr_if_Ok (c : bool) x y :
  (if c then incr_int x else Ok x) = Ok y → y = x + indicator c.
Proof.
  unfold incr_int, indicator. destruct c.
  - destruct (x <? INT_MAX); [by intros [= <-] | done].
  - intros [= <-]. lia.
Qed.

Lemma place_inv levels lvl p levels1 :
  place levels lvl p = Ok levels1 →
  0 ≤ lvl < Z.of_nat (length levels) ∧ length levels1 = length levels.
Proof.
  unfold place. destruct (Z.ltb_spec lvl 0); [done|].
  intros (b & Hb & Hset)%bind_Ok.
  apply vec_set_inv in Hset as [Hr ->]. by rewrite length_insert.
Qed.

Lemma walk_out_of_range lev ns : ∀ i starts ends levels,
  tracks lev ns i starts ends →
  (∃ j : nat, (j < length ns)%nat
     ∧ ¬ (0 ≤ lev (i + j)%nat < Z.of_nat (length levels))) →
  is_ok (walk ns i starts ends levels) = false.
Proof.
  induction ns as [|n ns IH]; intros i starts ends levels Ht (j & Hj & Hbad).
  - simpl in Hj. lia.
  - simpl walk.
    destruct (if 1 <? Z.of_nat (length (inNodes n)) then incr_int ends
              else Ok ends) as [ends1| |] eqn:Hends; [|done..].
    apply incr_if_Ok in Hends. simpl.
    destruct (place levels (starts - ends1) i) as [levels1| |] eqn:Hplace;
      [|done..].
    apply place_inv in Hplace as [Hlvl Hlen]. simpl.
    destruct (if 1 <? Z.of_nat (length (outNodes n)) then incr_int starts
              else Ok starts) as [starts1| |] eqn:Hstarts; [|done..].
    apply incr_if_Ok in Hstarts. simpl.
    pose proof (tracks_head _ _ _ _ _ _ Ht) as Hhead.
    fold (is_bubble_end n) in Hends. fold (is_bubble_start n) in Hstarts.
    subst ends1 starts1.
    apply (IH (S i)); [by apply tracks_tail|].
    destruct j as [|j].
    + rewrite Nat.add_0_r in Hbad. lia.
    + exists j. split; [simpl in Hj; lia|].
      rewrite Hlen. by rewrite Nat.add_succ_r in Hbad.
Qed.

Lemma tracks_bubble_level g : tracks (bubble_level g) (nodes g) 0 0 0.
Proof. intros j _. unfold bubble_level. simpl. lia. Qed.

Lemma levels_in_range_true g :
  levels_in_range g = true
  ↔ ∀ j : nat, (j < length (nodes g))%nat → 0 ≤ bubble_level g j < 10.
Proof.
  unfold levels_in_range. rewrite forallb_forall. split.
  - intros Hall j Hj. specialize (Hall j). rewrite in_seq in Hall.
    specialize (Hall ltac:(lia)). lia.
  - intros Hall j Hj%in_seq. specialize (Hall j ltac:(lia)). lia.
Qed.

Lemma levels_in_range_false g :
  levels_in_range g = false →
  ∃ j : nat, (j < length (nodes g))%nat ∧ ¬ (0 ≤ bubble_level g j < 10).
Proof.
  unfold levels_in_range. intros Hf.
  assert (Hex : existsb
            (λ i, negb ((0 <=? bubble_level g i) && (bubble_level g i <? 10)))
            (seq 0 (length (nodes g))) = true).
  { revert Hf. generalize (seq 0 (length (nodes g))).
    induction l as [|x l IHl]; simpl; [done|].
    destruct ((0 <=? bubble_level g x) && (bubble_level g x <? 10)); simpl;
      [exact IHl | done]. }
  apply existsb_exists in Hex as (j & Hj%in_seq & Hbad).
  exists j. split; [lia|]. lia.
Qed.

(** The order that [get_node_order] returns when every level is one of the
    ten buckets. *)
Lemma get_node_order_in_range g :
  Z.of_nat (length (nodes g)) ≤ INT_MAX →
  levels_in_range g = true →
  get_node_order g = Ok (order_by_level g).
Proof.
  intros Hsize Hlev. pose proof (proj1 (levels_in_range_true g) Hlev) as Hall.
  destruct (walk_in_range (bubble_level g) (nodes g) 0 0 0 (replicate 10 []))
    as (levels' & Hwalk & Hlen & Hbuckets).
  - apply tracks_bubble_level.
  - intros j Hj. rewrite length_replicate. simpl. by apply Hall.
  - lia.
  - lia.
  - lia.
  - lia.
  - unfold get_node_order. rewrite Hwalk. simpl. f_equal.
    rewrite Hlen, length_replicate in *.
    unfold order_by_level, level_members. simpl emit. simpl concat.
    rewrite !Hbuckets by lia. simpl. done.
Qed.

Lemma get_node_order_out_of_range g :
  levels_in_range g = false → is_ok (get_node_order g) = false.
Proof.
  intros (j & Hj & Hbad)%levels_in_range_false.
  unfold get_node_order.
  pose proof (walk_out_of_range (bubble_level g) (nodes g) 0 0 0
                (replicate 10 []) (tracks_bubble_level g)) as Hw.
  destruct (walk (nodes g) 0 0 0 (replicate 10 [])); [|done..].
  simpl is_ok in Hw. discriminate Hw. exists j. split; [done|].
  by rewrite length_replicate.
Qed.


(** *** [add_edge] *)

Lemma add_edge_beyond g from to :
  Z.of_nat (length (nodes g)) < from ∨ Z.of_nat (length (nodes g)) < to →
  add_edge g from to = Fatal AssertionFailed.
Proof.
  intros Hb. unfold add_edge.
  destruct (Z.leb_spec from (Z.of_nat (length (nodes g)))),
           (Z.leb_spec to (Z.of_nat (length (nodes g)))); simpl;
    first [done | lia].
Qed.

Lemma add_edge_at_size g from to :
  0 ≤ from ≤ Z.of_nat (length (nodes g)) →
  0 ≤ to ≤ Z.of_nat (length (nodes g)) →
  from = Z.of_nat (length (nodes g)) ∨ to = Z.of_nat (length (nodes g)) →
  add_edge g from to = Undefined.
Proof.
  intros Hf Ht Heq. unfold add_edge.
  destruct (Z.leb_spec from (Z.of_nat (length (nodes g)))); [|lia].
  destruct (Z.leb_spec to (Z.of_nat (length (nodes g)))); [|lia]. simpl.
  destruct (decide (from = Z.of_nat (length (nodes g)))) as [->|Hne].
  - by rewrite (vec_get_ge (nodes g) (Z.of_nat (length (nodes g)))) by lia.
  - destruct (lookup_lt_is_Some_2 (nodes g) (Z.to_nat from) ltac:(lia))
      as [nf Hnf].
    rewrite (proj2 (vec_get_Ok _ _ _) (conj (proj1 Hf) Hnf)). simpl.
    destruct Heq as [?| ->]; [done|].
    by rewrite (vec_get_ge (nodes g) (Z.of_nat (length (nodes g)))) by lia.
Qed.

Lemma add_edge_existing g from to :
  0 ≤ from < Z.of_nat (length (nodes g)) →
  0 ≤ to < Z.of_nat (length (nodes g)) →
  ∃ g' nf nt,
    add_edge g from to = Ok g'
    ∧ nodes g' !! Z.to_nat from = Some nf ∧ Z.to_nat to ∈ outNodes nf
    ∧ nodes g' !! Z.to_nat to = Some nt ∧ Z.to_nat from ∈ inNodes nt
    ∧ add_edge g' from to = Ok g'.
Proof.
  intros Hf Ht.
  destruct (lookup_lt_is_Some_2 (nodes g) (Z.to_nat from) ltac:(lia))
    as [nf Hnf].
  set (pf := Z.to_nat from) in *. set (pt := Z.to_nat to) in *.
  set (nodes1 := if bool_decide (pt ∈ outNodes nf) then nodes g
                 else alter (push_out pt) pf (nodes g)).
  assert (Hlen1 : length nodes1 = length (nodes g)).
  { unfold nodes1. case_bool_decide; [done | by rewrite length_alter]. }
  destruct (lookup_lt_is_Some_2 nodes1 pt ltac:(lia)) as [nt Hnt].
  set (nodes2 := if bool_decide (pf ∈ inNodes nt) then nodes1
                 else alter (push_in pf) pt nodes1).
  assert (Hlen2 : length nodes2 = length (nodes g)).
  { unfold nodes2. case_bool_decide; [done | by rewrite length_alter]. }
  assert (Hcall : add_edge g from to = Ok (mkKmerGraph nodes2 (next_id g))).
  { unfold add_edge.
    destruct (Z.leb_spec from (Z.of_nat (length (nodes g)))); [|lia].
    destruct (Z.leb_spec to (Z.of_nat (length (nodes g)))); [|lia]. simpl.
    rewrite (proj2 (vec_get_Ok _ _ _) (conj (proj1 Hf) Hnf)). simpl.
    destruct (lookup_lt_is_Some_2 (nodes g) pt ltac:(lia)) as [nt0 Hnt0].
    rewrite (proj2 (vec_get_Ok _ _ _) (conj (proj1 Ht) Hnt0)). simpl.
    fold pf pt nodes1.
    rewrite (proj2 (vec_get_Ok _ _ _) (conj (proj1 Ht) Hnt)). simpl.
    by fold nodes2. }
  (* the out-reference, in [nodes1] and then in [nodes2] *)
  assert (Hout1 : ∃ n, nodes1 !! pf = Some n ∧ pt ∈ outNodes n).
  { unfold nodes1. case_bool_decide.
    - by exists nf.
    - exists (push_out pt nf). rewrite list_lookup_alter_eq, Hnf. simpl.
      split; [done|]. apply elem_of_app. right. by apply list_elem_of_singleton. }
  assert (Hin2 : ∃ n, nodes2 !! pt = Some n ∧ pf ∈ inNodes n).
  { unfold nodes2. case_bool_decide.
    - by exists nt.
    - exists (push_in pf nt). rewrite list_lookup_alter_eq, Hnt. simpl.
      split; [done|]. apply elem_of_app. right. by apply list_elem_of_singleton. }
  assert (Hout2 : ∃ n, nodes2 !! pf = Some n ∧ pt ∈ outNodes n).
  { destruct Hout1 as (n1 & Hn1 & Hin). unfold nodes2. case_bool_decide.
    - by exists n1.
    - destruct (decide (pt = pf)) as [Heq|Hne].
      + exists (push_in pf n1). rewrite Heq, list_lookup_alter_eq, Hn1. simpl.
        split; [done|]. by rewrite <- Heq at 1.
      + exists n1. by rewrite list_lookup_alter_ne. }
  destruct Hout2 as (nf' & Hnf' & Hout), Hin2 as (nt' & Hnt' & Hin).
  exists (mkKmerGraph nodes2 (next_id g)), nf', nt'.
  split; [done|]. simpl. split; [done|]. split; [done|].
  split; [done|]. split; [done|].
  unfold add_edge. simpl. rewrite Hlen2.
  destruct (Z.leb_spec from (Z.of_nat (length (nodes g)))); [|lia].
  destruct (Z.leb_spec to (Z.of_nat (length (nodes g)))); [|lia]. simpl.
  rewrite (proj2 (vec_get_Ok _ _ _) (conj (proj1 Hf) Hnf')). simpl.
  rewrite (proj2 (vec_get_Ok _ _ _) (conj (proj1 Ht) Hnt')). simpl.
  fold pf pt. rewrite bool_decide_eq_true_2 by done.
  rewrite (proj2 (vec_get_Ok _ _ _) (conj (proj1 Ht) Hnt')). simpl.
  by rewrite bool_decide_eq_true_2 by done.
Qed.

(** C4: on a graph of at most [INT_MAX] nodes whose level, the bubble
    starts seen before a node minus the bubble ends seen up to it, stays
    within 0..9 at every node, [get_node_order] walks the nodes in
    insertion order, puts each at its level and emits the levels deepest
    first; on the graph with nodes 0..6 and edges 0→1, 1→2, 0→3, 3→4, 0→5,
    2→6, 4→6, 5→6 it returns [1,2,3,4,5,0,6]. *)
Theorem get_node_order_deepest_level_first :
  (∀ g : t,
     Z.of_nat (length (nodes g)) ≤ INT_MAX →
     levels_in_range g = true →
     get_node_order g = Ok (order_by_level g))
  ∧ order_test_graph ≫= get_node_order
    = Ok [1; 2; 3; 4; 5; 0; 6]%nat.
Proof.
  split.
  - exact get_node_order_in_range.
  - vm_compute. reflexivity.
Qed.

Lemma get_node_order_deepest_level_first_witness :
  order_test_graph = Ok order_test_value
  ∧ get_node_order order_test_value = Ok (order_by_level order_test_value)
  ∧ order_by_level order_test_value = [1; 2; 3; 4; 5; 0; 6]%nat.
Proof.
  split; [reflexivity|]. split; [|reflexivity].
  apply (proj1 get_node_order_deepest_level_first order_test_value).
  - vm_compute. discriminate.
  - reflexivity.
Defined.

(** C4 as stated, for every graph, fails: on [two_ends_graph] the last
    node is at level -1 and the assertion of the loop fails; on
    [ten_starts_graph] the node 10 is at level 10 and [nodes_by_level] is
    indexed past its ten buckets.  Both graphs have fewer than [INT_MAX]
    nodes, and neither is given an order. *)
Theorem get_node_order_outside_the_buckets :
  (∃ g, two_ends_graph = Ok g
        ∧ length (nodes g) = 6%nat
        ∧ bubble_level g 5 = -1
        ∧ get_node_order g = Fatal AssertionFailed)
  ∧ (∃ g, ten_starts_graph = Ok g
          ∧ length (nodes g) = 12%nat
          ∧ bubble_level g 10 = 10
          ∧ get_node_order g = Undefined).
Proof.
  split.
  - destruct two_ends_graph as [g| |] eqn:Hg;
      [|vm_compute in Hg; discriminate..].
    exists g. split; [done|].
    vm_compute in Hg. injection Hg as <-. by vm_compute.
  - destruct ten_starts_graph as [g| |] eqn:Hg;
      [|vm_compute in Hg; discriminate..].
    exists g. split; [done|].
    vm_compute in Hg. injection Hg as <-. by vm_compute.
Qed.



(** C8: on a graph of two nodes, [add_edge (0, 2)] passes the assertion
    [from <= nodes.size() && to <= nodes.size()] and then reads [nodes[2]],
    which is outside the vector; [add_edge (3, 1)] fails the assertion. *)
Theorem add_edge_one_past_the_end :
  length (nodes two_node_graph) = 2%nat
  ∧ add_edge two_node_graph 0 2 = Undefined
  ∧ add_edge two_node_graph 3 1 = Fatal AssertionFailed.
Proof. repeat split. Qed.

End KmerGraphFacts.

(** ** Coverage *)

Module CoverageFacts.
Import KGC.

Section Coverage.
Context {F : Type}.
Implicit Types (g : t F) (strand : Strand).

Lemma get_covg_Ok g node_id strand sample_id v :
  get_covg g node_id strand sample_id = Ok v ↔
  ∃ row, vec_get (node_index_to_sample_coverage g) node_id = Ok row
    ∧ ((Z.of_nat (length row) ≤ sample_id ∧ v = 0)
       ∨ (sample_id < Z.of_nat (length row)
          ∧ ∃ c, vec_get row sample_id = Ok c ∧ v = strand_of strand c)).
Proof.
  unfold get_covg. rewrite bind_Ok. split.
  - intros (row & Hrow & Hv). exists row. split; [done|].
    destruct (Z.leb_spec (Z.of_nat (length row)) sample_id).
    + left. split; [done|]. by injection Hv.
    + right. split; [done|]. apply bind_Ok in Hv as (c & Hc & [= <-]).
      by exists c.
  - intros (row & Hrow & Hcases). exists row. split; [done|].
    destruct Hcases as [[Hge ->]|(Hlt & c & Hc & ->)].
    + destruct (Z.leb_spec (Z.of_nat (length row)) sample_id); [done | lia].
    + destruct (Z.leb_spec (Z.of_nat (length row)) sample_id); [lia|].
      by rewrite Hc.
Qed.

Lemma get_covg_range g node_id strand sample_id v :
  covg_wf g → get_covg g node_id strand sample_id = Ok v →
  0 ≤ v ≤ UINT16_MAX.
Proof.
  intros Hwf (row & Hrow & Hcases)%get_covg_Ok.
  destruct Hcases as [[_ ->]|(_ & c & Hc & ->)]; [unfold UINT16_MAX; lia|].
  apply vec_get_Ok in Hrow as [_ Hrow], Hc as [_ Hc].
  unfold covg_wf in Hwf. rewrite Forall_lookup in Hwf.
  specialize (Hwf _ _ Hrow). rewrite Forall_lookup in Hwf.
  specialize (Hwf _ _ Hc). destruct strand; simpl; tauto.
Qed.

Lemma strand_of_set strand v c : strand_of strand (strand_set strand v c) = v.
Proof. by destruct strand. Qed.

Lemma strand_of_set_ne strand strand' v c :
  strand' ≠ strand → strand_of strand' (strand_set strand v c) = strand_of strand' c.
Proof. by destruct strand, strand'. Qed.

(** Reading a counter after one slot of the store was rewritten. *)
Lemma get_covg_with_coverage g node_id strand sample_id row c v n s i :
  vec_get (node_index_to_sample_coverage g) node_id = Ok row →
  vec_get row sample_id = Ok c →
  get_covg
    (with_coverage g
       (<[Z.to_nat node_id :=
            <[Z.to_nat sample_id := strand_set strand v c]> row]>
          (node_index_to_sample_coverage g))) n s i
  = if bool_decide ((n, s, i) = (node_id, strand, sample_id)) then Ok v
    else get_covg g n s i.
Proof.
  intros [Hn Hrow]%vec_get_Ok [Hi Hc]%vec_get_Ok.
  pose proof (lookup_lt_Some _ _ _ Hrow) as Hlt.
  pose proof (lookup_lt_Some _ _ _ Hc) as Hlt'.
  unfold get_covg, vec_get. simpl.
  destruct (Z.ltb_spec n 0) as [Hneg|Hpos].
  { rewrite bool_decide_eq_false_2; [done|]. intros [= -> _ _]. lia. }
  destruct (decide (n = node_id)) as [->|Hne].
  - rewrite list_lookup_insert_eq by done. rewrite Hrow. simpl.
    rewrite length_insert.
    destruct (Z.leb_spec (Z.of_nat (length row)) i) as [Hge|Hin].
    { rewrite bool_decide_eq_false_2; [done|]. intros [= _ ->]. lia. }
    destruct (Z.ltb_spec i 0) as [Hneg'|Hpos'].
    { rewrite bool_decide_eq_false_2; [done|]. intros [= _ ->]. lia. }
    destruct (decide (i = sample_id)) as [->|Hne'].
    + rewrite list_lookup_insert_eq by done. rewrite Hc. simpl.
      destruct (decide (s = strand)) as [->|Hs].
      * rewrite bool_decide_eq_true_2 by done. by rewrite strand_of_set.
      * rewrite bool_decide_eq_false_2 by congruence.
        by rewrite strand_of_set_ne.
    + rewrite list_lookup_insert_ne by lia.
      rewrite bool_decide_eq_false_2 by congruence. done.
  - rewrite list_lookup_insert_ne by lia.
    rewrite bool_decide_eq_false_2 by congruence. done.
Qed.

(** C6: [increment_covg] adds one to the addressed 16-bit counter unless it
    is at [UINT16_MAX], where it leaves it; no other counter changes; and
    it fails when [sample_id] is not below the number of the node's sample
    slots. *)
Theorem increment_covg_saturates g node_id strand sample_id row :
  vec_get (node_index_to_sample_coverage g) node_id = Ok row →
  0 ≤ sample_id →
  (Z.of_nat (length row) ≤ sample_id →
   increment_covg g node_id strand sample_id = Fatal SampleInvalid)
  ∧ (∀ c : Z * Z,
       vec_get row sample_id = Ok c →
       0 ≤ strand_of strand c ≤ UINT16_MAX →
       ∃ g',
         increment_covg g node_id strand sample_id = Ok g'
         ∧ get_covg g' node_id strand sample_id
           = Ok (if strand_of strand c <? UINT16_MAX
                 then strand_of strand c + 1 else strand_of strand c)
         ∧ (∀ n s i, (n, s, i) ≠ (node_id, strand, sample_id) →
                     get_covg g' n s i = get_covg g n s i)
         ∧ kmer_prg g' = kmer_prg g).
Proof.
  intros Hrow Hs. split.
  - intros Hge. unfold increment_covg. rewrite Hrow. simpl.
    destruct (Z.ltb_spec sample_id (Z.of_nat (length row))); [lia | done].
  - intros c Hc Hv.
    pose proof Hrow as [Hn Hrow']%vec_get_Ok.
    pose proof Hc as [_ Hc']%vec_get_Ok.
    pose proof (lookup_lt_Some _ _ _ Hrow') as Hlt.
    pose proof (lookup_lt_Some _ _ _ Hc') as Hlt'.
    set (v' := if strand_of strand c <? UINT16_MAX
               then strand_of strand c + 1 else strand_of strand c).
    assert (Hu : (if strand_of strand c <? UINT16_MAX
                  then u16 (strand_of strand c + 1) else strand_of strand c)
                 = v').
    { unfold v', u16, UINT16_MAX in *.
      destruct (Z.ltb_spec (strand_of strand c) 65535); [|done].
      apply Z.mod_small. lia. }
    eexists. split.
    { unfold increment_covg. rewrite Hrow. simpl.
      destruct (Z.ltb_spec sample_id (Z.of_nat (length row))); [|lia]. simpl.
      rewrite Hc. simpl. rewrite Hu.
      rewrite vec_set_Ok by lia. simpl. rewrite vec_set_Ok by lia. done. }
    split; [|split; [|done]].
    + rewrite (get_covg_with_coverage _ _ _ _ _ _ _ _ _ _ Hrow Hc).
      by rewrite bool_decide_eq_true_2.
    + intros n s i Hne.
      rewrite (get_covg_with_coverage _ _ _ _ _ _ _ _ _ _ Hrow Hc).
      by rewrite bool_decide_eq_false_2.
Qed.

Lemma sum_covg_zero g node_id sample_id :
  covg_wf g →
  sum_covg g node_id sample_id = Ok 0 ↔ no_covg g node_id sample_id.
Proof.
  intros Hwf. unfold sum_covg, no_covg. rewrite bind_Ok. split.
  - intros (x_f & Hf & (x_r & Hr & [= Hsum])%bind_Ok).
    exists x_f, x_r. split; [done|]. split; [done|].
    pose proof (get_covg_range _ _ _ _ _ Hwf Hf).
    pose proof (get_covg_range _ _ _ _ _ Hwf Hr).
    unfold u32, UINT16_MAX in *. rewrite Z.mod_small in Hsum by lia. done.
  - intros (x_f & x_r & Hf & Hr & Hsum). exists x_f. split; [done|].
    rewrite Hr. simpl. by rewrite Hsum.
Qed.

Lemma sum_covg_nonneg g node_id sample_id v :
  sum_covg g node_id sample_id = Ok v → 0 ≤ v.
Proof.
  unfold sum_covg. intros (x_f & _ & (x_r & _ & [= <-])%bind_Ok)%bind_Ok.
  unfold u32. apply Z.mod_pos_bound. lia.
Qed.

Lemma all_zero_from_true g ns sample_id :
  all_zero_from g ns sample_id = Ok true ↔
  ∀ n, n ∈ ns → sum_covg g (id n) sample_id = Ok 0.
Proof.
  induction ns as [|n ns IH]; simpl.
  - split; [|done]. intros _ n Hn. by apply elem_of_nil in Hn.
  - rewrite bind_Ok. split.
    + intros (v & Hv & Hrest).
      pose proof (sum_covg_nonneg _ _ _ _ Hv).
      destruct (Z.ltb_spec 0 v); [done|].
      assert (v = 0) as -> by lia.
      intros m [->|Hm]%elem_of_cons; [done|]. by apply IH.
    + intros Hall. exists 0. split; [apply Hall; left|].
      simpl. apply IH. intros m Hm. apply Hall. by right.
Qed.

(** C7, as the code has it: [coverage_is_zeroes] holds exactly when every
    node of the graph, the source and the sink included, has forward plus
    reverse coverage 0 for the sample. *)
Theorem coverage_is_zeroes_every_node g sample_id :
  covg_wf g →
  coverage_is_zeroes g sample_id = Ok true ↔
  ∀ n, n ∈ nodes (kmer_prg g) → no_covg g (id n) sample_id.
Proof.
  intros Hwf. unfold coverage_is_zeroes. rewrite all_zero_from_true.
  split; intros Hall n Hn; apply (sum_covg_zero _ _ _ Hwf); by apply Hall.
Qed.

End Coverage.

Lemma coverage_is_zeroes_every_node_witness :
  covg_wf covered_source
  ∧ (coverage_is_zeroes covered_source 1 = Ok true ↔
     ∀ n, n ∈ nodes (kmer_prg covered_source) →
          no_covg covered_source (id n) 1).
Proof.
  assert (Hwf : covg_wf covered_source).
  { unfold covg_wf, UINT16_MAX. simpl. repeat constructor; simpl; lia. }
  split; [exact Hwf|].
  exact (coverage_is_zeroes_every_node covered_source 1 Hwf).
Defined.

(** C7 as stated fails: the only coverage is on the source, so every node
    other than the source and the sink has coverage 0, and yet
    [coverage_is_zeroes] answers [false]. *)
Lemma coverage_is_zeroes_counts_sentinels :
  ¬ (coverage_is_zeroes covered_source 0 = Ok true ↔
     ∀ n, n ∈ nodes (kmer_prg covered_source) →
          is_sentinel (kmer_prg covered_source) (id n) = false →
          no_covg covered_source (id n) 0).
Proof.
  intros [_ Hback].
  assert (Hfalse : coverage_is_zeroes covered_source 0 = Ok true);
    [|discriminate Hfalse].
  apply Hback. intros n Hn Hs.
  repeat (apply elem_of_cons in Hn as [->|Hn]); try discriminate Hs.
  - exists 0, 0. by repeat split.
  - by apply elem_of_nil in Hn.
Qed.

Lemma increment_covg_saturates_witness :
  (increment_covg saturated 0 Forward 2 = Fatal SampleInvalid)
  ∧ (∃ g', increment_covg saturated 0 Forward 0 = Ok g'
           ∧ get_covg g' 0 Forward 0 = Ok 65535
           ∧ get_covg g' 0 Reverse 0 = get_covg saturated 0 Reverse 0)
  ∧ (∃ g', increment_covg saturated 0 Reverse 1 = Ok g'
           ∧ get_covg g' 0 Reverse 1 = Ok 5).
Proof.
  split; [|split].
  - apply (increment_covg_saturates saturated 0 Forward 2 [(65535, 7); (3, 4)]);
      [reflexivity | lia | simpl; lia].
  - destruct (proj2 (increment_covg_saturates saturated 0 Forward 0
                       [(65535, 7); (3, 4)] eq_refl ltac:(lia))
                    (65535, 7) eq_refl ltac:(unfold UINT16_MAX; simpl; lia))
      as (g' & Hg' & Hsame & Hother & _).
    exists g'. split; [exact Hg'|]. split; [exact Hsame|].
    apply Hother. discriminate.
  - destruct (proj2 (increment_covg_saturates saturated 0 Reverse 1
                       [(65535, 7); (3, 4)] eq_refl ltac:(lia))
                    (3, 4) eq_refl ltac:(unfold UINT16_MAX; simpl; lia))
      as (g' & Hg' & Hsame & _).
    exists g'. split; [exact Hg'|]. exact Hsame.
Defined.

End CoverageFacts.

(** ** Probabilities *)

Module ProbabilityFacts.
Import KGC.

Section Probability.
Context {F : Type} `{FloatOps F}.
Implicit Types (g : t F).

(** C3: [bin_prob] fails when no read was mapped or when
    [binomial_parameter_p] is still 1; otherwise it is 0 on the source and
    the sink, and elsewhere, with [s] the sum of the two coverages and [n]
    the number of reads, [log C(s; x_f, x_r) + s log (p/2)] when [s > n]
    and [log C(n; x_f, x_r) + s log (p/2) + (n - s) log (1 - p)] when
    [s <= n]; [set_binomial_parameter_p] stores [p = 1 / exp (e_rate k)];
    and [get_prob] refuses the model "bin" unless [p < 1] and reads were
    mapped. *)
Theorem bin_prob_cases g (node_id sample_id x_f x_r : Z)
    (first final : KmerNode) :
  get_forward_covg g node_id sample_id = Ok x_f →
  get_reverse_covg g node_id sample_id = Ok x_r →
  0 ≤ x_f ≤ UINT16_MAX → 0 ≤ x_r ≤ UINT16_MAX →
  node_id < Z.of_nat (length (nodes (kmer_prg g))) →
  vec_get (sorted_nodes (kmer_prg g)) 0 = Ok first →
  vec_get (sorted_nodes (kmer_prg g))
          (Z.of_nat (length (sorted_nodes (kmer_prg g))) - 1) = Ok final →
  0 ≤ num_reads g ≤ UINT32_MAX →
  let p := binomial_parameter_p g in
  let n := num_reads g in
  let s := x_f + x_r in
  bin_prob g node_id sample_id
  = (if n =? 0 then Fatal NoReadsMapped
     else if feqb p (of_int 1) then Fatal BinomialPNotSet
     else if (node_id =? id first) || (node_id =? id final)
     then Ok (of_int 0)
     else if n <? s then
       Ok (fadd (lognchoosek2 s x_f x_r)
                (fmul (of_int s) (flog (fdiv p (of_int 2)))))
     else
       Ok (fadd (fadd (lognchoosek2 n x_f x_r)
                      (fmul (of_int s) (flog (fdiv p (of_int 2)))))
                (fmul (of_int (n - s)) (flog (fsub (of_int 1) p)))))
  ∧ (∀ (e_rate : F) (g' : t F),
       set_binomial_parameter_p g e_rate = Ok g' →
       binomial_parameter_p g'
       = fdiv (of_int 1) (fexp (fmul e_rate (of_int (k (kmer_prg g))))))
  ∧ get_prob g "bin" node_id sample_id
    = (if fltb p (of_int 1) && (0 <? n) then bin_prob g node_id sample_id
       else Fatal BinomialParametersNotOk).
Proof.
  intros Hf Hr Hxf Hxr Hnode Hfirst Hfinal Hn p n s.
  split; [|split].
  - unfold bin_prob, bin_prob_num. fold n p.
    destruct (n =? 0); [done|].
    destruct (feqb p (of_int 1)); [done|].
    destruct (Z.ltb_spec node_id (Z.of_nat (length (nodes (kmer_prg g)))));
      [|lia].
    simpl. unfold sum_covg. rewrite Hf, Hr. simpl.
    rewrite Hfirst, Hfinal. simpl.
    assert (Hs : u32 (x_f + x_r) = s).
    { unfold u32, s, UINT16_MAX in *. apply Z.mod_small. lia. }
    rewrite Hs.
    destruct ((node_id =? id first) || (node_id =? id final)); [done|].
    destruct (Z.ltb_spec n s); [done|].
    simpl. do 4 f_equal. unfold u32, s, UINT32_MAX, UINT16_MAX in *.
    apply Z.mod_small. lia.
  - intros e_rate g'. unfold set_binomial_parameter_p.
    destruct (negb _); [done|]. by intros [= <-].
  - unfold get_prob. simpl. fold p n. by destruct (fltb p (of_int 1) && (0 <? n)).
Qed.

(** The sum [prob_path] accumulates, from the left. *)
Lemma sum_probs_foldl g model sample_id kpath ps : ∀ acc,
  Forall2 (λ n q, get_prob g model (id n) sample_id = Ok q) kpath ps →
  sum_probs g model sample_id kpath acc = Ok (foldl fadd acc ps).
Proof.
  intros acc Hall. revert acc.
  induction Hall as [|n q kpath ps Hq _ IH]; intros acc; simpl; [done|].
  rewrite Hq. simpl. apply IH.
Qed.

Lemma effective_len_spec kpath :
  (2 ≤ length kpath)%nat → Z.of_nat (length kpath) ≤ UINT32_MAX →
  effective_len kpath = Ok (spec_effective_len kpath).
Proof.
  intros Hlen Hmax. unfold effective_len, spec_effective_len.
  unfold sentinel_endpoints.
  destruct (lookup_lt_is_Some_2 kpath 0 ltac:(lia)) as [first Hfirst].
  destruct (lookup_lt_is_Some_2 kpath (length kpath - 1) ltac:(lia))
    as [final Hfinal].
  rewrite Hfirst, Hfinal.
  rewrite (proj2 (vec_get_Ok kpath 0 first)) by (split; [lia | done]).
  rewrite (proj2 (vec_get_Ok kpath (Z.of_nat (length kpath) - 1) final)); cycle 1.
  { split; [lia|]. rewrite <- Hfinal. f_equal. lia. }
  unfold mbind, outcome_bind, is_empty_path. f_equal.
  set (n := Z.of_nat (length kpath)) in *.
  assert (2 ≤ n) by (unfold n; lia).
  unfold u32, UINT32_MAX in *.
  rewrite (Z.mod_small n) by lia.
  destruct (path_length (path first) =? 0), (path_length (path final) =? 0);
    rewrite ?(Z.mod_small (n - 1)) by lia;
    rewrite ?(Z.mod_small (n - 1 - 1)) by lia;
    repeat match goal with |- context [?a =? 0] => destruct (Z.eqb_spec a 0) end;
    lia.
Qed.

Lemma effective_len_single n :
  effective_len [n]
  = Ok (if path_length (path n) =? 0 then UINT32_MAX else 1).
Proof.
  unfold effective_len. simpl.
  destruct (path_length (path n) =? 0); reflexivity.
Qed.

(** C5, where it holds: on a path of at least two nodes [prob_path] is the
    sum of the nodes' probabilities divided by the effective length. *)
Lemma prob_path_mean g kpath ps sample_id model :
  (2 ≤ length kpath)%nat → Z.of_nat (length kpath) ≤ UINT32_MAX →
  Forall2 (λ n q, get_prob g model (id n) sample_id = Ok q) kpath ps →
  prob_path g kpath sample_id model
  = Ok (fdiv (foldl fadd (of_int 0) ps) (of_int (spec_effective_len kpath))).
Proof.
  intros Hlen Hmax Hall. unfold prob_path.
  rewrite (sum_probs_foldl _ _ _ _ _ _ Hall). simpl.
  by rewrite effective_len_spec.
Qed.

(** C5, where it fails: on the path made of one sentinel node both
    decrements apply, [len] wraps from 0 to [UINT32_MAX], and the sum is
    divided by 4294967295 and not by 1. *)
Theorem prob_path_single_sentinel g (n : KmerNode) sample_id model (q : F) :
  path_length (path n) = 0 →
  get_prob g model (id n) sample_id = Ok q →
  spec_effective_len [n] = 1
  ∧ prob_path g [n] sample_id model
    = Ok (fdiv (fadd (of_int 0) q) (of_int 4294967295)).
Proof.
  intros Hpath Hq. split.
  - unfold spec_effective_len, sentinel_endpoints. simpl. rewrite Hpath.
    reflexivity.
  - unfold prob_path. rewrite effective_len_single, Hpath.
    cbn [sum_probs]. rewrite Hq. reflexivity.
Qed.

End Probability.

Lemma bin_prob_cases_witness :
  bin_prob chain_kgc 1 0
  = Ok (fadd (fadd (lognchoosek2 8 1 1)
                   (fmul (of_int 2)
                         (flog (fdiv (binomial_parameter_p chain_kgc)
                                     (of_int 2)))))
             (fmul (of_int 6)
                   (flog (fsub (of_int 1) (binomial_parameter_p chain_kgc)))))
  ∧ bin_prob chain_kgc 0 0 = Ok (of_int 0).
Proof.
  split.
  - rewrite (proj1 (bin_prob_cases chain_kgc 1 0 1 1
                      (mkKmerNode 0 [] [] [1] 0) (mkKmerNode 4 [] [3] [] 0)
                      eq_refl eq_refl
                      ltac:(unfold UINT16_MAX; lia)
                      ltac:(unfold UINT16_MAX; lia)
                      ltac:(simpl; lia) eq_refl eq_refl
                      ltac:(unfold UINT32_MAX; simpl; lia))).
    reflexivity.
  - rewrite (proj1 (bin_prob_cases chain_kgc 0 0 0 0
                      (mkKmerNode 0 [] [] [1] 0) (mkKmerNode 4 [] [3] [] 0)
                      eq_refl eq_refl
                      ltac:(unfold UINT16_MAX; lia)
                      ltac:(unfold UINT16_MAX; lia)
                      ltac:(simpl; lia) eq_refl eq_refl
                      ltac:(unfold UINT32_MAX; simpl; lia))).
    reflexivity.
Defined.

Lemma prob_path_single_sentinel_witness :
  ∃ q : Binary64.float,
    get_prob chain_kgc "nbin" 0 0 = Ok q
    ∧ prob_path chain_kgc [mkKmerNode 0 [] [] [1] 0] 0 "nbin"
      = Ok (fdiv (fadd (of_int 0) q) (of_int 4294967295)).
Proof.
  eexists. split.
  - vm_compute. reflexivity.
  - apply (prob_path_single_sentinel chain_kgc (mkKmerNode 0 [] [] [1] 0)
             0 "nbin").
    + reflexivity.
    + vm_compute. reflexivity.
Defined.

End ProbabilityFacts.

(** ** The maximum-likelihood path *)

Module MaxPathFacts.
Import KGC.

(** Inversion of a successful sequence of calls. *)
Ltac ok_inv H :=
  repeat match type of H with
         | _ ≫= _ = Ok _ =>
             let x := fresh "x" in
             let Hx := fresh "Hx" in
             apply bind_Ok in H as (x & Hx & H)
         end.

Lemma vec_get_set_eq {A} (v v' : list A) i a :
  vec_set v i a = Ok v' → vec_get v' i = Ok a.
Proof.
  intros [Hi ->]%vec_set_inv. apply vec_get_Ok. split; [lia|].
  apply list_lookup_insert_eq. lia.
Qed.

Lemma vec_get_set_ne {A} (v v' : list A) i j a :
  vec_set v i a = Ok v' → i ≠ j → vec_get v' j = vec_get v j.
Proof.
  intros [Hi ->]%vec_set_inv Hne. unfold vec_get.
  destruct (Z.ltb_spec j 0); [done|].
  rewrite list_lookup_insert_ne by lia. done.
Qed.

Lemma no_assert_bind {A B} (m : outcome A) (f : A → outcome B) :
  no_assert m → (∀ a, m = Ok a → no_assert (f a)) → no_assert (m ≫= f).
Proof.
  unfold no_assert. destruct m as [a| |]; intros Hm Hf.
  - by apply Hf.
  - simpl. intros [= ->]. by apply Hm.
  - done.
Qed.

Lemma no_assert_vec_get {A} (v : list A) i : no_assert (vec_get v i).
Proof. unfold no_assert, vec_get. by repeat case_match. Qed.

Lemma no_assert_vec_set {A} (v : list A) i a : no_assert (vec_set v i a).
Proof. unfold no_assert, vec_set. by repeat case_match. Qed.

Lemma no_assert_Ok {A} (a : A) : no_assert (Ok a).
Proof. done. Qed.

Ltac no_assert_tac :=
  repeat first
    [ apply no_assert_vec_get
    | apply no_assert_vec_set
    | apply no_assert_Ok
    | apply no_assert_bind; [|intros ? ?]
    | progress case_match
    | done ].

Lemma walk_back_no_assert steps prev : ∀ prev_node,
  no_assert (walk_back steps prev prev_node).
Proof.
  induction steps as [|steps IH]; intros prev_node; simpl; [done|].
  apply no_assert_bind; [apply no_assert_vec_get|]. intros. apply IH.
Qed.

(** [get_prob] has diagnostics of its own; it fails no assertion. *)
Lemma get_prob_no_assert {F} `{FloatOps F} (g : t F) prob_model node_id
    sample_id :
  no_assert (get_prob g prob_model node_id sample_id).
Proof.
  unfold get_prob, nbin_prob, lin_prob, bin_prob, bin_prob_num, sum_covg,
    get_forward_covg, get_reverse_covg, get_covg.
  no_assert_tac.
Qed.

Ltac dp_no_assert :=
  repeat first
    [ apply no_assert_vec_get
    | apply no_assert_vec_set
    | apply no_assert_Ok
    | apply walk_back_no_assert
    | apply get_prob_no_assert
    | apply no_assert_bind; [|intros ? ?]
    | progress case_match
    | done ].

Section MaxPath.
Context {F : Type} `{FloatOps F}.
Variable g : t F.
Variable prob_model : string.
Variable M : Z.
Variable sample_id : Z.
Implicit Types (st : dp_state F) (b : best F).

(** What [truncate] does when it returns: nothing when the length at [cur]
    is within the bound; otherwise it walks [M] steps along the chosen
    successors, starting from the successor of [cur], subtracts the
    probability of the sorted node at the position it reaches, and leaves
    the length [M]. *)
Lemma truncate_Ok cur st st' :
  truncate g prob_model M sample_id cur st = Ok st' →
  ∃ l_u,
    vec_get (length_of_maxpath_from_node st) cur = Ok l_u
    ∧ ((l_u ≤ M ∧ st' = st)
       ∨ (M < l_u ∧ u32 (l_u - 1) = M
          ∧ ∃ v tail_pos tail q s_u,
              vec_get (prev_node_along_maxpath st) cur = Ok v
              ∧ walk_back (Z.to_nat M) (prev_node_along_maxpath st) v
                = Ok tail_pos
              ∧ vec_get (sorted_nodes (kmer_prg g)) tail_pos = Ok tail
              ∧ get_prob g prob_model (id tail) sample_id = Ok q
              ∧ vec_get (max_sum_of_log_probs_from_node st) cur = Ok s_u
              ∧ st' = mkDP
                        (<[Z.to_nat cur := fsub s_u q]>
                           (max_sum_of_log_probs_from_node st))
                        (<[Z.to_nat cur := M]>
                           (length_of_maxpath_from_node st))
                        (prev_node_along_maxpath st))).
Proof.
  unfold truncate. intros Ht.
  apply bind_Ok in Ht as (l_u & Hlu & Ht). exists l_u. split; [done|].
  destruct (Z.ltb_spec M l_u) as [Hgt|Hle].
  - right. split; [done|].
    apply bind_Ok in Ht as (v & Hv & Ht).
    apply bind_Ok in Ht as (tail_pos & Hwalk & Ht).
    apply bind_Ok in Ht as (tail & Htail & Ht).
    apply bind_Ok in Ht as (q & Hq & Ht).
    apply bind_Ok in Ht as (s_u & Hsu & Ht).
    apply bind_Ok in Ht as (sums & Hsums & Ht).
    apply bind_Ok in Ht as (lens & Hlens & Ht).
    destruct (Z.eqb_spec (u32 (l_u - 1)) M) as [Heq|]; [|done].
    split; [done|]. exists v, tail_pos, tail, q, s_u.
    apply vec_set_inv in Hsums as [_ ->], Hlens as [_ ->].
    rewrite Heq in Ht. by injection Ht as <-.
  - left. split; [done|]. by injection Ht.
Qed.

Lemma truncate_no_assert cur st l_u :
  0 ≤ M ≤ UINT32_MAX →
  vec_get (length_of_maxpath_from_node st) cur = Ok l_u →
  l_u ≤ M + 1 →
  no_assert (truncate g prob_model M sample_id cur st).
Proof.
  intros HM Hlu Hle. unfold truncate. rewrite Hlu. simpl.
  destruct (Z.ltb_spec M l_u); [|done].
  assert (l_u = M + 1) as -> by lia.
  replace (M + 1 - 1) with M by lia.
  assert (Hu : u32 M = M) by (unfold u32, UINT32_MAX in *; apply Z.mod_small; lia).
  rewrite Hu, Z.eqb_refl.
  dp_no_assert.
Qed.

Lemma wins_no_assert st b v : no_assert (wins g st b v).
Proof. unfold wins, mean_from. no_assert_tac. Qed.

Lemma mean_from_no_assert (st : dp_state F) v : no_assert (mean_from st v).
Proof. unfold mean_from. no_assert_tac. Qed.

(** The lengths after a win, before [truncate]. *)
Lemma lengths_after_win st cur l_v lens (j : nat) (l : Z) :
  0 ≤ M ≤ UINT32_MAX →
  lengths_bounded M st →
  0 ≤ l_v ≤ M →
  vec_set (length_of_maxpath_from_node st) cur (u32 (1 + l_v)) = Ok lens →
  lens !! j = Some l →
  0 ≤ l ≤ M + 1 ∧ (M < l → j = Z.to_nat cur).
Proof.
  intros HM Hb Hlv [Hcur ->]%vec_set_inv Hj.
  destruct (decide (j = Z.to_nat cur)) as [->|Hne].
  - rewrite list_lookup_insert_eq in Hj by lia. injection Hj as <-.
    split; [|done]. unfold u32, UINT32_MAX in *.
    pose proof (Z.mod_pos_bound (1 + l_v) 4294967296 ltac:(lia)).
    pose proof (Z.mod_le (1 + l_v) 4294967296 ltac:(lia) ltac:(lia)). lia.
  - rewrite list_lookup_insert_ne in Hj by done.
    specialize (Hb _ _ Hj). lia.
Qed.

Lemma consider_bounded cur st b v :
  0 ≤ M ≤ UINT32_MAX →
  lengths_bounded M st →
  no_assert (consider g prob_model M sample_id cur (st, b) v)
  ∧ ∀ st' b',
      consider g prob_model M sample_id cur (st, b) v = Ok (st', b') →
      lengths_bounded M st'.
Proof.
  intros HM Hb. unfold consider. split.
  - apply no_assert_bind; [apply wins_no_assert|]. intros [] Hw; [|done].
    apply no_assert_bind; [apply get_prob_no_assert|]. intros p Hp.
    apply no_assert_bind; [apply no_assert_vec_get|]. intros s_v Hsv.
    apply no_assert_bind; [apply no_assert_vec_set|]. intros sums Hsums.
    apply no_assert_bind; [apply no_assert_vec_get|]. intros l_v Hlv.
    apply no_assert_bind; [apply no_assert_vec_set|]. intros lens Hlens.
    apply no_assert_bind; [apply no_assert_vec_set|]. intros prevs Hprevs.
    assert (Hlv' : 0 ≤ l_v ≤ M).
    { apply vec_get_Ok in Hlv as [_ Hlv]. by apply (Hb _ _ Hlv). }
    apply no_assert_bind.
    { apply (truncate_no_assert _ _ (u32 (1 + l_v))); [done| |].
      - simpl. by apply vec_get_set_eq in Hlens.
      - pose proof Hlens as [Hcur ->]%vec_set_inv.
        assert (Hl : <[Z.to_nat cur := u32 (1 + l_v)]>
                       (length_of_maxpath_from_node st) !! Z.to_nat cur
                     = Some (u32 (1 + l_v)))
          by (apply list_lookup_insert_eq; lia).
        apply (lengths_after_win st cur l_v _ _ _ HM Hb Hlv' Hlens) in Hl.
        lia. }
    intros st' Hst'.
    apply no_assert_bind; [no_assert_tac|]. intros terminus Hterm.
    destruct (negb (v =? terminus)); [|done].
    apply no_assert_bind; [apply mean_from_no_assert|]. intros m Hm.
    no_assert_tac.
  - intros st' b' Hc.
    apply bind_Ok in Hc as ([] & Hw & Hc); [|by injection Hc as <- <-].
    apply bind_Ok in Hc as (p & Hp & Hc).
    apply bind_Ok in Hc as (s_v & Hsv & Hc).
    apply bind_Ok in Hc as (sums & Hsums & Hc).
    apply bind_Ok in Hc as (l_v & Hlv & Hc).
    apply bind_Ok in Hc as (lens & Hlens & Hc).
    apply bind_Ok in Hc as (prevs & Hprevs & Hc).
    apply bind_Ok in Hc as (st1 & Hst1 & Hc).
    assert (Hlv' : 0 ≤ l_v ≤ M).
    { apply vec_get_Ok in Hlv as [_ Hlv]. by apply (Hb _ _ Hlv). }
    assert (Hst1b : lengths_bounded M st1).
    { apply truncate_Ok in Hst1 as (l_u & Hlu & Hcases). simpl in *.
      intros j l Hj.
      destruct Hcases as [[Hle ->]|(Hgt & Hu & v' & tp & tl & q & s_u & _ & _ & _ & _ & _ & ->)];
        simpl in Hj.
      - pose proof (lengths_after_win st cur l_v _ _ _ HM Hb Hlv' Hlens Hj)
          as [Hr Hbig].
        destruct (decide (M < l)) as [Hbigl|]; [|lia].
        specialize (Hbig Hbigl). subst j.
        apply vec_get_Ok in Hlu as [_ Hlu]. rewrite Hlu in Hj.
        injection Hj as ->. lia.
      - destruct (decide (j = Z.to_nat cur)) as [->|Hne].
        + apply lookup_lt_Some in Hj as Hlt. rewrite length_insert in Hlt.
          rewrite list_lookup_insert_eq in Hj by done. injection Hj as <-. lia.
        + rewrite list_lookup_insert_ne in Hj by done.
          pose proof (lengths_after_win st cur l_v _ _ _ HM Hb Hlv' Hlens Hj)
            as [Hr Hbig].
          destruct (decide (M < l)) as [Hbigl|]; [|lia].
          by specialize (Hbig Hbigl). }
    apply bind_Ok in Hc as (terminus & Hterm & Hc).
    destruct (negb (v =? terminus)).
    + apply bind_Ok in Hc as (m & Hm & Hc).
      apply bind_Ok in Hc as (l' & Hl' & Hc). by injection Hc as <- <-.
    + by injection Hc as <- <-.
Qed.

Lemma inner_bounded cur outs : ∀ st b,
  0 ≤ M ≤ UINT32_MAX →
  lengths_bounded M st →
  no_assert (inner g prob_model M sample_id cur (st, b) outs)
  ∧ ∀ st' b',
      inner g prob_model M sample_id cur (st, b) outs = Ok (st', b') →
      lengths_bounded M st'.
Proof.
  induction outs as [|v outs IH]; intros st b HM Hb; simpl.
  - split; [done|]. by intros st' b' [= <- <-].
  - destruct (consider_bounded cur st b v HM Hb) as [Hna Hok].
    split.
    + apply no_assert_bind; [done|]. intros [st1 b1] H1.
      apply IH; [done|]. by eapply Hok.
    + intros st' b' ([st1 b1] & H1 & Hrest)%bind_Ok.
      eapply (IH st1 b1 HM); [by eapply Hok | done].
Qed.

Lemma outer_bounded (j : nat) : ∀ st,
  0 ≤ M ≤ UINT32_MAX →
  lengths_bounded M st →
  no_assert (outer g prob_model M sample_id j st)
  ∧ ∀ st', outer g prob_model M sample_id j st = Ok st' → lengths_bounded M st'.
Proof.
  induction j as [|j IH]; intros st HM Hb; simpl.
  - split; [done|]. by intros st' [= <-].
  - assert (Hproc : ∀ n,
              no_assert (process g prob_model M sample_id st n)
              ∧ ∀ st', process g prob_model M sample_id st n = Ok st' →
                       lengths_bounded M st').
    { intros n. unfold process.
      destruct (inner_bounded (id n) (out_nodes n) st (mkBest flowest 0) HM Hb)
        as [Hna Hok].
      split.
      - apply no_assert_bind; [done|]. by intros.
      - intros st' ([st1 b1] & H1 & [= <-])%bind_Ok. by eapply Hok. }
    split.
    + apply no_assert_bind; [apply no_assert_vec_get|]. intros n Hn.
      apply no_assert_bind; [apply Hproc|]. intros st1 H1.
      apply IH; [done|]. by eapply Hproc.
    + intros st' (n & Hn & (st1 & H1 & Hrest)%bind_Ok)%bind_Ok.
      eapply (IH st1 HM); [by eapply Hproc | done].
Qed.

Lemma dp_init_bounded : 0 ≤ M → lengths_bounded M (dp_init g).
Proof.
  intros HM j l Hj. unfold dp_init in Hj. simpl in Hj.
  apply lookup_replicate in Hj as [-> _]. lia.
Qed.

(** The assertion [length == max_num_kmers_to_average] of the dynamic
    program never fails, and no length ever exceeds the bound. *)
Lemma run_dp_bounded :
  0 ≤ M ≤ UINT32_MAX →
  no_assert (run_dp g prob_model M sample_id)
  ∧ ∀ st, run_dp g prob_model M sample_id = Ok st → lengths_bounded M st.
Proof.
  intros HM. unfold run_dp.
  destruct (sorted_nodes (kmer_prg g)) eqn:E; [by split|].
  rewrite <- E. apply outer_bounded; [done|].
  apply dp_init_bounded. lia.
Qed.

(** The test of the inner loop, spelled out: the out-node [v] replaces the
    current best exactly when (i) it is the sink and [thresh] exceeds the
    best mean by more than the tolerance, or (ii) its own mean does, or
    (iii) its mean is within the tolerance of the best and its path is
    longer. *)
Lemma wins_Ok st b v w :
  wins g st b v = Ok w →
  ∃ terminus s_v l_v,
    vec_get (sorted_nodes (kmer_prg g))
            (Z.of_nat (length (sorted_nodes (kmer_prg g))) - 1) = Ok terminus
    ∧ vec_get (max_sum_of_log_probs_from_node st) v = Ok s_v
    ∧ vec_get (length_of_maxpath_from_node st) v = Ok l_v
    ∧ w = ((v =? id terminus)
             && fltb (fadd (max_mean b) ftolerance) (thresh g)
           || fltb (fadd (max_mean b) ftolerance) (fdiv s_v (of_int l_v))
           || fleb (fsub (max_mean b) (fdiv s_v (of_int l_v))) ftolerance
              && (u32 (max_length b) <? l_v)).
Proof.
  unfold wins, mean_from. intros Hw.
  apply bind_Ok in Hw as (t & (terminus & Hterm & [= <-])%bind_Ok & Hw).
  apply bind_Ok in Hw as (m & (s_v & Hsv & (l_v & Hlv & [= <-])%bind_Ok)%bind_Ok & Hw).
  apply bind_Ok in Hw as (l_v' & Hlv' & [= <-]).
  rewrite Hlv in Hlv'. injection Hlv' as <-.
  by exists terminus, s_v, l_v.
Qed.

(** What a win writes.  The sum at [cur] becomes [prob cur + S[v]], the
    length [1 + L[v]] and the successor [v]; when that length exceeds [M]
    the walk of [M] steps starts from [v], the successor of [cur], so the
    probability subtracted is that of the sorted node reached [M + 1] steps
    after [cur], and the length ends as [M]. *)
Lemma consider_win cur st b v st' b' :
  0 ≤ M ≤ UINT32_MAX →
  lengths_bounded M st →
  wins g st b v = Ok true →
  consider g prob_model M sample_id cur (st, b) v = Ok (st', b') →
  ∃ p s_v l_v,
    get_prob g prob_model cur sample_id = Ok p
    ∧ vec_get (max_sum_of_log_probs_from_node st) v = Ok s_v
    ∧ vec_get (length_of_maxpath_from_node st) v = Ok l_v
    ∧ prev_node_along_maxpath st'
      = <[Z.to_nat cur := v]> (prev_node_along_maxpath st)
    ∧ ((u32 (1 + l_v) ≤ M
        ∧ max_sum_of_log_probs_from_node st'
          = <[Z.to_nat cur := fadd p s_v]> (max_sum_of_log_probs_from_node st)
        ∧ length_of_maxpath_from_node st'
          = <[Z.to_nat cur := u32 (1 + l_v)]> (length_of_maxpath_from_node st))
       ∨ (1 + l_v = M + 1
          ∧ ∃ tail_pos tail q,
              walk_back (Z.to_nat M)
                (<[Z.to_nat cur := v]> (prev_node_along_maxpath st)) v
              = Ok tail_pos
              ∧ vec_get (sorted_nodes (kmer_prg g)) tail_pos = Ok tail
              ∧ get_prob g prob_model (id tail) sample_id = Ok q
              ∧ max_sum_of_log_probs_from_node st'
                = <[Z.to_nat cur := fsub (fadd p s_v) q]>
                    (max_sum_of_log_probs_from_node st)
              ∧ length_of_maxpath_from_node st'
                = <[Z.to_nat cur := M]> (length_of_maxpath_from_node st))).
Proof.
  intros HM Hb Hw Hc. unfold consider in Hc. rewrite Hw in Hc. simpl in Hc.
  apply bind_Ok in Hc as (p & Hp & Hc).
  apply bind_Ok in Hc as (s_v & Hsv & Hc).
  apply bind_Ok in Hc as (sums & Hsums & Hc).
  apply bind_Ok in Hc as (l_v & Hlv & Hc).
  apply bind_Ok in Hc as (lens & Hlens & Hc).
  apply bind_Ok in Hc as (prevs & Hprevs & Hc).
  apply bind_Ok in Hc as (st1 & Hst1 & Hc).
  assert (Hst' : st' = st1).
  { apply bind_Ok in Hc as (terminus & Hterm & Hc).
    destruct (negb (v =? terminus)).
    - apply bind_Ok in Hc as (m & Hm & Hc).
      apply bind_Ok in Hc as (l' & Hl' & Hc). by injection Hc as <- <-.
    - by injection Hc as <- <-. }
  subst st'. clear Hc.
  exists p, s_v, l_v. split; [done|]. split; [done|]. split; [done|].
  assert (Hlv' : 0 ≤ l_v ≤ M).
  { apply vec_get_Ok in Hlv as [_ Hlv]. by apply (Hb _ _ Hlv). }
  pose proof (vec_get_set_eq _ _ _ _ Hlens) as Hl_cur.
  pose proof (vec_get_set_eq _ _ _ _ Hsums) as Hs_cur.
  pose proof (vec_get_set_eq _ _ _ _ Hprevs) as Hp_cur.
  apply vec_set_inv in Hsums as [Hcs ->], Hlens as [Hcl ->],
      Hprevs as [Hcp ->].
  apply truncate_Ok in Hst1 as (l_u & Hlu & Hcases). simpl in *.
  rewrite Hl_cur in Hlu. injection Hlu as <-.
  destruct Hcases as [[Hle ->]|(Hgt & Hu & v' & tp & tl & q & s_u & Hv' & Hwalk & Htl & Hq & Hsu & ->)];
    simpl.
  - split; [done|]. left. by repeat split.
  - rewrite Hp_cur in Hv'. injection Hv' as <-.
    rewrite Hs_cur in Hsu. injection Hsu as <-.
    split; [done|]. right.
    assert (Hnowrap : u32 (1 + l_v) = 1 + l_v).
    { unfold u32, UINT32_MAX in *.
      destruct (decide (1 + l_v = 4294967296)) as [Heq|Hne].
      - rewrite Heq, Z.mod_same in Hgt by lia. lia.
      - apply Z.mod_small. lia. }
    rewrite Hnowrap in *. split; [lia|].
    exists tp, tl, q. split; [done|]. split; [done|]. split; [done|].
    by rewrite !list_insert_insert_eq.
Qed.

(** Once the fuel covers the passes of the extraction loop that the
    million-node guard allows, the result does not depend on it. *)
Lemma extract_fuel_irrelevant (st : dp_state F) (fuel : nat) :
  ∀ (fuel' : nat) prev_node maxpath,
    Z.max 0 (1000000 - Z.of_nat (length maxpath)) < Z.of_nat fuel →
    Z.max 0 (1000000 - Z.of_nat (length maxpath)) < Z.of_nat fuel' →
    extract g fuel st prev_node maxpath = extract g fuel' st prev_node maxpath.
Proof.
  induction fuel as [|fuel IH]; intros fuel' prev_node maxpath Hf Hf';
    [lia|].
  destruct fuel' as [|fuel']; [lia|]. simpl.
  destruct (prev_node <? _); [|done].
  destruct (vec_get (nodes (kmer_prg g)) prev_node) as [n| |]; [|done..].
  simpl.
  destruct (vec_get (prev_node_along_maxpath st) prev_node) as [pn| |];
    [|done..].
  simpl. rewrite length_app. simpl.
  destruct (Z.ltb_spec 1000000 (Z.of_nat (length maxpath + 1))); [done|].
  apply IH; rewrite length_app; simpl; lia.
Qed.

Lemma extract_fuel_enough (maxpath : list KmerNode) :
  Z.max 0 (1000000 - Z.of_nat (length maxpath))
  < Z.of_nat (extract_fuel maxpath).
Proof. unfold extract_fuel. lia. Qed.

(** The extraction with more fuel than [extract_fuel] grants is the same
    extraction: the fuel cuts no run short. *)
Lemma extract_more_fuel st (more : nat) prev_node maxpath :
  extract g (more + extract_fuel maxpath) st prev_node maxpath
  = extract g (extract_fuel maxpath) st prev_node maxpath.
Proof.
  pose proof (extract_fuel_enough maxpath).
  apply extract_fuel_irrelevant; lia.
Qed.

(** C2, as the code has it.  When [coverage_is_zeroes] holds,
    [find_max_path] returns the score [lowest] and leaves the path it was
    given untouched, whatever the dynamic program would do.  When the
    dynamic program leaves length 0 at node 0, [find_max_path] does not
    return: after the extraction loop it stops with the fatal error
    "found no path through kmer prg". *)
Theorem find_max_path_zero_coverage_or_no_path (maxpath : list KmerNode) :
  check (kmer_prg g) = true →
  (coverage_is_zeroes g sample_id = Ok true →
   find_max_path g prob_model M sample_id maxpath = Ok (flowest, maxpath))
  ∧ (∀ st,
       coverage_is_zeroes g sample_id = Ok false →
       run_dp g prob_model M sample_id = Ok st →
       vec_get (length_of_maxpath_from_node st) 0 = Ok 0 →
       find_max_path g prob_model M sample_id maxpath
       = reconstruct g st maxpath ≫= (λ _, Fatal NoPathFound)).
Proof.
  intros Hcheck. unfold find_max_path. rewrite Hcheck. simpl. split.
  - intros ->. reflexivity.
  - intros st -> -> Hl0. simpl.
    destruct (reconstruct g st maxpath); [|done..]. simpl.
    rewrite Hl0. reflexivity.
Qed.

End MaxPath.

Lemma find_max_path_zero_coverage_or_no_path_witness :
  check (kmer_prg zero_on_path) = true
  ∧ find_max_path (chain_with [[(0, 0)]; [(0, 0)]; [(0, 0)]; [(0, 0)]; [(0, 0)]])
      "lin" 100 0 []
    = Ok (flowest, []).
Proof.
  split; [reflexivity|].
  apply (find_max_path_zero_coverage_or_no_path
           (chain_with [[(0, 0)]; [(0, 0)]; [(0, 0)]; [(0, 0)]; [(0, 0)]])
           "lin" 100 0 []); reflexivity.
Defined.

(** C2 as stated fails: on a chain whose node 1 no read covers, under the
    model "lin", the coverage is not all zero, the dynamic program ends
    with length 0 at the source, and [find_max_path] stops with a fatal
    error where the claim has it return [lowest] and an empty path. *)
Lemma find_max_path_no_path_is_fatal :
  coverage_is_zeroes zero_on_path 0 = Ok false
  ∧ (∃ st, run_dp zero_on_path "lin" 100 0 = Ok st
           ∧ length_of_maxpath_from_node st = [0; 3; 2; 1; 0])
  ∧ find_max_path zero_on_path "lin" 100 0 [] = Fatal NoPathFound
  ∧ find_max_path zero_on_path "lin" 100 0 [] ≠ Ok (flowest, []).
Proof.
  split; [reflexivity|]. split.
  - eexists. split; [vm_compute; reflexivity|]. reflexivity.
  - split; [vm_compute; reflexivity|]. vm_compute. discriminate.
Qed.

(** C1 at a concrete input: the chain source → 1 → 2 → 3 → sink with
    [max_num_kmers_to_average = 1] under the model "bin".  At node 2 the
    length 2 exceeds 1; the walk starts from its successor 3 and takes one
    more step, to the sink, whose probability is what is subtracted: the
    sum for node 2 is [(p2 + (p3 + 0)) - p4], not [(p2 + (p3 + 0)) - p3]
    with node 3 the node one step after node 2. *)
Theorem truncation_walks_from_the_successor :
  ∃ (p2 p3 p4 : Binary64.float) (st : dp_state Binary64.float),
    get_prob chain_kgc "bin" 2 0 = Ok p2
    ∧ get_prob chain_kgc "bin" 3 0 = Ok p3
    ∧ get_prob chain_kgc "bin" 4 0 = Ok p4
    ∧ run_dp chain_kgc "bin" 1 0 = Ok st
    ∧ prev_node_along_maxpath st = [1; 2; 3; 4; 4]
    ∧ length_of_maxpath_from_node st = [1; 1; 1; 1; 0]
    ∧ vec_get (max_sum_of_log_probs_from_node st) 2
      = Ok (fsub (fadd p2 (fadd p3 (of_int 0))) p4)
    ∧ feqb (fsub (fadd p2 (fadd p3 (of_int 0))) p4)
           (fsub (fadd p2 (fadd p3 (of_int 0))) p3) = false.
Proof.
  do 4 eexists.
  split; [vm_compute; reflexivity|].
  split; [vm_compute; reflexivity|].
  split; [vm_compute; reflexivity|].
  split; [vm_compute; reflexivity|].
  split; [reflexivity|]. split; [reflexivity|].
  split; vm_compute; reflexivity.
Qed.

End MaxPathFacts.

(** ** Loading *)

Module LoadFacts.
Import KGC.

Lemma u32_range x : 0 ≤ u32 x < 4294967296.
Proof. unfold u32. apply Z.mod_pos_bound. lia. Qed.

Lemma u32_small x : 0 ≤ x < 4294967296 → u32 x = x.
Proof. unfold u32. apply Z.mod_small. Qed.

Section Load.
Context {F : Type}.
Variable node_lt : KmerNode → KmerNode → bool.
Implicit Types (g : t F) (st : ingest (F := F)).

(** *** First pass *)





(** *** Second pass *)

Lemma set_covg_inv g node_id value strand sample_id g' :
  set_covg g node_id value strand sample_id = Ok g' →
  kmer_prg g' = kmer_prg g
  ∧ ∀ n, slots_allocated (node_index_to_sample_coverage g) n →
         slots_allocated (node_index_to_sample_coverage g') n.
Proof.
  unfold set_covg. intros Hs.
  apply bind_Ok in Hs as (row & Hrow & Hs).
  destruct (negb _); [done|].
  apply bind_Ok in Hs as (c & Hc & Hs).
  apply bind_Ok in Hs as (row' & [_ ->]%vec_set_inv & Hs).
  apply bind_Ok in Hs as (cov' & [Hn ->]%vec_set_inv & [= <-]).
  split; [done|]. simpl. intros n Hall i Hi.
  destruct (Hall i Hi) as (r & Hr & Hlen).
  destruct (decide (Z.to_nat node_id = Z.to_nat i)) as [Heq|Hne].
  - rewrite Heq. rewrite list_lookup_insert_eq by (by eapply lookup_lt_Some).
    eexists. split; [done|]. rewrite length_insert.
    apply vec_get_Ok in Hrow as [_ Hrow]. rewrite Heq, Hr in Hrow.
    by injection Hrow as <-.
  - rewrite list_lookup_insert_ne by done. by exists r.
Qed.


Lemma ingest_s_inv num_nodes st s st' :
  ingest_s node_lt num_nodes st s = Ok st' →
  ∃ n, id n = u32 (s_id s)
       ∧ nodes (kmer_prg (ig_kgc st')) = nodes (kmer_prg (ig_kgc st)) ++ [n]
       ∧ ig_id st' = u32 (s_id s)
       ∧ ig_outnode_counts st' = ig_outnode_counts st
       ∧ ig_innode_counts st' = ig_innode_counts st
       ∧ Z.of_nat (length (nodes (kmer_prg (ig_kgc st)))) < 4294967296.
Proof.
  unfold ingest_s. intros Hs.
  destruct (negb (4 <=? s_fields s)); [done|].
  destruct (negb (s_digit s)); [done|].
  destruct (negb _) eqn:Hcons; [done|].
  apply negb_false_iff in Hcons.
  apply bind_Ok in Hs as (g2 & [Hg2 _]%set_covg_inv & Hs).
  destruct (negb (5 <=? s_fields s)); [done|].
  apply bind_Ok in Hs as (g3 & [Hg3 _]%set_covg_inv & [= <-]).
  exists (mkKmerNode (u32 (s_id s)) (s_path s) [] []
            (if 6 <=? s_fields s then s_num_AT s else 0)).
  simpl. rewrite Hg3, Hg2. simpl.
  split; [reflexivity|]. do 4 (split; [done|]).
  pose proof (u32_range (s_id s)).
  pose proof (u32_range (num_nodes - u32 (s_id s))).
  apply orb_true_iff in Hcons as [Heq%Z.eqb_eq|Heq%Z.eqb_eq]; lia.
Qed.

Lemma ingest_l_inv st l st' :
  ingest_l st l = Ok st' →
  ig_kgc st' = ig_kgc st ∧ ig_id st' = ig_id st
  ∧ length (ig_outnode_counts st') = length (ig_outnode_counts st)
  ∧ length (ig_innode_counts st') = length (ig_innode_counts st).
Proof.
  unfold ingest_l. intros Hl.
  repeat (destruct (negb _); [done|]).
  apply bind_Ok in Hl as (c_out & _ & Hl).
  apply bind_Ok in Hl as (outs & [_ ->]%vec_set_inv & Hl).
  apply bind_Ok in Hl as (c_in & _ & Hl).
  apply bind_Ok in Hl as (ins & [_ ->]%vec_set_inv & [= <-]).
  simpl. by rewrite !length_insert.
Qed.

Lemma ingest_lines_inv num_nodes lines : ∀ st st',
  ingest_lines node_lt num_nodes lines st = Ok st' →
  id <$> nodes (kmer_prg (ig_kgc st'))
  = (id <$> nodes (kmer_prg (ig_kgc st))) ++ s_ids lines
  ∧ ig_id st' = default (ig_id st) (list.last (s_ids lines))
  ∧ length (ig_outnode_counts st') = length (ig_outnode_counts st)
  ∧ length (ig_innode_counts st') = length (ig_innode_counts st)
  ∧ (Z.of_nat (length (nodes (kmer_prg (ig_kgc st)))) ≤ 4294967296 →
     Z.of_nat (length (nodes (kmer_prg (ig_kgc st')))) ≤ 4294967296).
Proof.
  induction lines as [|[s|l|] lines IH]; intros st st' Hi; simpl in *.
  - injection Hi as <-. by rewrite app_nil_r.
  - apply bind_Ok in Hi as (st1 & Hs & Hi).
    apply ingest_s_inv in Hs as (n & Hn & Hnodes & Hid & Hout & Hin & Hlen).
    apply IH in Hi as (Hids & Hid' & Hout' & Hin' & Hlen').
    rewrite Hids, Hid', Hout', Hin', Hnodes, Hid, Hout, Hin.
    rewrite fmap_app, <- app_assoc. simpl. rewrite Hn.
    split; [done|]. split.
    { rewrite last_cons. by destruct (list.last (s_ids lines)). }
    split; [done|]. split; [done|]. intros _. apply Hlen'.
    rewrite Hnodes, length_app. simpl. lia.
  - apply bind_Ok in Hi as (st1 & (Hg & Hid & Hout & Hin)%ingest_l_inv & Hi).
    apply IH in Hi as (Hids & Hid' & Hout' & Hin' & Hlen').
    rewrite Hids, Hid', Hout', Hin', Hg, Hid, Hout, Hin.
    rewrite Hg in Hlen'. done.
  - by apply IH.
Qed.


(** *** The check of the ids *)

Lemma check_ids_inv cs all ns : ∀ pre,
  all = pre ++ ns →
  Z.of_nat (length all) ≤ 4294967296 →
  check_ids all ns (Z.of_nat (length pre)) cs = Ok () →
  ∀ (j : nat) x, (length pre ≤ j)%nat → all !! j = Some x → id x = Z.of_nat j.
Proof.
  induction ns as [|n ns IH]; intros pre Hall Hlen Hc j x Hj Hx.
  - rewrite app_nil_r in Hall. subst all.
    apply lookup_lt_Some in Hx. lia.
  - simpl in Hc. apply bind_Ok in Hc as (at_id & Hat & Hc).
    destruct (negb _) eqn:Hcons; [done|]. apply negb_false_iff in Hcons.
    apply andb_true_iff in Hcons as [[Heq%Z.eqb_eq _]%andb_true_iff _].
    apply vec_get_Ok in Hat as [_ Hat]. rewrite Nat2Z.id in Hat.
    assert (Hmid : all !! length pre = Some n)
      by (rewrite Hall; apply list_lookup_middle; done).
    rewrite Hmid in Hat. injection Hat as <-.
    destruct (decide (j = length pre)) as [->|Hne].
    + rewrite Hmid in Hx. by injection Hx as <-.
    + assert (Hlen' : Z.of_nat (length pre) + 1 < 4294967296).
      { apply lookup_lt_Some in Hx. lia. }
      rewrite u32_small in Hc by lia.
      apply (IH (pre ++ [n])); try done.
      * by rewrite <- app_assoc.
      * rewrite length_app. simpl.
        replace (Z.of_nat (length pre + 1)) with (Z.of_nat (length pre) + 1)
          by lia. done.
      * rewrite length_app. simpl. lia.
Qed.


Lemma check_ids_ordered cs all :
  Z.of_nat (length all) ≤ 4294967296 →
  check_ids all all 0 cs = Ok () →
  id <$> all = seqZ 0 (Z.of_nat (length all)).
Proof.
  intros Hlen Hc. apply list_eq. intros j.
  rewrite list_lookup_fmap.
  destruct (all !! j) as [x|] eqn:Hx; simpl.
  - rewrite (check_ids_inv cs all all [] eq_refl Hlen Hc j x ltac:(simpl; lia) Hx).
    symmetry. apply lookup_seqZ. apply lookup_lt_Some in Hx. lia.
  - symmetry. apply lookup_seqZ_ge. apply lookup_ge_None in Hx. lia.
Qed.

(** *** Third pass *)

Lemma update_node_ids (f : KmerNode → KmerNode) target ns :
  (∀ n, id (f n) = id n) → id <$> update_node f target ns = id <$> ns.
Proof.
  intros Hf. unfold update_node. induction ns as [|n ns IH]; simpl; [done|].
  f_equal; [|done]. by destruct (id n =? target).
Qed.

Lemma add_edge_ids kg a b : id <$> nodes (add_edge kg a b) = id <$> nodes kg.
Proof.
  unfold add_edge.
  repeat case_bool_decide; simpl; rewrite ?update_node_ids; done.
Qed.

Lemma link_lines_inv lines : ∀ kg kg',
  link_lines lines kg = Ok kg' → id <$> nodes kg' = id <$> nodes kg.
Proof.
  induction lines as [|[s|l|] lines IH]; intros kg kg' Hl; simpl in *.
  - by injection Hl as <-.
  - by apply IH.
  - destruct (negb _); [done|].
    apply bind_Ok in Hl as (nf & _ & Hl).
    apply bind_Ok in Hl as (nt & _ & Hl).
    apply IH in Hl. by rewrite Hl, add_edge_ids.
  - by apply IH.
Qed.


(** *** The two orders *)








End Load.



End LoadFacts.

Module KmerGraphCalls.
Import KmerGraph.

Lemma alter_same {A} (f : A → A) (l : list A) (i : nat) :
  (∀ x, l !! i = Some x → f x = x) → alter f i l = l.
Proof.
  intros Hf. apply list_eq. intros j.
  destruct (decide (j = i)) as [->|Hne].
  - rewrite list_lookup_alter_eq. destruct (l !! i) eqn:E; simpl; [|done].
    by rewrite Hf.
  - by rewrite list_lookup_alter_ne.
Qed.

(** [add_edge] between two nodes of the graph, in one equation. *)
Lemma add_edge_in_range g (from to : nat) :
  (from < length (nodes g))%nat → (to < length (nodes g))%nat →
  add_edge g (Z.of_nat from) (Z.of_nat to)
  = Ok (mkKmerGraph
          (alter (add_in from) to (alter (add_out to) from (nodes g)))
          (next_id g)).
Proof.
  intros Hf Ht. unfold add_edge.
  destruct (Z.leb_spec (Z.of_nat from) (Z.of_nat (length (nodes g)))); [|lia].
  destruct (Z.leb_spec (Z.of_nat to) (Z.of_nat (length (nodes g)))); [|lia].
  simpl.
  destruct (lookup_lt_is_Some_2 (nodes g) from Hf) as [nf Hnf].
  destruct (lookup_lt_is_Some_2 (nodes g) to Ht) as [nt0 Hnt0].
  rewrite (vec_get_nat _ _ _ Hnf), (vec_get_nat _ _ _ Hnt0). simpl.
  rewrite !Nat2Z.id.
  assert (H1 : (if bool_decide (to ∈ outNodes nf) then nodes g
                else alter (push_out to) from (nodes g))
               = alter (add_out to) from (nodes g)).
  { case_bool_decide as Hin.
    - symmetry. apply alter_same. intros x Hx. rewrite Hnf in Hx.
      injection Hx as <-. unfold add_out. by rewrite bool_decide_eq_true_2.
    - apply list_eq. intros j. destruct (decide (j = from)) as [->|Hne].
      + rewrite !list_lookup_alter_eq, Hnf. simpl. unfold add_out.
        by rewrite bool_decide_eq_false_2.
      + by rewrite !list_lookup_alter_ne. }
  rewrite H1. clear H1. set (nodes1 := alter (add_out to) from (nodes g)).
  assert (Hlen1 : length nodes1 = length (nodes g))
    by (unfold nodes1; by rewrite length_alter).
  destruct (lookup_lt_is_Some_2 nodes1 to ltac:(lia)) as [nt Hnt].
  rewrite (vec_get_nat _ _ _ Hnt). simpl. do 2 f_equal.
  case_bool_decide as Hin.
  - symmetry. apply alter_same. intros x Hx. rewrite Hnt in Hx.
    injection Hx as <-. unfold add_in. by rewrite bool_decide_eq_true_2.
  - apply list_eq. intros j. destruct (decide (j = to)) as [->|Hne].
    + rewrite !list_lookup_alter_eq, Hnt. simpl. unfold add_in.
      by rewrite bool_decide_eq_false_2.
    + by rewrite !list_lookup_alter_ne.
Qed.

Lemma add_edge_Ok_inv g from to g' :
  add_edge g from to = Ok g' →
  0 ≤ from < Z.of_nat (length (nodes g)) ∧ 0 ≤ to < Z.of_nat (length (nodes g)).
Proof.
  unfold add_edge. destruct (negb _); [done|].
  intros (nf & [Hf Hnf]%vec_get_Ok & (nt & [Ht Hnt]%vec_get_Ok & _)%bind_Ok)%bind_Ok.
  apply lookup_lt_Some in Hnf, Hnt. lia.
Qed.


Lemma add_out_fields j n :
  id (add_out j n) = id n ∧ path (add_out j n) = path n
  ∧ covg (add_out j n) = covg n ∧ inNodes (add_out j n) = inNodes n.
Proof. unfold add_out. by case_bool_decide. Qed.

Lemma add_in_fields i n :
  id (add_in i n) = id n ∧ path (add_in i n) = path n
  ∧ covg (add_in i n) = covg n ∧ outNodes (add_in i n) = outNodes n.
Proof. unfold add_in. by case_bool_decide. Qed.

Lemma elem_of_add_out j t n : j ∈ outNodes (add_out t n) ↔ j ∈ outNodes n ∨ j = t.
Proof.
  unfold add_out. case_bool_decide as Hin; simpl.
  - split; [by left | by intros [?| ->]].
  - rewrite elem_of_app, list_elem_of_singleton. done.
Qed.

Lemma elem_of_add_in i f n : i ∈ inNodes (add_in f n) ↔ i ∈ inNodes n ∨ i = f.
Proof.
  unfold add_in. case_bool_decide as Hin; simpl.
  - split; [by left | by intros [?| ->]].
  - rewrite elem_of_app, list_elem_of_singleton. done.
Qed.

Lemma NoDup_add_out t n : NoDup (outNodes n) → NoDup (outNodes (add_out t n)).
Proof.
  unfold add_out. case_bool_decide as Hin; simpl; [done|].
  intros Hnd. apply NoDup_app. split; [done|]. split; [|apply NoDup_singleton].
  intros x Hx ->%list_elem_of_singleton. done.
Qed.

Lemma NoDup_add_in f n : NoDup (inNodes n) → NoDup (inNodes (add_in f n)).
Proof.
  unfold add_in. case_bool_decide as Hin; simpl; [done|].
  intros Hnd. apply NoDup_app. split; [done|]. split; [|apply NoDup_singleton].
  intros x Hx ->%list_elem_of_singleton. done.
Qed.

Lemma lookup_linked (ns : list KmerNode) (from to i : nat) :
  alter (add_in from) to (alter (add_out to) from ns) !! i
  = linked from to i <$> ns !! i.
Proof.
  unfold linked. destruct (decide (i = to)) as [->|Hto].
  - rewrite list_lookup_alter_eq. destruct (decide (to = from)) as [->|Hfrom].
    + rewrite list_lookup_alter_eq. by destruct (ns !! from).
    + rewrite list_lookup_alter_ne by done. by destruct (ns !! to).
  - rewrite list_lookup_alter_ne by done. destruct (decide (i = from)) as [->|Hfrom].
    + rewrite list_lookup_alter_eq. by destruct (ns !! from).
    + rewrite list_lookup_alter_ne by done. by destruct (ns !! i).
Qed.

Lemma linked_fields from to i n :
  id (linked from to i n) = id n ∧ path (linked from to i n) = path n
  ∧ covg (linked from to i n) = covg n.
Proof.
  unfold linked. destruct (decide (i = from)), (decide (i = to));
    repeat match goal with
           | |- context [add_in ?a ?b] =>
               destruct (add_in_fields a b) as (-> & -> & -> & _)
           | |- context [add_out ?a ?b] =>
               destruct (add_out_fields a b) as (-> & -> & -> & _)
           end; done.
Qed.

Lemma elem_of_linked_out from to i n j :
  j ∈ outNodes (linked from to i n) ↔ j ∈ outNodes n ∨ (i = from ∧ j = to).
Proof.
  unfold linked. destruct (decide (i = to)) as [Hto|Hto].
  - destruct (add_in_fields from (if decide (i = from) then add_out to n else n))
      as (_ & _ & _ & ->).
    destruct (decide (i = from)); [rewrite elem_of_add_out|]; naive_solver.
  - destruct (decide (i = from)); [rewrite elem_of_add_out|]; naive_solver.
Qed.

Lemma elem_of_linked_in from to i n j :
  j ∈ inNodes (linked from to i n) ↔ j ∈ inNodes n ∨ (i = to ∧ j = from).
Proof.
  unfold linked. destruct (decide (i = to)) as [Hto|Hto].
  - rewrite elem_of_add_in.
    destruct (decide (i = from));
      [destruct (add_out_fields to n) as (_ & _ & _ & ->)|]; naive_solver.
  - destruct (decide (i = from));
      [destruct (add_out_fields to n) as (_ & _ & _ & ->)|]; naive_solver.
Qed.

Lemma NoDup_linked from to i n :
  NoDup (outNodes n) → NoDup (inNodes n) →
  NoDup (outNodes (linked from to i n)) ∧ NoDup (inNodes (linked from to i n)).
Proof.
  intros Ho Hi. unfold linked.
  destruct (decide (i = from)), (decide (i = to)); split;
    repeat first
      [ apply NoDup_add_in | apply NoDup_add_out | done
      | match goal with
        | |- context [outNodes (add_in ?a ?b)] =>
            destruct (add_in_fields a b) as (_ & _ & _ & ->)
        | |- context [inNodes (add_out ?a ?b)] =>
            destruct (add_out_fields a b) as (_ & _ & _ & ->)
        end ].
Qed.

(** *** The invariant of the graphs that calls build *)

Lemma well_formed_empty : well_formed empty.
Proof.
  split; [|split; [|split]].
  - split; [done|]. intros i n Hi. by destruct i.
  - intros i n Hi. by destruct i.
  - intros i j ni nj Hi. by destruct i.
  - constructor.
Qed.

Lemma existsb_node_eqb n ns :
  existsb (node_eqb n) ns = true ↔ path n ∈ path <$> ns.
Proof.
  rewrite existsb_exists, list_elem_of_fmap. unfold node_eqb. split.
  - intros (m & Hm%list_elem_of_In & Heq%bool_decide_eq_true). by exists m.
  - intros (m & Heq & Hm). exists m. split; [by apply list_elem_of_In|].
    by apply bool_decide_eq_true.
Qed.

Lemma well_formed_add_node g p : well_formed g → well_formed (add_node g p).
Proof.
  intros ((Hnext & Hids) & Hclosed & Hrec & Hpaths). unfold add_node.
  destruct (existsb _ _) eqn:Hex; [done|].
  assert (Hfresh : p ∉ path <$> nodes g).
  { intros Hin. apply not_true_iff_false in Hex. apply Hex.
    by apply existsb_node_eqb. }
  set (n := mkKmerNode (next_id g) p [] [] 0).
  unfold well_formed, ids_are_positions, edges_closed, reciprocal,
    distinct_paths. cbn [nodes next_id].
  split; [|split; [|split]].
  - split.
    + rewrite Hnext, length_app. simpl length. unfold u32.
      rewrite Zplus_mod_idemp_l. f_equal. lia.
    + intros i m [Hi|[-> <-]]%lookup_snoc_Some; [by apply Hids, Hi|].
      simpl. done.
  - intros i m Hi. rewrite length_app. simpl.
    apply lookup_snoc_Some in Hi as [[_ Hi]|[_ <-]].
    + destruct (Hclosed i m Hi) as (Ho & Hin & Hndo & Hndi).
      split; [|split; [|done]]; intros j Hj;
        [specialize (Ho j Hj) | specialize (Hin j Hj)]; lia.
    + simpl. split; [|split; [|split; constructor]];
        intros j Hj; by apply elem_of_nil in Hj.
  - intros i j ni nj Hi Hj.
    apply lookup_snoc_Some in Hi as [[Hli Hi]|[-> <-]],
        Hj as [[Hlj Hj]|[-> <-]]; simpl.
    + by apply Hrec.
    + destruct (Hclosed i ni Hi) as (Ho & _). split.
      * intros Hin%Ho. lia.
      * by intros Hin%elem_of_nil.
    + destruct (Hclosed j nj Hj) as (_ & Hin & _). split.
      * by intros ?%elem_of_nil.
      * intros H%Hin. lia.
    + done.
  - rewrite fmap_app. simpl.
    apply NoDup_app. split; [done|]. split; [|apply NoDup_singleton].
    intros x Hx ->%list_elem_of_singleton. done.
Qed.

Lemma well_formed_add_edge g from to g' :
  well_formed g → add_edge g from to = Ok g' → well_formed g'.
Proof.
  intros ((Hnext & Hids) & Hclosed & Hrec & Hpaths) Hadd.
  pose proof (add_edge_Ok_inv _ _ _ _ Hadd) as [Hf Ht].
  rewrite <- (Z2Nat.id from), <- (Z2Nat.id to) in Hadd by lia.
  rewrite add_edge_in_range in Hadd by lia. injection Hadd as <-.
  set (pf := Z.to_nat from). set (pt := Z.to_nat to).
  assert (Hpf : (pf < length (nodes g))%nat) by lia.
  assert (Hpt : (pt < length (nodes g))%nat) by lia.
  unfold well_formed, ids_are_positions, edges_closed, reciprocal,
    distinct_paths. cbn [nodes next_id].
  split; [|split; [|split]].
  - split; [by rewrite !length_alter|].
    intros i n Hi. rewrite lookup_linked in Hi.
    destruct (nodes g !! i) as [m|] eqn:Hm; [|done]. injection Hi as <-.
    destruct (linked_fields pf pt i m) as (-> & _). by apply Hids.
  - intros i n Hi. rewrite lookup_linked in Hi. rewrite !length_alter.
    destruct (nodes g !! i) as [m|] eqn:Hm; [|done]. injection Hi as <-.
    destruct (Hclosed i m Hm) as (Ho & Hin & Hndo & Hndi).
    split; [|split].
    + intros j [Hj|[_ ->]]%elem_of_linked_out; [by apply Ho | done].
    + intros j [Hj|[_ ->]]%elem_of_linked_in; [by apply Hin | done].
    + by apply NoDup_linked.
  - intros i j ni nj Hi Hj. rewrite lookup_linked in Hi, Hj.
    destruct (nodes g !! i) as [mi|] eqn:Hmi; [|done]. injection Hi as <-.
    destruct (nodes g !! j) as [mj|] eqn:Hmj; [|done]. injection Hj as <-.
    rewrite elem_of_linked_out, elem_of_linked_in.
    specialize (Hrec i j mi mj Hmi Hmj). tauto.
  - unfold distinct_paths in Hpaths.
    assert (Heq : path <$> alter (add_in pf) pt (alter (add_out pt) pf (nodes g))
                  = path <$> nodes g).
    { apply list_eq. intros i. rewrite !list_lookup_fmap, lookup_linked.
      destruct (nodes g !! i) as [m|]; [|done]. simpl.
      by destruct (linked_fields pf pt i m) as (_ & -> & _). }
    by rewrite Heq.
Qed.

Lemma find_path_Some ns q i :
  find_path ns q = Some i →
  ∃ n, ns !! i = Some n ∧ path n = q
       ∧ ∀ j m, ns !! j = Some m → (j < i)%nat → path m ≠ q.
Proof.
  unfold find_path. destruct (list_find _ ns) as [[i' n]|] eqn:E; [|done].
  simpl. intros [= <-]. apply list_find_Some in E as (Hn & Hq & Hfirst).
  exists n. by repeat split.
Qed.

Lemma find_path_None ns q : find_path ns q = None ↔ q ∉ path <$> ns.
Proof.
  unfold find_path. rewrite fmap_None, list_find_None, Forall_forall.
  rewrite list_elem_of_fmap. split.
  - intros Hall (n & -> & Hn). by apply (Hall n).
  - intros Hnot n Hn Hq. apply Hnot. by exists n.
Qed.

(** On a graph whose edges are reciprocal, adding an edge between two paths
    is adding it between the positions of the first nodes with these
    paths. *)
Lemma add_edge_path_add_edge g p q (i j : nat) :
  reciprocal g →
  find_path (nodes g) p = Some i → find_path (nodes g) q = Some j →
  add_edge_path g p q = add_edge g (Z.of_nat i) (Z.of_nat j).
Proof.
  intros Hrec Hi Hj. unfold add_edge_path. rewrite Hi, Hj.
  apply find_path_Some in Hi as (ni & Hni & _), Hj as (nj & Hnj & _).
  rewrite (vec_get_nat _ _ _ Hni). simpl.
  rewrite add_edge_in_range by (by eapply lookup_lt_Some).
  case_bool_decide as Hin.
  - destruct g as [ns nid]. simpl in *. do 2 f_equal. symmetry.
    rewrite (alter_same (add_out j)).
    + apply alter_same. intros x Hx. rewrite Hnj in Hx. injection Hx as <-.
      unfold add_in. rewrite bool_decide_eq_true_2; [done|].
      by apply (Hrec i j ni nj Hni Hnj).
    + intros x Hx. rewrite Hni in Hx. injection Hx as <-.
      unfold add_out. by rewrite bool_decide_eq_true_2.
  - do 2 f_equal. apply list_eq. intros l.
    rewrite lookup_linked. unfold linked.
    assert (Hnin : i ∉ inNodes nj)
      by (intros H; by apply Hin, (Hrec i j ni nj Hni Hnj)).
    destruct (decide (l = j)) as [->|Hlj].
    + rewrite list_lookup_alter_eq. destruct (decide (j = i)) as [->|Hji].
      * rewrite list_lookup_alter_eq, Hni. simpl.
        rewrite Hni in Hnj. injection Hnj as <-.
        unfold add_out. rewrite bool_decide_eq_false_2 by done.
        unfold add_in. simpl. by rewrite bool_decide_eq_false_2.
      * rewrite list_lookup_alter_ne by done. rewrite Hnj. simpl.
        unfold add_in. by rewrite bool_decide_eq_false_2.
    + rewrite list_lookup_alter_ne by done. destruct (decide (l = i)) as [->|Hli].
      * rewrite list_lookup_alter_eq, Hni. simpl.
        unfold add_out. by rewrite bool_decide_eq_false_2.
      * rewrite list_lookup_alter_ne by done. by destruct (nodes g !! l).
Qed.

Lemma add_edge_path_Ok_inv g p q g' :
  add_edge_path g p q = Ok g' →
  ∃ i j : nat, find_path (nodes g) p = Some i ∧ find_path (nodes g) q = Some j.
Proof.
  unfold add_edge_path.
  destruct (find_path (nodes g) p) as [i|]; [|done].
  destruct (find_path (nodes g) q) as [j|]; [|done]. intros _. by exists i, j.
Qed.

Lemma well_formed_perform g c g' :
  well_formed g → perform g c = Ok g' → well_formed g'.
Proof.
  intros Hwf. destruct c as [p|from to|p q|]; simpl.
  - intros [= <-]. by apply well_formed_add_node.
  - by apply well_formed_add_edge.
  - intros Hadd.
    destruct (add_edge_path_Ok_inv _ _ _ _ Hadd) as (i & j & Hi & Hj).
    rewrite (add_edge_path_add_edge g p q i j) in Hadd;
      [by eapply well_formed_add_edge | apply Hwf | done | done].
  - intros [= <-]. apply well_formed_empty.
Qed.

Lemma well_formed_perform_all cs : ∀ g g',
  well_formed g → perform_all cs g = Ok g' → well_formed g'.
Proof.
  induction cs as [|c cs IH]; intros g g' Hwf; simpl.
  - by intros [= <-].
  - intros (g1 & H1 & Hrest)%bind_Ok.
    eapply IH; [|done]. by eapply well_formed_perform.
Qed.


(** X1: in a graph built from the empty graph by any calls of [add_node],
    the two [add_edge] and [clear], the node at position [i] has id [i] and
    [next_id] is the number of nodes (as [uint32_t] values; literally so
    below 2^32 nodes). *)
Theorem ids_are_insertion_positions (cs : list call) (g : t) :
  perform_all cs empty = Ok g →
  ids_are_positions g
  ∧ (Z.of_nat (length (nodes g)) ≤ UINT32_MAX →
     next_id g = Z.of_nat (length (nodes g))
     ∧ ∀ (i : nat) n, nodes g !! i = Some n → id n = Z.of_nat i).
Proof.
  intros Hcs.
  destruct (well_formed_perform_all cs empty g well_formed_empty Hcs)
    as ([Hnext Hids] & _).
  split; [by split|]. unfold UINT32_MAX. intros Hlen. split.
  - rewrite Hnext. unfold u32. apply Z.mod_small. lia.
  - intros i n Hi. rewrite (Hids i n Hi). unfold u32. apply Z.mod_small.
    apply lookup_lt_Some in Hi. lia.
Qed.

Lemma ids_are_insertion_positions_witness :
  perform_all test_calls empty = Ok test_graph
  ∧ next_id test_graph = 3
  ∧ id <$> nodes test_graph = [0; 1; 2]
  ∧ ids_are_positions test_graph.
Proof.
  split; [reflexivity|]. split; [reflexivity|]. split; [reflexivity|].
  apply (ids_are_insertion_positions test_calls test_graph). reflexivity.
Defined.

(** X2: in a graph built by such calls every in- and out-list names nodes
    of the graph without repetition, and [j] is an out-node of [i] exactly
    when [i] is an in-node of [j]. *)
Theorem edges_are_reciprocal (cs : list call) (g : t) :
  perform_all cs empty = Ok g → edges_closed g ∧ reciprocal g.
Proof.
  intros Hcs.
  destruct (well_formed_perform_all cs empty g well_formed_empty Hcs)
    as (_ & Hclosed & Hrec & _).
  by split.
Qed.

Lemma edges_are_reciprocal_witness :
  outNodes <$> nodes test_graph = [[1; 2]; [2]; []]%nat
  ∧ inNodes <$> nodes test_graph = [[]; [0]; [1; 0]]%nat
  ∧ edges_closed test_graph ∧ reciprocal test_graph.
Proof.
  split; [reflexivity|]. split; [reflexivity|].
  apply (edges_are_reciprocal test_calls test_graph). reflexivity.
Defined.

(** X3: [add_node] deduplicates on the path: a graph built by calls has no
    two nodes with the same path, and adding a path a second time changes
    nothing. *)
Theorem add_node_deduplicates (cs : list call) (g : t) :
  perform_all cs empty = Ok g →
  distinct_paths g
  ∧ ∀ p, add_node (add_node g p) p = add_node g p.
Proof.
  intros Hcs.
  destruct (well_formed_perform_all cs empty g well_formed_empty Hcs)
    as (_ & _ & _ & Hpaths).
  split; [done|]. intros p. unfold add_node at 2 3.
  destruct (existsb _ (nodes g)) eqn:Hex.
  - unfold add_node. by rewrite Hex.
  - unfold add_node. cbn [nodes next_id].
    rewrite (proj2 (existsb_node_eqb _ _)); [done|].
    rewrite fmap_app. apply elem_of_app. right. simpl. by left.
Qed.

Lemma add_node_deduplicates_witness :
  path <$> nodes test_graph = [[(0, 3)]; [(0, 4)]; [(4, 5)]]
  ∧ distinct_paths test_graph
  ∧ ∀ p, add_node (add_node test_graph p) p = add_node test_graph p.
Proof.
  split; [reflexivity|].
  apply (add_node_deduplicates test_calls test_graph). reflexivity.
Defined.

(** X4: [add_edge (from, to)] on paths fails its assertion exactly when one
    of the paths is the path of no node; otherwise, on a graph whose edges
    are reciprocal, it does what [add_edge] on ids does at the positions of
    the first nodes with these paths. *)
Theorem add_edge_by_path_agrees (g : t) (p q : Path) :
  reciprocal g →
  (add_edge_path g p q = Fatal AssertionFailed
   ↔ p ∉ path <$> nodes g ∨ q ∉ path <$> nodes g)
  ∧ ∀ i j : nat,
      find_path (nodes g) p = Some i → find_path (nodes g) q = Some j →
      add_edge_path g p q = add_edge g (Z.of_nat i) (Z.of_nat j)
      ∧ is_ok (add_edge_path g p q) = true.
Proof.
  intros Hrec. split.
  - rewrite <- !find_path_None. unfold add_edge_path.
    destruct (find_path (nodes g) p) as [i|] eqn:Hi; [|split; [by left|done]].
    destruct (find_path (nodes g) q) as [j|] eqn:Hj; [|split; [by right|done]].
    apply find_path_Some in Hi as (ni & Hni & _).
    rewrite (vec_get_nat _ _ _ Hni). simpl.
    split; [by case_bool_decide | by intros [|]].
  - intros i j Hi Hj. split; [by apply add_edge_path_add_edge|].
    unfold add_edge_path. rewrite Hi, Hj.
    apply find_path_Some in Hi as (ni & Hni & _).
    rewrite (vec_get_nat _ _ _ Hni). simpl. by case_bool_decide.
Qed.

Lemma add_edge_by_path_agrees_witness :
  add_edge_path test_graph [(0, 4)] [(0, 3)] = add_edge test_graph 1 0
  ∧ add_edge_path test_graph [(0, 4)] [(7, 8)] = Fatal AssertionFailed.
Proof.
  assert (Hrec : reciprocal test_graph).
  { apply (well_formed_perform_all test_calls empty test_graph
             well_formed_empty eq_refl). }
  split.
  - apply (proj2 (add_edge_by_path_agrees test_graph [(0, 4)] [(0, 3)] Hrec)
             1%nat 0%nat); reflexivity.
  - reflexivity.
Defined.

(** X5: between two nodes of the graph [add_edge] returns; it adds [to] to
    the out-nodes of [from] and [from] to the in-nodes of [to] unless they
    are there, changes no other list, no id, path or coverage and not the
    number of nodes; and a second call changes nothing. *)
Theorem add_edge_between_nodes (g : t) (from to : nat) :
  (from < length (nodes g))%nat → (to < length (nodes g))%nat →
  ∃ g',
    add_edge g (Z.of_nat from) (Z.of_nat to) = Ok g'
    ∧ next_id g' = next_id g
    ∧ length (nodes g') = length (nodes g)
    ∧ (∀ (i : nat) n, nodes g !! i = Some n →
         ∃ n', nodes g' !! i = Some n'
               ∧ id n' = id n ∧ path n' = path n ∧ covg n' = covg n
               ∧ (∀ j, j ∈ outNodes n'
                       ↔ j ∈ outNodes n ∨ (i = from ∧ j = to))
               ∧ (∀ j, j ∈ inNodes n'
                       ↔ j ∈ inNodes n ∨ (i = to ∧ j = from))
               ∧ (i ≠ from → outNodes n' = outNodes n)
               ∧ (i ≠ to → inNodes n' = inNodes n))
    ∧ add_edge g' (Z.of_nat from) (Z.of_nat to) = Ok g'.
Proof.
  intros Hf Ht. eexists. split; [by apply add_edge_in_range|].
  cbn [nodes next_id]. split; [done|]. split; [by rewrite !length_alter|].
  split.
  - intros i n Hi. exists (linked from to i n).
    rewrite lookup_linked, Hi. split; [done|].
    destruct (linked_fields from to i n) as (-> & -> & ->).
    do 3 (split; [done|]).
    split; [intros j; apply elem_of_linked_out|].
    split; [intros j; apply elem_of_linked_in|].
    unfold linked. split; intros Hne.
    + rewrite (decide_False (P := i = from)) by done.
      destruct (decide (i = to)); [|done].
      by destruct (add_in_fields from n) as (_ & _ & _ & ->).
    + rewrite (decide_False (P := i = to)) by done.
      destruct (decide (i = from)); [|done].
      by destruct (add_out_fields to n) as (_ & _ & _ & ->).
  - rewrite add_edge_in_range by (cbn [nodes]; by rewrite !length_alter).
    cbn [nodes next_id]. do 2 f_equal.
    set (ns := alter (add_in from) to (alter (add_out to) from (nodes g))).
    assert (Hns : ∀ i, ns !! i = linked from to i <$> nodes g !! i)
      by (intros i; apply lookup_linked).
    rewrite (alter_same (add_out to)).
    + apply alter_same. intros x Hx. rewrite Hns in Hx.
      destruct (nodes g !! to) as [n|]; [|done]. injection Hx as <-.
      unfold add_in at 1.
      rewrite (bool_decide_eq_true_2 (from ∈ inNodes (linked from to to n)));
        [done|].
      apply elem_of_linked_in. by right.
    + intros x Hx. rewrite Hns in Hx.
      destruct (nodes g !! from) as [n|]; [|done]. injection Hx as <-.
      unfold add_out at 1.
      rewrite (bool_decide_eq_true_2 (to ∈ outNodes (linked from to from n)));
        [done|].
      apply elem_of_linked_out. by right.
Qed.

Lemma add_edge_between_nodes_witness :
  ∃ g', add_edge two_node_graph 0 1 = Ok g'
        ∧ outNodes <$> nodes g' = [[1]; []]%nat
        ∧ inNodes <$> nodes g' = [[]; [0]]%nat
        ∧ add_edge g' 0 1 = Ok g'.
Proof.
  destruct (add_edge_between_nodes two_node_graph 0 1
              ltac:(simpl; lia) ltac:(simpl; lia))
    as (g' & Hadd & _ & _ & _ & Hagain).
  exists g'. split; [exact Hadd|].
  change (Z.of_nat 0) with 0 in Hadd, Hagain.
  change (Z.of_nat 1) with 1 in Hadd, Hagain.
  assert (Hg' : g' = mkKmerGraph
                       [ mkKmerNode 0 [(0, 3)] [] [1%nat] 0;
                         mkKmerNode 1 [(0, 4)] [0%nat] [] 0 ] 2).
  { vm_compute in Hadd. by injection Hadd as <-. }
  split; [by rewrite Hg'|]. split; [by rewrite Hg'|]. exact Hagain.
Defined.

End KmerGraphCalls.

Module KmerGraphOrder.
Import KmerGraph KmerGraphFacts.

Lemma count_none f ns : (∀ n, n ∈ ns → f n = false) → count f ns = 0.
Proof.
  induction ns as [|n ns IH]; intros Hall; [done|].
  rewrite count_cons, IH.
  - rewrite (Hall n) by left. done.
  - intros m Hm. apply Hall. by right.
Qed.

Lemma filter_constant (f : nat → Z) (c l : Z) (xs : list nat) :
  (∀ i, f i = c) →
  filter (λ i, f i = l) xs = if decide (c = l) then xs else [].
Proof.
  intros Hf. induction xs as [|x xs IH]; [by destruct (decide (c = l))|].
  rewrite filter_cons, IH, Hf. by destruct (decide (c = l)).
Qed.

(** X6: on a graph without bubbles, where no node has more than one in-node
    or more than one out-node, [get_node_order] returns the nodes in the
    order of their insertion. *)
Theorem get_node_order_without_bubbles (g : t) :
  Z.of_nat (length (nodes g)) ≤ INT_MAX →
  (∀ n, n ∈ nodes g →
        (length (inNodes n) ≤ 1)%nat ∧ (length (outNodes n) ≤ 1)%nat) →
  get_node_order g = Ok (seq 0 (length (nodes g))).
Proof.
  intros Hsize Hflat.
  assert (Hlevel : ∀ i, bubble_level g i = 0).
  { intros i. unfold bubble_level. rewrite !count_none; [done|..].
    - intros n Hn%(subseteq_take (S i)). unfold is_bubble_end.
      destruct (Hflat n Hn) as [Hin _]. apply Z.ltb_ge. lia.
    - intros n Hn%(subseteq_take i). unfold is_bubble_start.
      destruct (Hflat n Hn) as [_ Hout]. apply Z.ltb_ge. lia. }
  rewrite get_node_order_in_range; [|done|].
  - f_equal. unfold order_by_level, level_members. simpl map.
    rewrite !(filter_constant (bubble_level g) 0) by done. simpl.
    by rewrite app_nil_r.
  - apply levels_in_range_true. intros j _. rewrite Hlevel. lia.
Qed.

Lemma get_node_order_without_bubbles_witness :
  get_node_order chain_graph = Ok [0; 1; 2]%nat.
Proof.
  apply (get_node_order_without_bubbles chain_graph).
  - vm_compute. discriminate.
  - intros n Hn. repeat (apply elem_of_cons in Hn as [->|Hn]); simpl; try lia.
    by apply elem_of_nil in Hn.
Defined.

End KmerGraphOrder.

Module KmerGraphFile.
Import KmerGraph KmerGraphFacts KmerGraphCalls.

(** *** [save] *)

Lemma save_links_Ok (all : list KmerNode) (from : nat) (outs : list nat) :
  (∀ p, p ∈ outs → ∃ n, all !! p = Some n ∧ id n = Z.of_nat p) →
  save_links all (Z.of_nat from) outs = Ok (links_of from outs).
Proof.
  induction outs as [|p outs IH]; intros Hall; simpl; [done|].
  destruct (Hall p ltac:(left)) as (n & Hn & Hid).
  rewrite (vec_get_nat _ _ _ Hn). simpl.
  rewrite IH by (intros q Hq; apply Hall; by right). simpl.
  by rewrite Hid.
Qed.

Lemma save_nodes_Ok (all : list KmerNode) ns : ∀ pre,
  all = pre ++ ns →
  (∀ (i : nat) n, all !! i = Some n →
     id n = Z.of_nat i ∧ ∀ j, j ∈ outNodes n → (j < length all)%nat) →
  save_nodes all ns = Ok (file_from (length pre) ns).
Proof.
  induction ns as [|n ns IH]; intros pre Hall Hwf; simpl; [done|].
  assert (Hn : all !! length pre = Some n)
    by (rewrite Hall; by apply list_lookup_middle).
  destruct (Hwf _ _ Hn) as [Hid Hout].
  rewrite Hid, save_links_Ok; cycle 1.
  { intros p Hp. destruct (lookup_lt_is_Some_2 all p (Hout p Hp)) as [m Hm].
    exists m. split; [done|]. by apply Hwf. }
  simpl. rewrite (IH (pre ++ [n])); [|by rewrite <- app_assoc|done].
  simpl. rewrite length_app. simpl. by rewrite Nat.add_1_r.
Qed.

(** *** The first loop of [load] *)

Lemma load_nodes_app l1 l2 g :
  load_nodes (l1 ++ l2) g = load_nodes l1 g ≫= load_nodes l2.
Proof.
  revert g. induction l1 as [|[s|l|] l1 IH]; intros g; simpl; [done|..].
  - destruct (load_s g s); simpl; [apply IH|done..].
  - apply IH.
  - apply IH.
Qed.

Lemma load_nodes_links from outs g : load_nodes (links_of from outs) g = Ok g.
Proof. induction outs as [|p outs IH]; simpl; [done | apply IH]. Qed.

Lemma load_edges_app l1 l2 g :
  load_edges (l1 ++ l2) g = load_edges l1 g ≫= load_edges l2.
Proof.
  revert g. induction l1 as [|[s|l|] l1 IH]; intros g; simpl; [done|..].
  - apply IH.
  - destruct (load_l g l); simpl; [apply IH|done..].
  - apply IH.
Qed.

Lemma u32_idem x : u32 (u32 x) = u32 x.
Proof. unfold u32. by rewrite Zmod_mod. Qed.

Lemma u32_small' x : 0 ≤ x ≤ UINT32_MAX → u32 x = x.
Proof. unfold u32, UINT32_MAX. intros Hx. apply Z.mod_small. lia. Qed.

Lemma load_nodes_file ns : ∀ pre,
  NoDup (path <$> (pre ++ ns)) →
  Z.of_nat (length (pre ++ ns)) ≤ UINT32_MAX →
  (∀ n, n ∈ ns → 0 ≤ covg n ≤ UINT32_MAX) →
  load_nodes (file_from (length pre) ns)
    (mkKmerGraph pre (Z.of_nat (length pre)))
  = Ok (mkKmerGraph
          (pre ++ imap (λ k n, mkKmerNode (Z.of_nat (length pre + k)) (path n)
                                 [] [] (covg n)) ns)
          (Z.of_nat (length (pre ++ ns)))).
Proof.
  induction ns as [|n ns IH]; intros pre Hnd Hlen Hcovg; simpl.
  - by rewrite !app_nil_r.
  - unfold load_s at 1. simpl. unfold add_node. cbn [nodes next_id].
    assert (Hfresh : existsb
              (node_eqb (mkKmerNode (Z.of_nat (length pre)) (path n) [] [] 0))
              pre = false).
    { apply not_true_iff_false. intros Hex%existsb_node_eqb. simpl in Hex.
      rewrite fmap_app in Hnd. apply NoDup_app in Hnd as (_ & Hdisj & _).
      apply (Hdisj _ Hex). simpl. by left. }
    rewrite Hfresh. cbn [nodes next_id].
    rewrite length_app in *. simpl length in *.
    replace (Z.of_nat (length pre + 1) - 1) with (Z.of_nat (length pre)) by lia.
    rewrite (vec_get_nat _ (length pre)
               (mkKmerNode (Z.of_nat (length pre)) (path n) [] [] 0))
      by (by apply list_lookup_middle).
    simpl. rewrite (u32_small' (Z.of_nat (length pre))) by lia.
    rewrite Z.eqb_refl. simpl.
    rewrite vec_set_Ok by (rewrite length_app; simpl; lia). simpl.
    rewrite Nat2Z.id.
    replace (<[length pre:=_]> (pre ++ [_]))
      with (pre ++ [mkKmerNode (Z.of_nat (length pre)) (path n) [] [] (covg n)]).
    2:{ rewrite insert_app_r_alt by lia. rewrite Nat.sub_diag. simpl.
        unfold with_covg. simpl.
        rewrite u32_small'; [done|]. apply Hcovg. by left. }
    rewrite load_nodes_app, load_nodes_links. simpl.
    rewrite (u32_small' (Z.of_nat (length pre) + 1)) by lia.
    specialize (IH (pre ++ [mkKmerNode (Z.of_nat (length pre)) (path n) [] []
                              (covg n)])).
    rewrite !length_app in IH. simpl length in IH.
    replace (length pre + 1)%nat with (S (length pre)) in IH by lia.
    replace (Z.of_nat (length pre) + 1) with (Z.of_nat (S (length pre))) by lia.
    rewrite IH.
    + f_equal. f_equal.
      * rewrite <- app_assoc. simpl. f_equal. f_equal.
        { by rewrite Nat.add_0_r. }
        apply imap_ext. intros k m _. simpl. f_equal. lia.
      * rewrite length_app. simpl. f_equal. lia.
    + rewrite <- app_assoc. simpl. rewrite !fmap_app in *. simpl in *. done.
    + lia.
    + intros m Hm. apply Hcovg. by right.
Qed.


(** *** The second loop of [load] *)

Lemma relink_app e1 e2 k n : relink (e1 ++ e2) k n = relink e2 k (relink e1 k n).
Proof. unfold relink. by rewrite foldl_app. Qed.

Lemma imap_relink_app e1 e2 (ns : list KmerNode) :
  imap (relink e2) (imap (relink e1) ns) = imap (relink (e1 ++ e2)) ns.
Proof.
  apply list_eq. intros k. rewrite !list_lookup_imap.
  destruct (ns !! k); simpl; [|done]. by rewrite relink_app.
Qed.

Lemma imap_relink_nil (ns : list KmerNode) : imap (relink []) ns = ns.
Proof.
  apply list_eq. intros k. rewrite list_lookup_imap. by destruct (ns !! k).
Qed.

Lemma load_edges_links (i : nat) outs : ∀ h,
  (i < length (nodes h))%nat →
  (∀ p, p ∈ outs → (p < length (nodes h))%nat) →
  Z.of_nat (length (nodes h)) ≤ UINT32_MAX →
  load_edges (links_of i outs) h
  = Ok (mkKmerGraph (imap (relink ((λ p, (i, p)) <$> outs)) (nodes h))
          (next_id h)).
Proof.
  induction outs as [|p outs IH]; intros h Hi Hout Hlen; simpl.
  - rewrite imap_relink_nil. by destruct h.
  - assert (Hp : (p < length (nodes h))%nat) by (apply Hout; left).
    unfold load_l. simpl.
    rewrite !u32_small' by lia.
    rewrite add_edge_in_range by done. simpl.
    rewrite IH; cbn [nodes next_id]; rewrite ?length_alter; try done.
    + do 2 f_equal.
      replace (alter (add_in i) p (alter (add_out p) i (nodes h)))
        with (imap (relink [(i, p)]) (nodes h)).
      * by rewrite imap_relink_app.
      * apply list_eq. intros k. rewrite lookup_linked, list_lookup_imap.
        by destruct (nodes h !! k).
    + intros q Hq. apply Hout. by right.
Qed.

Lemma load_edges_file ns : ∀ (i : nat) h,
  (i + length ns ≤ length (nodes h))%nat →
  (∀ n p, n ∈ ns → p ∈ outNodes n → (p < length (nodes h))%nat) →
  Z.of_nat (length (nodes h)) ≤ UINT32_MAX →
  load_edges (file_from i ns) h
  = Ok (mkKmerGraph (imap (relink (edges_from i ns)) (nodes h)) (next_id h)).
Proof.
  induction ns as [|n ns IH]; intros i h Hi Hout Hlen; simpl.
  - rewrite imap_relink_nil. by destruct h.
  - simpl in Hi. rewrite load_edges_app, load_edges_links; try done; try lia.
    + simpl. rewrite IH; cbn [nodes next_id]; rewrite ?length_imap;
        try done; try lia.
      * by rewrite imap_relink_app.
      * intros m p Hm Hp. apply (Hout m p); [by right | done].
    + intros p Hp. apply (Hout n p); [by left | done].
Qed.

(** *** What the added edges make of a node *)

Lemma relink_cons e es k n : relink (e :: es) k n = relink es k (linked e.1 e.2 k n).
Proof. done. Qed.

Lemma relink_fields es k : ∀ n,
  id (relink es k n) = id n ∧ path (relink es k n) = path n
  ∧ covg (relink es k n) = covg n.
Proof.
  induction es as [|e es IH]; intros n; [done|].
  rewrite relink_cons. destruct (IH (linked e.1 e.2 k n)) as (-> & -> & ->).
  apply linked_fields.
Qed.

Lemma linked_out_other from to k n :
  k ≠ from → outNodes (linked from to k n) = outNodes n.
Proof.
  intros Hne. unfold linked. rewrite (decide_False (P := k = from)) by done.
  destruct (decide (k = to)); [|done].
  by destruct (add_in_fields from n) as (_ & _ & _ & ->).
Qed.

Lemma linked_out_own to k n :
  to ∉ outNodes n → outNodes (linked k to k n) = outNodes n ++ [to].
Proof.
  intros Hnin. unfold linked. rewrite (decide_True (P := k = k)) by done.
  assert (Hout : outNodes (add_out to n) = outNodes n ++ [to]).
  { unfold add_out. by rewrite bool_decide_eq_false_2. }
  destruct (decide (k = to)); [|done].
  by destruct (add_in_fields k (add_out to n)) as (_ & _ & _ & ->).
Qed.

Lemma relink_out_other es k : ∀ n,
  (∀ e, e ∈ es → e.1 ≠ k) → outNodes (relink es k n) = outNodes n.
Proof.
  induction es as [|e es IH]; intros n Hes; [done|].
  rewrite relink_cons, IH by (intros e' He'; apply Hes; by right).
  apply linked_out_other. intros ->. by apply (Hes e); [left|].
Qed.

Lemma relink_out_own outs k : ∀ n,
  NoDup (outNodes n ++ outs) →
  outNodes (relink ((λ p, (k, p)) <$> outs) k n) = outNodes n ++ outs.
Proof.
  induction outs as [|p outs IH]; intros n Hnd.
  - simpl. by rewrite app_nil_r.
  - rewrite fmap_cons, relink_cons. cbn [fst snd].
    assert (Hp : p ∉ outNodes n).
    { apply NoDup_app in Hnd as (_ & Hdisj & _). intros Hin.
      apply (Hdisj _ Hin). by left. }
    rewrite IH; rewrite linked_out_own by done.
    + by rewrite <- app_assoc.
    + by rewrite <- app_assoc.
Qed.

Lemma relink_in es k : ∀ n i,
  i ∈ inNodes (relink es k n) ↔ i ∈ inNodes n ∨ (i, k) ∈ es.
Proof.
  induction es as [|[a b] es IH]; intros n i.
  - simpl. rewrite elem_of_nil. tauto.
  - rewrite relink_cons, IH, elem_of_linked_in, elem_of_cons. simpl.
    split; [intros [[?|[-> ->]]|?] | intros [?|[[= -> ->]|?]]]; tauto.
Qed.

Lemma relink_NoDup es k : ∀ n,
  NoDup (outNodes n) → NoDup (inNodes n) →
  NoDup (outNodes (relink es k n)) ∧ NoDup (inNodes (relink es k n)).
Proof.
  induction es as [|e es IH]; intros n Ho Hi; [done|].
  rewrite relink_cons. apply IH; by apply NoDup_linked.
Qed.

Lemma edges_from_app l1 l2 i :
  edges_from i (l1 ++ l2) = edges_from i l1 ++ edges_from (i + length l1) l2.
Proof.
  revert i. induction l1 as [|n l1 IH]; intros i; simpl.
  - by rewrite Nat.add_0_r.
  - rewrite IH, <- app_assoc. do 3 f_equal. lia.
Qed.

Lemma elem_of_edges_from ns : ∀ i a b,
  (a, b) ∈ edges_from i ns
  ↔ ∃ n, (i ≤ a)%nat ∧ ns !! (a - i)%nat = Some n ∧ b ∈ outNodes n.
Proof.
  induction ns as [|n ns IH]; intros i a b; simpl.
  - rewrite elem_of_nil. split; [done|]. by intros (? & _ & ? & _).
  - rewrite elem_of_app, list_elem_of_fmap, IH. split.
    + intros [(p & [= -> ->] & Hp)|(m & Hle & Hm & Hb)].
      * exists n. rewrite Nat.sub_diag. by repeat split.
      * exists m. split; [lia|]. split; [|done].
        replace (a - i)%nat with (S (a - S i)) by lia. done.
    + intros (m & Hle & Hm & Hb).
      destruct (decide (a = i)) as [->|Hne].
      * left. rewrite Nat.sub_diag in Hm. injection Hm as <-. by exists b.
      * right. exists m. split; [lia|]. split; [|done].
        replace (a - i)%nat with (S (a - S i)) in Hm by lia. done.
Qed.

(** The out-nodes of a node are restored in their order. *)
Lemma relink_restores_out pre n suf :
  NoDup (outNodes n) →
  outNodes (relink (edges_from 0 (pre ++ n :: suf)) (length pre) (strip n))
  = outNodes n.
Proof.
  intros Hnd. rewrite edges_from_app. simpl edges_from.
  rewrite !relink_app, relink_out_other, relink_out_own.
  - rewrite relink_out_other; [done|].
    intros [a b] (m & _ & Hm & _)%elem_of_edges_from. simpl.
    apply lookup_lt_Some in Hm. lia.
  - rewrite relink_out_other; [done|].
    intros [a b] (m & _ & Hm & _)%elem_of_edges_from. simpl.
    apply lookup_lt_Some in Hm. lia.
  - intros [a b] (m & Hle & _)%elem_of_edges_from. simpl. lia.
Qed.


(** X7: a well-formed graph survives [save] followed by [load] into an
    empty graph.  With at most [INT_MAX] nodes and coverages (the numbers
    that [stoi] reads back), [save] writes a file that [load] reads to its
    end, and the graph read has the same [next_id] and, position by
    position, nodes with the same id, path, coverage and out-nodes in the
    same order, and the same in-nodes up to their order; the two graphs are
    equal for [operator==]. *)
Theorem save_load_round_trip (g : t) :
  well_formed g →
  Z.of_nat (length (nodes g)) ≤ INT_MAX →
  (∀ n, n ∈ nodes g → 0 ≤ covg n ≤ INT_MAX) →
  ∃ lines g',
    save g = Ok lines
    ∧ load empty lines = Ok g'
    ∧ next_id g' = next_id g
    ∧ Forall2 same_node (nodes g) (nodes g')
    ∧ equal g g' = true.
Proof.
  intros ((Hnext & Hids) & Hclosed & Hrec & Hpaths) Hlen Hcovg.
  unfold INT_MAX in *.
  assert (Hid : ∀ (i : nat) n, nodes g !! i = Some n → id n = Z.of_nat i).
  { intros i n Hi. rewrite (Hids i n Hi). apply u32_small'.
    apply lookup_lt_Some in Hi. unfold UINT32_MAX. lia. }
  set (E := edges_from 0 (nodes g)).
  set (ns' := imap (relink E) (strip <$> nodes g)).
  exists (OtherLine :: file_from 0 (nodes g)),
         (mkKmerGraph ns' (Z.of_nat (length (nodes g)))).
  assert (Hsave : save g = Ok (OtherLine :: file_from 0 (nodes g))).
  { unfold save. rewrite (save_nodes_Ok (nodes g) (nodes g) []); [done|done|].
    intros i n Hi. split; [by apply Hid|]. by destruct (Hclosed i n Hi). }
  assert (Hfirst : load_nodes (file_from 0 (nodes g)) empty
                   = Ok (mkKmerGraph (strip <$> nodes g)
                           (Z.of_nat (length (nodes g))))).
  { pose proof (load_nodes_file (nodes g) [] Hpaths) as Hl.
    simpl in Hl. change (Z.of_nat 0) with 0 in Hl. unfold empty. rewrite Hl.
    - do 2 f_equal. apply list_eq. intros k.
      rewrite list_lookup_imap, list_lookup_fmap.
      destruct (nodes g !! k) as [n|] eqn:Hn; [|done]. simpl.
      unfold strip. by rewrite (Hid k n Hn).
    - unfold UINT32_MAX. lia.
    - intros n Hn. specialize (Hcovg n Hn). unfold UINT32_MAX. lia. }
  assert (Hsecond : load_edges (file_from 0 (nodes g))
                      (mkKmerGraph (strip <$> nodes g)
                         (Z.of_nat (length (nodes g))))
                    = Ok (mkKmerGraph ns' (Z.of_nat (length (nodes g))))).
  { rewrite load_edges_file; cbn [nodes next_id]; rewrite ?length_fmap;
      [done | lia | | unfold UINT32_MAX; lia].
    intros n p Hn Hp. apply list_elem_of_lookup in Hn as [i Hi].
    destruct (Hclosed i n Hi) as (Ho & _). by apply Ho. }
  assert (Hsame : Forall2 same_node (nodes g) ns').
  { apply Forall2_same_length_lookup_2.
    { unfold ns'. by rewrite length_imap, length_fmap. }
    intros k n n' Hn Hn'. unfold ns' in Hn'.
    rewrite list_lookup_imap, list_lookup_fmap, Hn in Hn'. simpl in Hn'.
    injection Hn' as <-.
    destruct (Hclosed k n Hn) as (Hout & Hin & Hndo & Hndi).
    destruct (relink_fields E k (strip n)) as (Hi1 & Hi2 & Hi3).
    unfold same_node. rewrite Hi1, Hi2, Hi3. do 3 (split; [done|]). split.
    - unfold E. rewrite <- (take_drop_middle (nodes g) k n Hn) at 1.
      assert (Hk : length (take k (nodes g)) = k).
      { rewrite length_take. apply lookup_lt_Some in Hn. lia. }
      pose proof (relink_restores_out (take k (nodes g)) n
                    (drop (S k) (nodes g)) Hndo) as Hr.
      rewrite Hk in Hr. by rewrite Hr.
    - apply NoDup_Permutation; [done | |].
      + apply relink_NoDup; simpl; constructor.
      + intros i. rewrite relink_in. unfold E. rewrite elem_of_edges_from.
        simpl. rewrite elem_of_nil, Nat.sub_0_r. split.
        * intros Hi. right.
          destruct (lookup_lt_is_Some_2 (nodes g) i (Hin i Hi)) as [m Hm].
          exists m. split; [lia|]. split; [done|].
          by apply (Hrec i k m n Hm Hn).
        * intros [[]|(m & _ & Hm & Hk)]. by apply (Hrec i k m n Hm Hn). }
  split; [done|]. split.
  { unfold load. simpl. rewrite Hfirst. simpl. exact Hsecond. }
  cbn [nodes next_id]. split.
  { rewrite Hnext. symmetry. apply u32_small'. unfold UINT32_MAX. lia. }
  split; [done|].
  unfold equal. cbn [nodes].
  rewrite (Forall2_length _ _ _ Hsame), Z.eqb_refl. simpl.
  apply forallb_forall. intros n Hn%list_elem_of_In.
  apply existsb_node_eqb.
  apply list_elem_of_lookup in Hn as [k Hk].
  destruct (Forall2_lookup_l _ _ _ _ _ Hsame Hk) as (n' & Hn' & _ & Hpath & _).
  rewrite Hpath. apply list_elem_of_fmap. exists n'. split; [done|].
  by eapply list_elem_of_lookup_2.
Qed.

Lemma save_load_round_trip_witness :
  ∃ lines g',
    save test_graph = Ok lines
    ∧ load empty lines = Ok g'
    ∧ next_id g' = next_id test_graph
    ∧ Forall2 same_node (nodes test_graph) (nodes g')
    ∧ equal test_graph g' = true.
Proof.
  apply (save_load_round_trip test_graph).
  - apply (well_formed_perform_all test_calls empty test_graph
             well_formed_empty eq_refl).
  - vm_compute. discriminate.
  - intros n Hn. unfold INT_MAX.
    repeat (apply elem_of_cons in Hn as [->|Hn]); simpl; try lia.
    by apply elem_of_nil in Hn.
Defined.

End KmerGraphFile.

Module CoverageStore.
Import KGC CoverageFacts.

Section Coverage.
Context {F : Type}.
Implicit Types (g : t F) (strand : Strand).

(** X8: [set_covg] followed by [get_covg] returns the value that was set
    and leaves every other counter as it was; on a sample slot that the
    node does not have, [set_covg] is fatal where [get_covg] answers 0. *)
Theorem set_covg_then_get_covg g node_id value strand sample_id row :
  vec_get (node_index_to_sample_coverage g) node_id = Ok row →
  0 ≤ sample_id →
  (Z.of_nat (length row) ≤ sample_id →
   set_covg g node_id value strand sample_id = Fatal SampleInvalid
   ∧ get_covg g node_id strand sample_id = Ok 0)
  ∧ (sample_id < Z.of_nat (length row) →
     ∃ g',
       set_covg g node_id value strand sample_id = Ok g'
       ∧ get_covg g' node_id strand sample_id = Ok value
       ∧ (∀ n s i, (n, s, i) ≠ (node_id, strand, sample_id) →
                   get_covg g' n s i = get_covg g n s i)
       ∧ kmer_prg g' = kmer_prg g).
Proof.
  intros Hrow Hs. split.
  - intros Hge. unfold set_covg, get_covg. rewrite Hrow. simpl.
    destruct (Z.ltb_spec sample_id (Z.of_nat (length row))); [lia|].
    destruct (Z.leb_spec (Z.of_nat (length row)) sample_id); [done | lia].
  - intros Hlt.
    pose proof Hrow as [Hn Hrow']%vec_get_Ok.
    pose proof (lookup_lt_Some _ _ _ Hrow') as Hlt'.
    destruct (lookup_lt_is_Some_2 row (Z.to_nat sample_id) ltac:(lia))
      as [c Hc'].
    assert (Hc : vec_get row sample_id = Ok c) by (by apply vec_get_Ok).
    eexists. split.
    { unfold set_covg. rewrite Hrow. simpl.
      destruct (Z.ltb_spec sample_id (Z.of_nat (length row))); [|lia]. simpl.
      rewrite Hc. simpl.
      rewrite vec_set_Ok by lia. simpl. rewrite vec_set_Ok by lia. done. }
    split; [|split; [|done]].
    + rewrite (get_covg_with_coverage _ _ _ _ _ _ _ _ _ _ Hrow Hc).
      by rewrite bool_decide_eq_true_2.
    + intros n s i Hne.
      rewrite (get_covg_with_coverage _ _ _ _ _ _ _ _ _ _ Hrow Hc).
      by rewrite bool_decide_eq_false_2.
Qed.

End Coverage.

Lemma set_covg_then_get_covg_witness :
  (set_covg saturated 0 9 Reverse 2 = Fatal SampleInvalid
   ∧ get_covg saturated 0 Reverse 2 = Ok 0)
  ∧ ∃ g', set_covg saturated 0 9 Reverse 1 = Ok g'
          ∧ get_covg g' 0 Reverse 1 = Ok 9
          ∧ get_covg g' 0 Forward 1 = Ok 3.
Proof.
  split.
  - apply (set_covg_then_get_covg saturated 0 9 Reverse 2
             [(65535, 7); (3, 4)]); [reflexivity | lia | simpl; lia].
  - destruct (proj2 (set_covg_then_get_covg saturated 0 9 Reverse 1
                       [(65535, 7); (3, 4)] eq_refl ltac:(lia))
                    ltac:(simpl; lia))
      as (g' & Hg' & Hsame & Hother & _).
    exists g'. split; [exact Hg'|]. split; [exact Hsame|].
    rewrite Hother by discriminate. reflexivity.
Defined.

End CoverageStore.

Module ExtractPathFacts.
Import KGC.

Section ExtractPath.
Context {F : Type}.
Implicit Types (g : t F).

Lemma extract_path_loop_fuel g prev t (fuel : nat) :
  ∀ (fuel' : nat) p maxpath,
    Z.max 0 (1000000 - Z.of_nat (length maxpath)) < Z.of_nat fuel →
    Z.max 0 (1000000 - Z.of_nat (length maxpath)) < Z.of_nat fuel' →
    extract_path_loop fuel g prev t p maxpath
    = extract_path_loop fuel' g prev t p maxpath.
Proof.
  induction fuel as [|fuel IH]; intros fuel' p maxpath Hf Hf'; [lia|].
  destruct fuel' as [|fuel']; [lia|]. simpl.
  destruct (p <? t); [|done].
  destruct (vec_get (nodes (kmer_prg g)) p) as [n| |]; [|done..]. simpl.
  destruct (vec_get prev p) as [pn| |]; [|done..]. simpl.
  rewrite length_app. simpl.
  destruct (Z.ltb_spec 1000000 (Z.of_nat (length maxpath + 1))); [done|].
  apply IH; rewrite length_app; simpl; lia.
Qed.

Lemma extract_path_loop_Ok g prev t (fuel : nat) :
  ∀ p maxpath maxpath',
    extract_path_loop fuel g prev t p maxpath = Ok maxpath' →
    ∃ rest,
      maxpath' = maxpath ++ rest
      ∧ (rest ≠ [] → Z.of_nat (length maxpath') ≤ 1000000)
      ∧ (∀ (i : nat) n, rest !! i = Some n →
           ∃ q, walk_back i prev p = Ok q ∧ q < t
                ∧ vec_get (nodes (kmer_prg g)) q = Ok n)
      ∧ ∃ q, walk_back (length rest) prev p = Ok q ∧ t ≤ q.
Proof.
  induction fuel as [|fuel IH]; intros p maxpath maxpath'; simpl.
  - destruct (Z.ltb_spec p t); [done|]. intros [= <-].
    exists []. rewrite app_nil_r. split; [done|]. split; [done|].
    split; [by intros [] ?|]. by exists p.
  - destruct (Z.ltb_spec p t) as [Hlt|Hge].
    + intros (n & Hn & (pn & Hpn & Hrest)%bind_Ok)%bind_Ok.
      rewrite length_app in Hrest. simpl in Hrest.
      destruct (Z.ltb_spec 1000000 (Z.of_nat (length maxpath + 1))); [done|].
      apply IH in Hrest as (rest & -> & Hlen & Hnodes & q & Hq & Hstop).
      exists (n :: rest). rewrite <- app_assoc. split; [done|]. split.
      { intros _. destruct rest as [|m rest].
        - rewrite app_nil_r, length_app. simpl. lia.
        - rewrite app_assoc. by apply Hlen. }
      split.
      * intros [|i] m Hm; simpl in Hm.
        { injection Hm as <-. exists p. by repeat split. }
        destruct (Hnodes i m Hm) as (q' & Hq' & Hlt' & Hm').
        exists q'. simpl. rewrite Hpn. by repeat split.
      * exists q. simpl. rewrite Hpn. by split.
    + intros [= <-]. exists []. rewrite app_nil_r.
      split; [done|]. split; [done|]. split; [by intros [] ?|]. by exists p.
Qed.

Lemma vec_get_not_Fatal {A} (v : list A) i e : vec_get v i ≠ Fatal e.
Proof. unfold vec_get. by repeat case_match. Qed.

Lemma extract_path_loop_errors g prev t (fuel : nat) :
  ∀ p maxpath e,
    extract_path_loop fuel g prev t p maxpath = Fatal e → e = InfiniteLoop.
Proof.
  induction fuel as [|fuel IH]; intros p maxpath e; simpl.
  - by destruct (p <? t).
  - destruct (p <? t); [|done].
    destruct (vec_get (nodes (kmer_prg g)) p) as [n| |] eqn:Hn; simpl;
      [|by apply vec_get_not_Fatal in Hn|done].
    destruct (vec_get prev p) as [pn| |] eqn:Hpn; simpl;
      [|by apply vec_get_not_Fatal in Hpn|done].
    destruct (1000000 <? _); [by intros [= <-] | apply IH].
Qed.

(** X9: [extract_path] returns the out-node it was given followed by the
    nodes that the successor vector leads through, as long as their index
    is below the terminus; the path never has more than 1000000 nodes, the
    error "found no path" cannot occur, and the guard of the loop bounds
    its passes (more fuel changes nothing). *)
Theorem extract_path_follows_successors g (considered_outnode : KmerNode)
    (prev : list Z) (terminus_node_id : Z) :
  (∀ fuel : nat, 1000000 ≤ Z.of_nat fuel →
     extract_path_with fuel g considered_outnode prev terminus_node_id
     = extract_path g considered_outnode prev terminus_node_id)
  ∧ extract_path g considered_outnode prev terminus_node_id
    ≠ Fatal NoPathFound
  ∧ ∀ maxpath,
      extract_path g considered_outnode prev terminus_node_id = Ok maxpath →
      ∃ rest,
        maxpath = considered_outnode :: rest
        ∧ Z.of_nat (length maxpath) ≤ 1000000
        ∧ (∀ (i : nat) n, rest !! i = Some n →
             ∃ q, walk_back (S i) prev (id considered_outnode) = Ok q
                  ∧ q < terminus_node_id
                  ∧ vec_get (nodes (kmer_prg g)) q = Ok n)
        ∧ ∃ q, walk_back (S (length rest)) prev (id considered_outnode) = Ok q
               ∧ terminus_node_id ≤ q.
Proof.
  split; [|split].
  - intros fuel Hfuel. unfold extract_path, extract_path_with.
    destruct (vec_get prev (id considered_outnode)) as [p| |]; [|done..].
    cbn [mbind outcome_bind].
    rewrite (extract_path_loop_fuel g prev _ fuel (Z.to_nat 1000000));
      [done | cbn [length]; lia | cbn [length]; lia].
  - unfold extract_path, extract_path_with.
    destruct (vec_get prev (id considered_outnode)) as [p| |] eqn:Hp;
      [|by apply vec_get_not_Fatal in Hp|done].
    cbn [mbind outcome_bind].
    destruct (extract_path_loop _ _ _ _ _ _) as [mp| |] eqn:Hloop;
      cbn [mbind outcome_bind].
    + apply extract_path_loop_Ok in Hloop as (rest & -> & _).
      cbn [app length]. done.
    + apply extract_path_loop_errors in Hloop as ->. done.
    + done.
  - intros maxpath. unfold extract_path, extract_path_with.
    intros (p & Hp & (mp & Hloop & Hend)%bind_Ok)%bind_Ok.
    apply extract_path_loop_Ok in Hloop as (rest & -> & Hlen & Hnodes & Hstop).
    cbn [app length] in Hend. injection Hend as <-. exists rest.
    split; [done|]. split.
    { destruct rest as [|m rest]; [cbn [app length]; lia | by apply Hlen]. }
    split.
    + intros i n Hn. cbn [walk_back]. rewrite Hp. by apply Hnodes.
    + cbn [walk_back]. rewrite Hp. exact Hstop.
Qed.

End ExtractPath.

End ExtractPathFacts.

Module MaxPathAssertion.
Import KGC MaxPathFacts.

Section MaxPath.
Context {F : Type} `{FloatOps F}.
Variable g : t F.
Variable prob_model : string.
Variable M : Z.
Variable sample_id : Z.

Lemma all_zero_from_no_assert ns : no_assert (all_zero_from g ns sample_id).
Proof.
  induction ns as [|n ns IH]; simpl; [done|].
  apply no_assert_bind.
  - unfold sum_covg, get_forward_covg, get_reverse_covg, get_covg.
    no_assert_tac.
  - intros covg _. by destruct (0 <? covg).
Qed.

Lemma extract_no_assert (st : dp_state F) (fuel : nat) : ∀ p maxpath,
  no_assert (extract g fuel st p maxpath).
Proof.
  induction fuel as [|fuel IH]; intros p maxpath; simpl.
  - by destruct (p <? _).
  - destruct (p <? _); [|done].
    apply no_assert_bind; [apply no_assert_vec_get|]. intros n _.
    apply no_assert_bind; [apply no_assert_vec_get|]. intros pn _.
    destruct (1000000 <? _); [done | apply IH].
Qed.

Lemma sum_probs_no_assert kpath : ∀ acc,
  no_assert (sum_probs g prob_model sample_id kpath acc).
Proof.
  induction kpath as [|n kpath IH]; intros acc; simpl; [done|].
  apply no_assert_bind; [apply get_prob_no_assert|]. intros p _. apply IH.
Qed.

(** X10: for every bound [max_num_kmers_to_average] that fits [uint32_t],
    the assertion of [find_max_path] that the truncated length equals the
    bound never fails, and no length that the dynamic program records
    exceeds the bound. *)
Theorem find_max_path_assertion_holds (maxpath : list KmerNode) :
  0 ≤ M ≤ UINT32_MAX →
  find_max_path g prob_model M sample_id maxpath ≠ Fatal AssertionFailed
  ∧ ∀ st, run_dp g prob_model M sample_id = Ok st →
          ∀ (j : nat) l, length_of_maxpath_from_node st !! j = Some l →
                         0 ≤ l ≤ M.
Proof.
  intros HM. destruct (run_dp_bounded g prob_model M sample_id HM)
    as [Hna Hbounded].
  split; [|exact Hbounded].
  change (no_assert (find_max_path g prob_model M sample_id maxpath)).
  unfold find_max_path. destruct (negb _); [done|].
  apply no_assert_bind; [apply all_zero_from_no_assert|]. intros [] _; [done|].
  apply no_assert_bind; [exact Hna|]. intros st _.
  apply no_assert_bind.
  { unfold reconstruct.
    apply no_assert_bind; [apply no_assert_vec_get|]. intros src _.
    apply no_assert_bind; [apply no_assert_vec_get|]. intros p _.
    apply extract_no_assert. }
  intros maxpath' _.
  apply no_assert_bind; [apply no_assert_vec_get|]. intros l_0 _.
  destruct (negb _); [done|].
  apply no_assert_bind; [|done]. unfold prob_path.
  apply no_assert_bind; [apply sum_probs_no_assert|]. intros s _.
  apply no_assert_bind; [|done]. unfold effective_len. no_assert_tac.
Qed.

End MaxPath.

Lemma find_max_path_assertion_holds_witness :
  find_max_path chain_kgc "bin" 1 0 [] ≠ Fatal AssertionFailed
  ∧ ∃ st, run_dp chain_kgc "bin" 1 0 = Ok st
          ∧ length_of_maxpath_from_node st = [1; 1; 1; 1; 0].
Proof.
  split.
  - apply (find_max_path_assertion_holds chain_kgc "bin" 1 0 []).
    unfold UINT32_MAX. lia.
  - eexists. split; [vm_compute; reflexivity | reflexivity].
Defined.

End MaxPathAssertion.

Module MaxPathWalk.
Import KGC MaxPathFacts ExtractPathFacts.

Section MaxPath.
Context {F : Type} `{FloatOps F}.
Variable g : t F.
Variable prob_model : string.
Variable M : Z.
Variable sample_id : Z.
Implicit Types (st : dp_state F) (b : best F).

Lemma consider_prev cur st b v st' b' :
  consider g prob_model M sample_id cur (st, b) v = Ok (st', b') →
  prev_node_along_maxpath st' = prev_node_along_maxpath st
  ∨ (0 ≤ cur
     ∧ prev_node_along_maxpath st'
       = <[Z.to_nat cur := v]> (prev_node_along_maxpath st)).
Proof.
  unfold consider. intros Hc.
  apply bind_Ok in Hc as ([] & Hw & Hc); [|injection Hc as <- <-; by left].
  apply bind_Ok in Hc as (p & Hp & Hc).
  apply bind_Ok in Hc as (s_v & Hsv & Hc).
  apply bind_Ok in Hc as (sums & Hsums & Hc).
  apply bind_Ok in Hc as (l_v & Hlv & Hc).
  apply bind_Ok in Hc as (lens & Hlens & Hc).
  apply bind_Ok in Hc as (prevs & Hprevs & Hc).
  apply bind_Ok in Hc as (st1 & Hst1 & Hc).
  assert (Hst' : st' = st1).
  { apply bind_Ok in Hc as (terminus & Hterm & Hc).
    destruct (negb (v =? terminus)).
    - apply bind_Ok in Hc as (m & Hm & Hc).
      apply bind_Ok in Hc as (l' & Hl' & Hc). by injection Hc as <- <-.
    - by injection Hc as <- <-. }
  subst st'. right.
  apply vec_set_inv in Hprevs as [Hcur ->]. split; [lia|].
  apply truncate_Ok in Hst1 as (l_u & _ & [[_ ->]|(_ & _ & ? & ? & ? & ? & ? & _ & _ & _ & _ & _ & ->)]);
    done.
Qed.

Lemma successors_ok_insert (n : KmerNode) v prev :
  n ∈ sorted_nodes (kmer_prg g) → v ∈ out_nodes n → 0 ≤ id n →
  successors_ok (kmer_prg g) prev →
  successors_ok (kmer_prg g) (<[Z.to_nat (id n) := v]> prev).
Proof.
  intros Hn Hv Hid Hok u w Hu.
  destruct (decide (u = Z.to_nat (id n))) as [->|Hne].
  - apply list_lookup_insert_Some in Hu as [(_ & <- & _)|[? _]]; [|done].
    right. exists n. split; [done|]. split; [lia | done].
  - rewrite list_lookup_insert_ne in Hu by done. by apply Hok.
Qed.

Lemma inner_successors (n : KmerNode) outs : ∀ st b st' b',
  n ∈ sorted_nodes (kmer_prg g) →
  (∀ v, v ∈ outs → v ∈ out_nodes n) →
  successors_ok (kmer_prg g) (prev_node_along_maxpath st) →
  inner g prob_model M sample_id (id n) (st, b) outs = Ok (st', b') →
  successors_ok (kmer_prg g) (prev_node_along_maxpath st').
Proof.
  induction outs as [|v outs IH]; intros st b st' b' Hn Houts Hok; simpl.
  - by intros [= <- <-].
  - intros ([st1 b1] & H1 & Hrest)%bind_Ok.
    eapply (IH st1 b1); [done| |  |done].
    + intros w Hw. apply Houts. by right.
    + apply consider_prev in H1 as [->|[Hid ->]]; [done|].
      apply successors_ok_insert; [done| |done|done]. apply Houts. by left.
Qed.

Lemma outer_successors (j : nat) : ∀ st st',
  successors_ok (kmer_prg g) (prev_node_along_maxpath st) →
  outer g prob_model M sample_id j st = Ok st' →
  successors_ok (kmer_prg g) (prev_node_along_maxpath st').
Proof.
  induction j as [|j IH]; intros st st' Hok; simpl.
  - by intros [= <-].
  - intros (n & [_ Hn]%vec_get_Ok & (st1 & H1 & Hrest)%bind_Ok)%bind_Ok.
    eapply IH; [|done]. unfold process in H1.
    apply bind_Ok in H1 as ([st2 b2] & Hin & [= <-]). simpl.
    eapply inner_successors; [|done|done|done].
    by eapply list_elem_of_lookup_2.
Qed.

Lemma run_dp_successors st :
  run_dp g prob_model M sample_id = Ok st →
  successors_ok (kmer_prg g) (prev_node_along_maxpath st)
  ∧ (0 < length (sorted_nodes (kmer_prg g)))%nat.
Proof.
  unfold run_dp. destruct (sorted_nodes (kmer_prg g)) eqn:E; [done|].
  rewrite <- E. intros Hrun. split; [|rewrite E; simpl; lia].
  eapply outer_successors; [|done].
  intros u v Hu. left. unfold dp_init in Hu. simpl in Hu.
  by apply lookup_replicate in Hu as [-> _].
Qed.

Lemma extract_is_extract_path_loop st (fuel : nat) : ∀ p maxpath,
  extract g fuel st p maxpath
  = extract_path_loop fuel g (prev_node_along_maxpath st)
      (Z.of_nat (length (sorted_nodes (kmer_prg g))) - 1) p maxpath.
Proof.
  induction fuel as [|fuel IH]; intros p maxpath; simpl; [done|].
  destruct (p <? _); [|done].
  destruct (vec_get (nodes (kmer_prg g)) p); [|done..]. simpl.
  destruct (vec_get (prev_node_along_maxpath st) p); [|done..]. simpl.
  destruct (1000000 <? _); [done | apply IH].
Qed.

Lemma walk_back_snoc (i : nat) prev : ∀ p q,
  walk_back (S i) prev p = Ok q →
  ∃ q0, walk_back i prev p = Ok q0 ∧ vec_get prev q0 = Ok q.
Proof.
  induction i as [|i IH]; intros p q.
  - simpl. intros (p' & Hp' & [= <-])%bind_Ok. by exists p.
  - change (walk_back (S (S i)) prev p)
      with (vec_get prev p ≫= walk_back (S i) prev).
    intros (p' & Hp' & Hq)%bind_Ok.
    apply IH in Hq as (q0 & Hq0 & Hq). exists q0. split; [|done].
    simpl. by rewrite Hp'.
Qed.

(** X11: the path that [find_max_path] appends is a walk through the
    graph.  When the graph holds its nodes by id, every node it appends is
    a node below the terminus, the first is an out-node of the first sorted
    node, and each next one is an out-node of the one before. *)
Theorem find_max_path_returns_a_walk (maxpath kpath : list KmerNode) (score : F) :
  indexed_by_id (kmer_prg g) →
  Z.of_nat (length (sorted_nodes (kmer_prg g))) ≤ UINT32_MAX →
  find_max_path g prob_model M sample_id maxpath = Ok (score, kpath) →
  kpath = maxpath
  ∨ ∃ rest,
      kpath = maxpath ++ rest
      ∧ is_walk rest
      ∧ (∀ n, n ∈ rest →
              n ∈ nodes (kmer_prg g)
              ∧ id n < Z.of_nat (length (sorted_nodes (kmer_prg g))) - 1)
      ∧ ∀ source a,
          sorted_nodes (kmer_prg g) !! 0%nat = Some source →
          rest !! 0%nat = Some a → id a ∈ out_nodes source.
Proof.
  intros [Hidx Hsorted] Hlen. unfold find_max_path.
  destruct (negb _); [done|].
  intros ([] & _ & Hfind)%bind_Ok; [injection Hfind as _ <-; by left|].
  apply bind_Ok in Hfind as (st & Hrun & Hfind).
  apply bind_Ok in Hfind as (maxpath' & Hrec & Hfind).
  apply bind_Ok in Hfind as (l_0 & _ & Hfind).
  destruct (negb _); [done|].
  apply bind_Ok in Hfind as (pp & _ & [= _ <-]).
  apply run_dp_successors in Hrun as [Hok Hpos].
  unfold reconstruct in Hrec.
  apply bind_Ok in Hrec as (source & [_ Hsource]%vec_get_Ok & Hrec).
  apply bind_Ok in Hrec as (p0 & [_ Hp0]%vec_get_Ok & Hrec).
  rewrite extract_is_extract_path_loop in Hrec.
  apply extract_path_loop_Ok in Hrec as (rest & -> & _ & Hnodes & _).
  right. exists rest. split; [done|].
  set (t := Z.of_nat (length (sorted_nodes (kmer_prg g))) - 1) in *.
  assert (Ht : u32 t = t).
  { unfold u32, t, UINT32_MAX in *. apply Z.mod_small. lia. }
  (* a successor below the terminus is an out-node *)
  assert (Hstep : ∀ (q : nat) q' n,
            prev_node_along_maxpath st !! q = Some q' → q' < t →
            nodes (kmer_prg g) !! q = Some n ∨
            (n ∈ sorted_nodes (kmer_prg g) ∧ id n = Z.of_nat q) →
            q' ∈ out_nodes n).
  { intros q q' n Hq Hlt Hn.
    destruct (Hok q q' Hq) as [->|(m & Hm & Hid & Hout)]; [unfold t in *; lia|].
    destruct (Hsorted m Hm) as [_ Hm'].
    rewrite Hid, Nat2Z.id in Hm'.
    destruct Hn as [Hn|[Hn Hidn]].
    - rewrite Hn in Hm'. by injection Hm' as ->.
    - destruct (Hsorted n Hn) as [_ Hn'].
      rewrite Hidn, Nat2Z.id, Hm' in Hn'. by injection Hn' as ->. }
  split; [|split].
  - intros i a b' Ha Hb.
    destruct (Hnodes i a Ha) as (qa & Hqa & Hlta & [Hqa0 Hna]%vec_get_Ok).
    destruct (Hnodes (S i) b' Hb) as (qb & Hqb & Hltb & [Hqb0 Hnb]%vec_get_Ok).
    apply walk_back_snoc in Hqb as (q0 & Hq0 & [_ Hprev]%vec_get_Ok).
    rewrite Hqa in Hq0. injection Hq0 as <-.
    rewrite (Hidx _ _ Hnb), Z2Nat.id by lia.
    apply (Hstep (Z.to_nat qa) qb a Hprev Hltb). by left.
  - intros n [i Hi]%list_elem_of_lookup.
    destruct (Hnodes i n Hi) as (q & _ & Hlt & [Hq0 Hn]%vec_get_Ok).
    split; [by eapply list_elem_of_lookup_2|].
    rewrite (Hidx _ _ Hn). lia.
  - intros source' a Hs Ha. change (Z.to_nat 0) with 0%nat in Hsource.
    rewrite Hs in Hsource. injection Hsource as ->.
    destruct (Hnodes 0%nat a Ha) as (q & Hq & Hlt & [Hq0 Hn]%vec_get_Ok).
    simpl in Hq. injection Hq as <-.
    rewrite (Hidx _ _ Hn), Z2Nat.id by lia.
    destruct (Hsorted source) as [Hid0 _]; [by eapply list_elem_of_lookup_2|].
    apply (Hstep (Z.to_nat (id source)) p0 source Hp0 Hlt). right.
    split; [by eapply list_elem_of_lookup_2 | lia].
Qed.

End MaxPath.

Lemma find_max_path_returns_a_walk_witness :
  ∃ score kpath,
    find_max_path chain_kgc "bin" 100 0 [] = Ok (score, kpath)
    ∧ id <$> kpath = [1; 2; 3]
    ∧ is_walk kpath.
Proof.
  destruct (find_max_path chain_kgc "bin" 100 0 [])
    as [[score kpath]| |] eqn:Hfind; [|vm_compute in Hfind; discriminate..].
  exists score, kpath. split; [reflexivity|].
  assert (Hids : id <$> kpath = [1; 2; 3]).
  { vm_compute in Hfind. injection Hfind as _ <-. reflexivity. }
  split; [exact Hids|].
  assert (Hidx : indexed_by_id (kmer_prg chain_kgc)).
  { split.
    - intros i n Hi. simpl in Hi.
      do 5 (destruct i as [|i]; [injection Hi as <-; reflexivity|]).
      discriminate Hi.
    - intros n Hn. simpl in Hn.
      repeat (apply elem_of_cons in Hn as [->|Hn]); simpl;
        try (split; [lia | reflexivity]).
      by apply elem_of_nil in Hn. }
  destruct (find_max_path_returns_a_walk chain_kgc "bin" 100 0 [] kpath score
              Hidx ltac:(vm_compute; discriminate) Hfind)
    as [->|(rest & -> & Hwalk & _)]; [discriminate Hids | exact Hwalk].
Defined.

End MaxPathWalk.

Module LoadMore.
Import KGC CoverageFacts LoadFacts.

Section Load.
Context {F : Type}.
Variable node_lt : KmerNode → KmerNode → bool.
Implicit Types (g : t F) (st : ingest (F := F)).

(** *** S-lines of four fields *)




(** *** The coverage that [load] stores *)

Lemma get_covg_with_kmer_prg g kg n s i :
  get_covg (with_kmer_prg g kg) n s i = get_covg g n s i.
Proof. done. Qed.

Lemma set_covg_get g node_id value strand g' :
  set_covg g node_id value strand 0 = Ok g' →
  get_covg g' node_id strand 0 = Ok value
  ∧ ∀ n s i, (n, s, i) ≠ (node_id, strand, 0) →
             get_covg g' n s i = get_covg g n s i.
Proof.
  unfold set_covg. intros Hs.
  apply bind_Ok in Hs as (row & Hrow & Hs).
  destruct (negb _); [done|].
  apply bind_Ok in Hs as (c & Hc & Hs).
  apply bind_Ok in Hs as (row' & [_ ->]%vec_set_inv & Hs).
  apply bind_Ok in Hs as (cov' & [Hn ->]%vec_set_inv & [= <-]).
  split.
  - rewrite (get_covg_with_coverage _ _ _ _ _ _ _ _ _ _ Hrow Hc).
    by rewrite bool_decide_eq_true_2.
  - intros n s i Hne.
    rewrite (get_covg_with_coverage _ _ _ _ _ _ _ _ _ _ Hrow Hc).
    by rewrite bool_decide_eq_false_2.
Qed.

Lemma ingest_s_covg num_nodes st s st' :
  ingest_s node_lt num_nodes st s = Ok st' →
  get_covg (ig_kgc st') (u32 (s_id s)) Forward 0 = Ok (u16 (s_fc s))
  ∧ get_covg (ig_kgc st') (u32 (s_id s)) Reverse 0 = Ok (u16 (s_rc s))
  ∧ ∀ n str i, n ≠ u32 (s_id s) →
        get_covg (ig_kgc st') n str i = get_covg (ig_kgc st) n str i.
Proof.
  unfold ingest_s. intros Hs.
  destruct (negb (4 <=? s_fields s)); [done|].
  destruct (negb (s_digit s)); [done|].
  destruct (negb _); [done|].
  apply bind_Ok in Hs as (g2 & [Hf Hf']%set_covg_get & Hs).
  destruct (negb (5 <=? s_fields s)); [done|].
  apply bind_Ok in Hs as (g3 & [Hr Hr']%set_covg_get & [= <-]). simpl.
  split; [|split].
  - rewrite Hr' by discriminate. done.
  - done.
  - intros n str i Hne.
    rewrite Hr', Hf' by congruence. apply get_covg_with_kmer_prg.
Qed.

Lemma ingest_lines_covg num_nodes lines : ∀ st st',
  ingest_lines node_lt num_nodes lines st = Ok st' →
  NoDup (s_ids lines) →
  (∀ s, SLine s ∈ lines →
        get_covg (ig_kgc st') (u32 (s_id s)) Forward 0 = Ok (u16 (s_fc s))
        ∧ get_covg (ig_kgc st') (u32 (s_id s)) Reverse 0 = Ok (u16 (s_rc s)))
  ∧ ∀ n str i, n ∉ s_ids lines →
        get_covg (ig_kgc st') n str i = get_covg (ig_kgc st) n str i.
Proof.
  induction lines as [|[s|l|] lines IH]; intros st st' Hi Hnd; simpl in *.
  - injection Hi as <-. split; [|done]. intros s Hs. by apply elem_of_nil in Hs.
  - apply bind_Ok in Hi as (st1 & Hs & Hi).
    apply NoDup_cons in Hnd as [Hfresh Hnd].
    destruct (IH _ _ Hi Hnd) as [Hlines Hframe].
    destruct (ingest_s_covg _ _ _ _ Hs) as (Hf & Hr & Hother).
    split.
    + intros s' [[= <-]|Hs']%elem_of_cons; [|by apply Hlines].
      rewrite !Hframe by done. done.
    + intros n str i [Hne Hn]%not_elem_of_cons.
      rewrite Hframe by done. by apply Hother.
  - apply bind_Ok in Hi as (st1 & (Hg & _)%ingest_l_inv & Hi).
    destruct (IH _ _ Hi Hnd) as [Hlines Hframe]. rewrite <- Hg. split.
    + intros s [[=]|Hs]%elem_of_cons. by apply Hlines.
    + done.
  - destruct (IH _ _ Hi Hnd) as [Hlines Hframe]. split; [|done].
    intros s [[=]|Hs]%elem_of_cons. by apply Hlines.
Qed.

(** The ids of the lines that [load] accepts are pairwise different. *)
Lemma load_ids_NoDup g lines g' :
  load_lines node_lt g lines = Ok g' → NoDup (s_ids lines).
Proof.
  unfold load_lines. intros Hload.
  apply bind_Ok in Hload as ([id0 num] & Hs & Hload).
  apply bind_Ok in Hload as (st & Hst & Hload).
  apply ingest_lines_inv in Hst as (Hids & _ & _ & _ & Hlen).
  simpl in Hids, Hlen. specialize (Hlen ltac:(lia)).
  apply bind_Ok in Hload as ([] & Hcheck & _).
  set (nodes' := if ig_id st =? 0 then reverse (nodes (kmer_prg (ig_kgc st)))
                 else nodes (kmer_prg (ig_kgc st))) in *.
  assert (Hlen' : length nodes' = length (nodes (kmer_prg (ig_kgc st)))).
  { unfold nodes'. destruct (ig_id st =? 0); by rewrite ?length_reverse. }
  apply check_ids_ordered in Hcheck; [|by rewrite Hlen'].
  assert (Hnd : NoDup (id <$> nodes')) by (rewrite Hcheck; apply NoDup_seqZ).
  rewrite <- Hids. unfold nodes' in Hnd.
  destruct (ig_id st =? 0); [|done].
  rewrite fmap_reverse in Hnd. by rewrite reverse_Permutation in Hnd.
Qed.

(** *** The nodes that [load] builds *)

Lemma ingest_s_node num_nodes st s st' :
  ingest_s node_lt num_nodes st s = Ok st' →
  nodes (kmer_prg (ig_kgc st'))
  = nodes (kmer_prg (ig_kgc st)) ++ [node_of_line s].
Proof.
  unfold ingest_s. intros Hs.
  destruct (negb (4 <=? s_fields s)); [done|].
  destruct (negb (s_digit s)); [done|].
  destruct (negb _); [done|].
  apply bind_Ok in Hs as (g2 & [Hg2 _]%set_covg_inv & Hs).
  destruct (negb (5 <=? s_fields s)); [done|].
  apply bind_Ok in Hs as (g3 & [Hg3 _]%set_covg_inv & [= <-]).
  simpl. by rewrite Hg3, Hg2.
Qed.

Lemma ingest_lines_nodes num_nodes lines : ∀ st st',
  ingest_lines node_lt num_nodes lines st = Ok st' →
  nodes (kmer_prg (ig_kgc st'))
  = nodes (kmer_prg (ig_kgc st)) ++ nodes_of_lines lines.
Proof.
  induction lines as [|[s|l|] lines IH]; intros st st' Hi; simpl in *.
  - injection Hi as <-. by rewrite app_nil_r.
  - apply bind_Ok in Hi as (st1 & Hs%ingest_s_node & Hi).
    rewrite (IH _ _ Hi), Hs, <- app_assoc. done.
  - apply bind_Ok in Hi as (st1 & (Hg & _)%ingest_l_inv & Hi).
    rewrite (IH _ _ Hi), Hg. done.
  - by apply IH.
Qed.

Lemma update_node_label (f : KmerNode → KmerNode) target ns :
  (∀ n, label (f n) = label n) →
  label <$> update_node f target ns = label <$> ns.
Proof.
  intros Hf. unfold update_node. induction ns as [|n ns IH]; simpl; [done|].
  f_equal; [|done]. by destruct (id n =? target).
Qed.

Lemma add_edge_label kg a b :
  label <$> nodes (add_edge kg a b) = label <$> nodes kg.
Proof.
  unfold add_edge.
  repeat case_bool_decide; simpl; rewrite ?update_node_label; done.
Qed.

Lemma link_lines_label lines : ∀ kg kg',
  link_lines lines kg = Ok kg' → label <$> nodes kg' = label <$> nodes kg.
Proof.
  induction lines as [|[s|l|] lines IH]; intros kg kg' Hl; simpl in *.
  - by injection Hl as <-.
  - by apply IH.
  - destruct (negb _); [done|].
    apply bind_Ok in Hl as (nf & _ & Hl).
    apply bind_Ok in Hl as (nt & _ & Hl).
    apply IH in Hl. by rewrite Hl, add_edge_label.
  - by apply IH.
Qed.

Lemma elem_of_nodes_of_lines s lines :
  SLine s ∈ lines → node_of_line s ∈ nodes_of_lines lines.
Proof.
  induction lines as [|[s0|l|] lines IH]; simpl.
  - by intros ?%elem_of_nil.
  - intros [[= <-]|Hs]%elem_of_cons; [by left | right; by apply IH].
  - intros [[=]|Hs]%elem_of_cons. by apply IH.
  - intros [[=]|Hs]%elem_of_cons. by apply IH.
Qed.

(** X13: after [load] has read a file, the node at the index that an
    S-line ended by a newline gives as its id has that id, the path of the
    line and, when the line has a sixth field, the [num_AT] of that
    field. *)
Theorem load_restores_nodes g (file : gfa_file) g' (s : s_line) :
  load node_lt g file = Ok g' →
  SLine s ∈ good_lines file →
  ∃ n, nodes (kmer_prg g') !! Z.to_nat (u32 (s_id s)) = Some n
       ∧ id n = u32 (s_id s)
       ∧ path n = s_path s
       ∧ (6 ≤ s_fields s → num_AT n = s_num_AT s).
Proof.
  unfold load. generalize (good_lines file). clear file.
  intros lines Hload Hs. unfold load_lines in Hload.
  apply bind_Ok in Hload as ([id0 num] & _ & Hload).
  apply bind_Ok in Hload as (st & Hst & Hload).
  pose proof (ingest_lines_nodes _ _ _ _ Hst) as Hnodes. simpl in Hnodes.
  apply ingest_lines_inv in Hst as (Hids & _ & _ & _ & Hlen).
  simpl in Hids, Hlen. specialize (Hlen ltac:(lia)).
  apply bind_Ok in Hload as ([] & Hcheck & Hload).
  apply bind_Ok in Hload as (kg' & Hkg' & [= <-]).
  set (nodes' := if ig_id st =? 0 then reverse (nodes (kmer_prg (ig_kgc st)))
                 else nodes (kmer_prg (ig_kgc st))) in *.
  assert (Hlen' : length nodes' = length (nodes (kmer_prg (ig_kgc st)))).
  { unfold nodes'. destruct (ig_id st =? 0); by rewrite ?length_reverse. }
  apply check_ids_ordered in Hcheck; [|by rewrite Hlen'].
  pose proof (link_lines_label _ _ _ Hkg') as Hlabel.
  pose proof (link_lines_inv _ _ _ Hkg') as Hid'.
  simpl in Hlabel, Hid' |- *.
  (* the node built from the line is, up to its edges, a node of the result *)
  assert (Hin : label (node_of_line s) ∈ label <$> nodes kg').
  { rewrite Hlabel. apply list_elem_of_fmap. exists (node_of_line s).
    split; [done|].
    assert (Hmem : node_of_line s ∈ nodes (kmer_prg (ig_kgc st))).
    { rewrite Hnodes. by apply elem_of_nodes_of_lines. }
    unfold nodes'. destruct (ig_id st =? 0); [|done].
    by apply elem_of_reverse. }
  apply list_elem_of_fmap in Hin as (n & Hn & [j Hj]%list_elem_of_lookup).
  injection Hn as Hn1 Hn2 Hn3. simpl in Hn1, Hn2, Hn3.
  assert (Hjid : id n = Z.of_nat j).
  { assert (Hl : (id <$> nodes kg') !! j = Some (id n))
      by (by rewrite list_lookup_fmap, Hj).
    rewrite Hid', Hcheck in Hl. apply lookup_seqZ in Hl as [-> _]. lia. }
  exists n. rewrite Hn1, Hn2.
  split; [by rewrite Hjid, Nat2Z.id|]. split; [done|]. split; [done|].
  intros Hsix. rewrite <- Hn3.
  by destruct (Z.leb_spec 6 (s_fields s)); [|lia].
Qed.

(** X14: after [load] has read a file, the sample-0 coverage of the node
    that an S-line ended by a newline names is what the line holds in its
    FC and RC fields, each truncated to 16 bits. *)
Theorem load_stores_coverage g (file : gfa_file) g' (s : s_line) :
  load node_lt g file = Ok g' →
  SLine s ∈ good_lines file →
  get_forward_covg g' (u32 (s_id s)) 0 = Ok (u16 (s_fc s))
  ∧ get_reverse_covg g' (u32 (s_id s)) 0 = Ok (u16 (s_rc s)).
Proof.
  unfold load. generalize (good_lines file). clear file.
  intros lines Hload Hs. pose proof (load_ids_NoDup _ _ _ Hload) as Hnd.
  unfold load_lines in Hload.
  apply bind_Ok in Hload as ([id0 num] & _ & Hload).
  apply bind_Ok in Hload as (st & Hst & Hload).
  apply bind_Ok in Hload as ([] & _ & Hload).
  apply bind_Ok in Hload as (kg' & _ & [= <-]).
  unfold get_forward_covg, get_reverse_covg.
  rewrite !get_covg_with_kmer_prg.
  by apply (ingest_lines_covg _ _ _ _ Hst Hnd).
Qed.

End Load.


Lemma load_stores_coverage_witness :
  ∃ g', load by_id three_slots descending_gfa = Ok g'
        ∧ get_forward_covg g' 1 0 = Ok 2
        ∧ get_reverse_covg g' 1 0 = Ok 1.
Proof.
  destruct (load by_id three_slots descending_gfa) as [g'| |] eqn:Hload;
    [|vm_compute in Hload; discriminate..].
  exists g'. split; [reflexivity|].
  apply (load_stores_coverage by_id three_slots descending_gfa g'
           (mkS 5 1 true [(1, 4)] 2 1 0) Hload).
  unfold descending_gfa, good_lines, ended_lines, descending_file.
  do 3 right. by left.
Defined.

Lemma load_restores_nodes_witness :
  ∃ g' n, load by_id three_slots at_gfa = Ok g'
          ∧ nodes (kmer_prg g') !! 0%nat = Some n
          ∧ id n = 0 ∧ path n = [(0, 3)] ∧ num_AT n = 7.
Proof.
  destruct (load by_id three_slots at_gfa) as [g'| |] eqn:Hload;
    [|vm_compute in Hload; discriminate..].
  destruct (load_restores_nodes by_id three_slots at_gfa g'
              (mkS 6 0 true [(0, 3)] 2 1 7) Hload)
    as (n & Hn & Hid & Hpath & Hat).
  { by left. }
  exists g', n. split; [reflexivity|]. split; [exact Hn|].
  split; [exact Hid|]. split; [exact Hpath|].
  apply Hat. simpl. lia.
Defined.

End LoadMore.

Module ProbPathMean.
Import KGC ProbabilityFacts.

Section Probability.
Context {F : Type} `{FloatOps F}.
Implicit Types (g : t F).

(** X15: on every path but the one made of a single node with an empty
    path, [prob_path] is the sum of the probabilities of the nodes, added
    from the left to 0, divided by the number of nodes less one for each
    endpoint with an empty path, and by 1 when nothing is left; on the
    empty path it reads [kpath[0]] outside the vector. *)
Theorem prob_path_divides_by_the_effective_length g (kpath : list KmerNode)
    (ps : list F) sample_id model :
  Forall2 (λ n q, get_prob g model (id n) sample_id = Ok q) kpath ps →
  Z.of_nat (length kpath) ≤ UINT32_MAX →
  (∀ n, kpath = [n] → path_length (path n) ≠ 0) →
  prob_path g [] sample_id model = Undefined
  ∧ (kpath ≠ [] →
     prob_path g kpath sample_id model
     = Ok (fdiv (foldl fadd (of_int 0) ps)
                (of_int (spec_effective_len kpath)))).
Proof.
  intros Hall Hmax Hsingle. split; [done|]. intros Hne. unfold prob_path.
  rewrite (sum_probs_foldl _ _ _ _ _ _ Hall). simpl.
  destruct kpath as [|n [|m kpath]]; [done| |].
  - rewrite effective_len_single.
    destruct (Z.eqb_spec (path_length (path n)) 0) as [Heq|Hnz].
    + by destruct (Hsingle n eq_refl).
    + simpl. do 2 f_equal. unfold spec_effective_len, sentinel_endpoints.
      simpl. destruct (Z.eqb_spec (path_length (path n)) 0); [done|]. done.
  - rewrite effective_len_spec; [done | simpl; lia | done].
Qed.

End Probability.

Lemma prob_path_divides_by_the_effective_length_witness :
  ∃ p1 p2 : Binary64.float,
    get_prob chain_kgc "bin" 1 0 = Ok p1
    ∧ get_prob chain_kgc "bin" 2 0 = Ok p2
    ∧ prob_path chain_kgc
        [mkKmerNode 0 [] [] [1] 0; mkKmerNode 1 [(0, 3)] [0] [2] 0;
         mkKmerNode 2 [(1, 4)] [1] [3] 0] 0 "bin"
      = Ok (fdiv (fadd (fadd (fadd (of_int 0) (of_int 0)) p1) p2) (of_int 2)).
Proof.
  destruct (get_prob chain_kgc "bin" 1 0) as [p1| |] eqn:H1;
    [|vm_compute in H1; discriminate..].
  destruct (get_prob chain_kgc "bin" 2 0) as [p2| |] eqn:H2;
    [|vm_compute in H2; discriminate..].
  exists p1, p2. split; [reflexivity|]. split; [reflexivity|].
  apply (proj2 (prob_path_divides_by_the_effective_length chain_kgc
                  [mkKmerNode 0 [] [] [1] 0; mkKmerNode 1 [(0, 3)] [0] [2] 0;
                   mkKmerNode 2 [(1, 4)] [1] [3] 0]
                  [of_int 0; p1; p2] 0 "bin"
                  ltac:(repeat constructor; done)
                  ltac:(vm_compute; discriminate)
                  ltac:(discriminate))).
  discriminate.
Defined.

End ProbPathMean.

Module MeanCovgFacts.
Import EstimateParameters.

Lemma vec_get_entry (dist : list Z) (j : Z) :
  0 ≤ j < Z.of_nat (length dist) → vec_get dist j = Ok (entry dist j).
Proof.
  intros Hj. unfold entry.
  destruct (lookup_lt_is_Some_2 dist (Z.to_nat j) ltac:(lia)) as [x Hx].
  rewrite Hx. simpl. apply vec_get_Ok. split; [lia | done].
Qed.

Lemma seqZ_snoc m n : 0 ≤ n → seqZ m (n + 1) = seqZ m n ++ [m + n].
Proof.
  intros Hn. rewrite seqZ_app by lia. by f_equal.
Qed.

Lemma rises_succ dist k :
  1 ≤ k →
  rises dist (k + 1)
  = rises dist k
    ++ (if decide (entry dist (k - 1) < entry dist k) then [k] else []).
Proof.
  intros Hk. unfold rises.
  replace (k + 1 - 1) with ((k - 1) + 1) by lia.
  rewrite seqZ_snoc by lia. rewrite filter_app. f_equal.
  replace (1 + (k - 1)) with k by lia.
  rewrite filter_cons. by destruct (decide _).
Qed.

Lemma rises_bounds dist k i : i ∈ rises dist k → 1 ≤ i < k.
Proof.
  unfold rises. intros [_ Hi%elem_of_seqZ]%list_elem_of_filter. lia.
Qed.

Lemma mean_covg_step_searched dist st k :
  1 ≤ k < Z.of_nat (length dist) →
  searched dist k st →
  ∃ st', mean_covg_step dist st k = Ok st' ∧ searched dist (k + 1) st'.
Proof.
  intros Hk Hs. unfold mean_covg_step.
  rewrite (vec_get_entry dist k), (vec_get_entry dist (k - 1)) by lia.
  simpl. unfold searched in *. rewrite rises_succ by lia.
  destruct (Z.leb_spec (entry dist k) (entry dist (k - 1))) as [Hle|Hgt].
  - (* no rise at [k] *)
    rewrite decide_False by lia. rewrite app_nil_r.
    exists st. split; [done|].
    destruct (rises dist k !! 3%nat) as [i0|] eqn:Hi0; [|done].
    destruct Hs as (m & -> & Hr & Hmax & Hfirst). exists m. split; [done|].
    pose proof (rises_bounds dist k i0 (list_elem_of_lookup_2 _ _ _ Hi0)).
    split; [lia|]. split; [|done].
    intros j Hj. destruct (decide (j = k)) as [->|Hne]; [|apply Hmax; lia].
    specialize (Hmax (k - 1) ltac:(lia)). lia.
  - (* a rise at [k] *)
    rewrite decide_True by lia.
    destruct (rises dist k !! 3%nat) as [i0|] eqn:Hi0.
    + destruct Hs as (m & -> & Hr & Hmax & Hfirst). simpl.
      pose proof (rises_bounds dist k i0 (list_elem_of_lookup_2 _ _ _ Hi0)).
      rewrite (vec_get_entry dist m) by lia. simpl.
      rewrite (lookup_app_l_Some _ _ _ _ Hi0).
      destruct (Z.ltb_spec (entry dist m) (entry dist k)) as [Hlt|Hge].
      * eexists. split; [done|]. exists k. split; [done|].
        split; [lia|]. split.
        -- intros j Hj. destruct (decide (j = k)) as [->|Hne]; [lia|].
           specialize (Hmax j ltac:(lia)). lia.
        -- intros j Hj. specialize (Hmax j ltac:(lia)). lia.
      * eexists. split; [done|]. exists m. split; [done|].
        split; [lia|]. split; [|done].
        intros j Hj. destruct (decide (j = k)) as [->|Hne]; [lia|].
        apply Hmax. lia.
    + subst st. simpl. apply lookup_ge_None in Hi0.
      destruct (Z.ltb_spec (Z.of_nat (length (rises dist k))) 3) as [Hlt|Hge].
      * simpl. eexists. split; [done|].
        rewrite lookup_ge_None_2 by (rewrite length_app; simpl; lia).
        rewrite length_app. simpl. f_equal.
        unfold u32. rewrite Z.mod_small; lia.
      * simpl. eexists. split; [done|].
        assert (Hlen : length (rises dist k) = 3%nat) by lia.
        rewrite lookup_app_r by lia. rewrite Hlen. simpl.
        exists k. split; [done|]. split; [lia|].
        split; intros j Hj; [|lia]. by replace j with k by lia.
Qed.

Lemma mean_covg_loop_searched dist (passes : nat) : ∀ k st,
  1 ≤ k → k + Z.of_nat passes ≤ Z.of_nat (length dist) →
  searched dist k st →
  ∃ st', mean_covg_loop dist st k passes = Ok st'
         ∧ searched dist (k + Z.of_nat passes) st'.
Proof.
  induction passes as [|passes IH]; intros k st Hk Hlen Hs.
  - exists st. split; [done|]. by rewrite Z.add_0_r.
  - destruct (mean_covg_step_searched dist st k ltac:(lia) Hs)
      as (st1 & Hstep & Hs1).
    destruct (IH (k + 1) st1 ltac:(lia) ltac:(lia) Hs1) as (st' & Hloop & Hs').
    exists st'. simpl. rewrite Hstep. simpl. split; [done|].
    by replace (k + Z.of_nat (S passes)) with (k + 1 + Z.of_nat passes) by lia.
Qed.

(** X16: on a distribution with at least one entry [find_mean_covg]
    returns 0 unless the distribution rises at least four times; from the
    fourth rise on it returns the first index at which the distribution is
    greatest.  On an empty vector it reads [kmer_covg_dist[1]]. *)
Theorem find_mean_covg_second_peak (kmer_covg_dist : list Z) :
  let size := Z.of_nat (length kmer_covg_dist) in
  find_mean_covg [] = Undefined
  ∧ (1 ≤ size ≤ UINT32_MAX →
     ∃ r, find_mean_covg kmer_covg_dist = Ok r
          ∧ match rises kmer_covg_dist size !! 3%nat with
            | None => r = 0
            | Some fourth_rise =>
                first_greatest kmer_covg_dist fourth_rise size r
            end).
Proof.
  intros size. split.
  - unfold find_mean_covg. simpl length.
    assert (Hp : Z.to_nat (u32 (Z.of_nat 0 - 1)) = S (Z.to_nat 4294967294))
      by (change (u32 (Z.of_nat 0 - 1)) with 4294967295; lia).
    rewrite Hp. generalize (Z.to_nat 4294967294). intros passes. done.
  - unfold UINT32_MAX. intros Hsize. unfold find_mean_covg. fold size.
    assert (Hp : u32 (size - 1) = size - 1)
      by (unfold u32; apply Z.mod_small; lia).
    rewrite Hp.
    destruct (mean_covg_loop_searched kmer_covg_dist (Z.to_nat (size - 1)) 1
                (mkSearch true None 0) ltac:(lia) ltac:(lia))
      as (st & Hloop & Hs).
    { unfold searched, rises. by rewrite seqZ_nil by lia. }
    rewrite Hloop. simpl.
    replace (1 + Z.of_nat (Z.to_nat (size - 1))) with size in Hs by lia.
    unfold searched in Hs.
    destruct (rises kmer_covg_dist size !! 3%nat) as [i0|].
    + destruct Hs as (m & -> & Hm). simpl. by exists m.
    + subst st. simpl. by exists 0.
Qed.

Lemma find_mean_covg_second_peak_witness :
  rises [9; 5; 2; 3; 4; 6; 8; 12; 7; 3; 14; 14; 1] 13 = [3; 4; 5; 6; 7; 10]
  ∧ ∃ r, find_mean_covg [9; 5; 2; 3; 4; 6; 8; 12; 7; 3; 14; 14; 1] = Ok r
         ∧ first_greatest [9; 5; 2; 3; 4; 6; 8; 12; 7; 3; 14; 14; 1] 6 13 r.
Proof.
  split; [reflexivity|].
  apply (proj2 (find_mean_covg_second_peak
                  [9; 5; 2; 3; 4; 6; 8; 12; 7; 3; 14; 14; 1])).
  unfold UINT32_MAX. simpl. lia.
Defined.

End MeanCovgFacts.

Module ProbThreshFacts.
Import EstimateParameters MeanCovgFacts.

Lemma entry_lookup (dist : list Z) (i : nat) x :
  dist !! i = Some x → entry dist (Z.of_nat i) = x.
Proof. intros Hx. unfold entry. by rewrite Nat2Z.id, Hx. Qed.

Lemma scan_best_max dist first l : ∀ i best,
  (∀ (k : nat) x, l !! k = Some x → entry dist (i + Z.of_nat k) = x) →
  first_greatest dist first i best →
  first_greatest dist first (i + Z.of_nat (length l))
    (scan_best (λ largest x, largest <? x) l i best (entry dist best)).
Proof.
  induction l as [|x l IH]; intros i best Hl (Hr & Hmax & Hfirst);
    cbn [length scan_best].
  - replace (i + Z.of_nat 0) with i by lia. split; [done | by split].
  - assert (Hx : entry dist i = x).
    { rewrite <- (Hl 0%nat x eq_refl). f_equal. lia. }
    assert (Hl' : ∀ (k : nat) y, l !! k = Some y
                                 → entry dist (i + 1 + Z.of_nat k) = y).
    { intros k y Hk. rewrite <- (Hl (S k) y Hk). f_equal. lia. }
    replace (i + Z.of_nat (S (length l)))
      with (i + 1 + Z.of_nat (length l)) by lia.
    destruct (Z.ltb_spec (entry dist best) x) as [Hlt|Hge].
    + rewrite <- Hx. apply IH; [done|]. split; [lia|]. split.
      * intros j Hj. destruct (decide (j = i)) as [->|Hne]; [lia|].
        specialize (Hmax j ltac:(lia)). lia.
      * intros j Hj. specialize (Hmax j ltac:(lia)). lia.
    + apply IH; [done|]. split; [lia|]. split; [|done].
      intros j Hj. destruct (decide (j = i)) as [->|Hne]; [lia|].
      apply Hmax. lia.
Qed.

Lemma scan_best_min dist first l : ∀ i best,
  (∀ (k : nat) x, l !! k = Some x → entry dist (i + Z.of_nat k) = x) →
  first_least dist first i best →
  first_least dist first (i + Z.of_nat (length l))
    (scan_best (λ smallest x, x <? smallest) l i best (entry dist best)).
Proof.
  induction l as [|x l IH]; intros i best Hl (Hr & Hmin & Hfirst);
    cbn [length scan_best].
  - replace (i + Z.of_nat 0) with i by lia. split; [done | by split].
  - assert (Hx : entry dist i = x).
    { rewrite <- (Hl 0%nat x eq_refl). f_equal. lia. }
    assert (Hl' : ∀ (k : nat) y, l !! k = Some y
                                 → entry dist (i + 1 + Z.of_nat k) = y).
    { intros k y Hk. rewrite <- (Hl (S k) y Hk). f_equal. lia. }
    replace (i + Z.of_nat (S (length l)))
      with (i + 1 + Z.of_nat (length l)) by lia.
    destruct (Z.ltb_spec x (entry dist best)) as [Hlt|Hge].
    + rewrite <- Hx. apply IH; [done|]. split; [lia|]. split.
      * intros j Hj. destruct (decide (j = i)) as [->|Hne]; [lia|].
        specialize (Hmin j ltac:(lia)). lia.
      * intros j Hj. specialize (Hmin j ltac:(lia)). lia.
    + apply IH; [done|]. split; [lia|]. split; [|done].
      intros j Hj. destruct (decide (j = i)) as [->|Hne]; [lia|].
      apply Hmin. lia.
Qed.

(** The range of a vector as a list. *)
Lemma range_lookup (dist : list Z) (first last : Z) (k : nat) x :
  0 ≤ first →
  take (Z.to_nat (last - first)) (drop (Z.to_nat first) dist) !! k = Some x →
  entry dist (first + Z.of_nat k) = x.
Proof.
  intros Hf Hk. apply lookup_take_Some in Hk as [Hk _].
  rewrite lookup_drop in Hk.
  rewrite <- (entry_lookup dist _ x Hk). f_equal. lia.
Qed.

Lemma range_length (dist : list Z) (first last : Z) :
  0 ≤ first ≤ last → last ≤ Z.of_nat (length dist) →
  Z.of_nat (length (take (Z.to_nat (last - first))
                      (drop (Z.to_nat first) dist))) = last - first.
Proof. intros Hf Hl. rewrite length_take, length_drop. lia. Qed.

Lemma max_element_spec dist first last :
  0 ≤ first ≤ last → last ≤ Z.of_nat (length dist) →
  ∃ m, max_element dist first last = Ok m
       ∧ ((first = last ∧ m = last)
          ∨ (first < last ∧ first_greatest dist first last m)).
Proof.
  intros Hf Hl. unfold max_element, best_element.
  destruct (Z.leb_spec 0 first); [|lia].
  destruct (Z.leb_spec first last); [|lia].
  destruct (Z.leb_spec last (Z.of_nat (length dist))); [|lia]. simpl.
  pose proof (range_length dist first last Hf Hl) as Hlen.
  pose proof (range_lookup dist first last) as Hlook.
  destruct (take _ _) as [|x rest].
  - exists last. split; [done|]. left. simpl in Hlen. lia.
  - eexists. split; [done|]. right. simpl length in Hlen. split; [lia|].
    assert (Hx : entry dist first = x).
    { rewrite <- (Hlook 0%nat x ltac:(lia) eq_refl). f_equal. lia. }
    rewrite <- Hx.
    replace last with (first + 1 + Z.of_nat (length rest)) by lia.
    apply scan_best_max.
    + intros k y Hk. rewrite <- (Hlook (S k) y ltac:(lia) Hk). f_equal. lia.
    + split; [lia|]. split; intros j Hj; [|lia]. by replace j with first by lia.
Qed.

Lemma min_element_spec dist first last :
  0 ≤ first < last → last ≤ Z.of_nat (length dist) →
  ∃ m, min_element dist first last = Ok m ∧ first_least dist first last m.
Proof.
  intros Hf Hl. unfold min_element, best_element.
  destruct (Z.leb_spec 0 first); [|lia].
  destruct (Z.leb_spec first last); [|lia].
  destruct (Z.leb_spec last (Z.of_nat (length dist))); [|lia]. simpl.
  pose proof (range_length dist first last ltac:(lia) Hl) as Hlen.
  pose proof (range_lookup dist first last) as Hlook.
  destruct (take _ _) as [|x rest]; [simpl in Hlen; lia|].
  eexists. split; [done|]. simpl length in Hlen.
  assert (Hx : entry dist first = x).
  { rewrite <- (Hlook 0%nat x ltac:(lia) eq_refl). f_equal. lia. }
  rewrite <- Hx.
  replace last with (first + 1 + Z.of_nat (length rest)) by lia.
  apply scan_best_min.
  - intros k y Hk. rewrite <- (Hlook (S k) y ltac:(lia) Hk). f_equal. lia.
  - split; [lia|]. split; intros j Hj; [|lia]. by replace j with first by lia.
Qed.


(** On a vector of at least 16 entries the first loop ends with a peak on
    either side of the cut [size - 15]. *)
Lemma find_peaks_two_sides dist (fuel : nat) : ∀ f s,
  let size := Z.of_nat (length dist) in
  16 ≤ size → 0 ≤ f ≤ size - 15 → size - 15 < s ≤ size - 1 →
  s - f < Z.of_nat fuel →
  ∃ f' s', find_peaks fuel dist 15 f s = Some (Ok (f', s'))
           ∧ 1 ≤ f' ≤ size - 15 ∧ size - 15 < s' ≤ size - 1.
Proof.
  induction fuel as [|fuel IH]; intros f s size Hsize Hf Hs Hfuel; [lia|].
  unfold size in *. clear size. cbn [find_peaks].
  destruct (Z.eqb_spec f s) as [|_]; [lia|].
  destruct (Z.eqb_spec f 0) as [Hf0|Hf0];
    destruct (Z.eqb_spec s (Z.of_nat (length dist) - 1)) as [Hs1|Hs1]; simpl.
  4:{ exists f, s. split; [done|]. lia. }
  all: destruct (max_element_spec dist (1 + f) s ltac:(lia) ltac:(lia))
         as (m & -> & [[? _]|[_ (Hm & _)]]); [lia|].
  all: destruct (Z.ltb_spec (Z.of_nat (length dist) - 15) m);
         apply IH; lia.
Qed.

(** X17: on a histogram of at least 16 bins, as [estimate_parameters]
    passes one of 200, [find_prob_thresh] returns once each loop may make
    as many passes as there are bins: it finds two peaks, one on either
    side of the cut [size - 15], and returns the first index between them
    at which the histogram is least, less 200.  The retry with the cut
    [size - 6] and the single-peak case are never reached. *)
Theorem find_prob_thresh_between_two_peaks (fuel : nat)
    (kmer_prob_dist : list Z) :
  let size := Z.of_nat (length kmer_prob_dist) in
  16 ≤ size ≤ INT_MAX →
  size ≤ Z.of_nat fuel →
  ∃ first_peak second_peak thresh,
    find_peaks fuel kmer_prob_dist 15 0 (size - 1)
    = Some (Ok (first_peak, second_peak))
    ∧ 1 ≤ first_peak ≤ size - 15 ∧ size - 15 < second_peak ≤ size - 1
    ∧ find_prob_thresh fuel kmer_prob_dist = Some (Ok thresh)
    ∧ first_least kmer_prob_dist first_peak second_peak (thresh + 200).
Proof.
  intros size Hsize Hfuel. unfold size in *. clear size.
  destruct (find_peaks_two_sides kmer_prob_dist fuel 0
              (Z.of_nat (length kmer_prob_dist) - 1))
    as (f & s & Hpeaks & Hf & Hs); [lia..|].
  destruct (min_element_spec kmer_prob_dist f s ltac:(lia) ltac:(lia))
    as (m & Hmin & Hleast).
  exists f, s, (m - 200). split; [done|]. split; [done|]. split; [done|].
  split.
  - unfold find_prob_thresh.
    destruct (Z.eqb_spec (Z.of_nat (length kmer_prob_dist)) 0); [lia|].
    rewrite Hpeaks.
    destruct (Z.eqb_spec f s); [lia|].
    unfold minimum_between. by rewrite Hmin.
  - by replace (m - 200 + 200) with m by lia.
Qed.

Lemma find_prob_thresh_between_two_peaks_witness :
  ∃ thresh,
    find_prob_thresh 20
      [0; 3; 9; 4; 2; 1; 5; 2; 1; 0; 1; 2; 3; 4; 6; 9; 12; 30; 11; 2]
    = Some (Ok thresh)
    ∧ first_least
        [0; 3; 9; 4; 2; 1; 5; 2; 1; 0; 1; 2; 3; 4; 6; 9; 12; 30; 11; 2]
        2 16 (thresh + 200).
Proof.
  destruct (find_prob_thresh_between_two_peaks 20
              [0; 3; 9; 4; 2; 1; 5; 2; 1; 0; 1; 2; 3; 4; 6; 9; 12; 30; 11; 2]
              ltac:(unfold INT_MAX; simpl; lia) ltac:(simpl; lia))
    as (f & s & t & Hpeaks & _ & _ & Ht & Hleast).
  vm_compute in Hpeaks. injection Hpeaks as <- <-.
  exists t. split; [exact Ht | exact Hleast].
Defined.

(** With 2 to 15 entries the second peak only moves down, to 1, where the
    loop stays. *)
Lemma find_peaks_stuck dist (fuel : nat) : ∀ s,
  let size := Z.of_nat (length dist) in
  size ≤ 15 → 1 ≤ s ≤ size - 1 →
  find_peaks fuel dist 15 0 s = None.
Proof.
  induction fuel as [|fuel IH]; intros s size Hsize Hs;
    unfold size in *; clear size; cbn [find_peaks].
  - destruct (Z.eqb_spec 0 s); [lia|]. done.
  - destruct (Z.eqb_spec 0 s); [lia|]. simpl.
    destruct (max_element_spec dist (1 + 0) s ltac:(lia) ltac:(lia))
      as (m & -> & Hm).
    destruct (Z.ltb_spec (Z.of_nat (length dist) - 15) m).
    + apply IH; [done|]. destruct Hm as [[]|[_ (? & _)]]; lia.
    + destruct Hm as [[]|[_ (? & _)]]; lia.
Qed.

(** X18: [find_prob_thresh] on small histograms: 0 on the empty one, -200
    on one bin, and with 2 to 15 bins its first loop never ends, whatever
    the entries. *)
Theorem find_prob_thresh_small_histograms (kmer_prob_dist : list Z) :
  let size := Z.of_nat (length kmer_prob_dist) in
  (size = 0 → ∀ fuel, find_prob_thresh fuel kmer_prob_dist = Some (Ok 0))
  ∧ (size = 1 →
     ∀ fuel, find_prob_thresh fuel kmer_prob_dist = Some (Ok (-200)))
  ∧ (2 ≤ size ≤ 15 → ∀ fuel, find_prob_thresh fuel kmer_prob_dist = None).
Proof.
  intros size. unfold size. clear size. split; [|split].
  - intros Hz fuel. unfold find_prob_thresh. by rewrite Hz.
  - intros H1 fuel.
    destruct kmer_prob_dist as [|x [|y l]]; [done| |simpl in H1; lia].
    unfold find_prob_thresh. simpl.
    assert (Hp : ∀ margin, find_peaks fuel [x] margin 0 0 = Some (Ok (0, 0)))
      by (intros margin; by destruct fuel).
    rewrite !Hp. simpl.
    by destruct (0 <? x), (x <? x), (x =? 0).
  - intros Hsize fuel. unfold find_prob_thresh.
    destruct (Z.eqb_spec (Z.of_nat (length kmer_prob_dist)) 0); [lia|].
    rewrite (find_peaks_stuck kmer_prob_dist fuel
               (Z.of_nat (length kmer_prob_dist) - 1)); [done | lia | lia].
Qed.

Lemma find_prob_thresh_small_histograms_witness :
  find_prob_thresh 1000 [4; 0; 7; 7; 1] = None
  ∧ find_prob_thresh 0 [5] = Some (Ok (-200)).
Proof.
  split.
  - apply (proj2 (proj2 (find_prob_thresh_small_histograms [4; 0; 7; 7; 1]))).
    simpl. lia.
  - apply (proj1 (proj2 (find_prob_thresh_small_histograms [5]))).
    reflexivity.
Defined.

End ProbThreshFacts.

Module LocalAssemblyFacts.
Import LocalAssembly.

Lemma complement_involutive c : complement (complement c) = c.
Proof. by destruct c as [[] [] [] [] [] [] [] []]. Qed.

Lemma complement_watson_crick c : is_base c → complement c = watson_crick c.
Proof.
  unfold is_base. cbn [list_ascii_of_string].
  rewrite !elem_of_cons, elem_of_nil.
  intros [->|[->|[->|[->|[->|[->|[->|[->|[]]]]]]]]]; reflexivity.
Qed.

Lemma reverse_complement_loop (forward : list ascii) (m : nat) :
  (m ≤ length forward)%nat →
  let len := length forward in
  let r := foldl (λ reverse k,
                    match forward !! k with
                    | Some base => <[(len - k - 1)%nat := complement base]> reverse
                    | None => reverse
                    end)
                 (replicate len " "%char) (seq 0 m) in
  length r = len ∧
  ∀ j, (j < len)%nat →
       r !! j = if decide (len - m ≤ j)%nat
                then complement <$> forward !! (len - 1 - j)%nat
                else Some " "%char.
Proof.
  intros Hm len. induction m as [|m IH]; intros r.
  - subst r. cbn [seq foldl]. split; [by rewrite length_replicate|].
    intros j Hj. rewrite decide_False by lia.
    by apply lookup_replicate_2.
  - subst r. rewrite seq_S, foldl_app. cbn [foldl Nat.add].
    destruct IH as [Hlen IH]; [lia|].
    destruct (lookup_lt_is_Some_2 forward m) as [base Hbase]; [lia|].
    rewrite Hbase. split; [by rewrite length_insert|].
    intros j Hj.
    destruct (decide (j = len - m - 1)%nat) as [->|Hne].
    + rewrite list_lookup_insert_eq by lia.
      rewrite decide_True by lia.
      replace (len - 1 - (len - m - 1))%nat with m by lia.
      by rewrite Hbase.
    + rewrite list_lookup_insert_ne by lia.
      rewrite IH by lia.
      destruct (decide (len - m ≤ j)%nat), (decide (len - S m ≤ j)%nat);
        try reflexivity; lia.
Qed.

Lemma reverse_complement_spec (forward : list ascii) :
  reverse_complement forward = reverse (complement <$> forward).
Proof.
  destruct (reverse_complement_loop forward (length forward)) as [Hlen Hr];
    [lia|].
  fold (reverse_complement forward) in Hlen, Hr.
  apply list_eq. intros j.
  destruct (decide (j < length forward)%nat) as [Hj|Hj].
  - rewrite Hr by done. rewrite decide_True by lia.
    rewrite reverse_lookup by (rewrite length_fmap; lia).
    rewrite length_fmap, list_lookup_fmap.
    do 2 f_equal. lia.
  - rewrite !lookup_ge_None_2; [done| |lia].
    rewrite length_reverse, length_fmap. lia.
Qed.

Lemma has_ending_suffix (s e : list ascii) :
  has_ending s e = true ↔ e `suffix_of` s.
Proof.
  unfold has_ending.
  destruct (Nat.ltb_spec (length s) (length e)) as [Hlt|Hge].
  - split; [done|]. intros [k ->]. rewrite length_app in Hlt. lia.
  - rewrite bool_decide_eq_true. split.
    + intros He. exists (take (length s - length e) s).
      rewrite take_ge in He by (rewrite length_drop; lia).
      rewrite <- He at 2. by rewrite take_drop.
    + intros [k ->]. rewrite length_app.
      replace (length k + length e - length e)%nat with (length k) by lia.
      rewrite drop_app_length. by rewrite take_ge.
Qed.

(** X19: [has_ending] is the suffix test: it answers [true] exactly when
    the full string is some prefix followed by [ending]; so every string
    ends with the empty string and with itself, and no string ends with a
    longer one. *)
Theorem has_ending_iff_suffix (fullString ending : list ascii) :
  (has_ending fullString ending = true ↔ ending `suffix_of` fullString)
  ∧ has_ending fullString [] = true
  ∧ has_ending fullString fullString = true
  ∧ ((length fullString < length ending)%nat →
     has_ending fullString ending = false).
Proof.
  split; [apply has_ending_suffix|]. split; [|split].
  - apply has_ending_suffix. apply suffix_nil.
  - by apply has_ending_suffix.
  - intros Hlt. unfold has_ending.
    by destruct (Nat.ltb_spec (length fullString) (length ending)); [|lia].
Qed.

(** X20: [reverse_complement] returns the reversed string with
    [complement] applied to every character; it keeps the length, applying
    it twice gives the string back, and the reverse complement of a
    concatenation is the concatenation of the reverse complements in the
    opposite order. *)
Theorem reverse_complement_involutive (forward other : list ascii) :
  reverse_complement forward = reverse (complement <$> forward)
  ∧ length (reverse_complement forward) = length forward
  ∧ reverse_complement (reverse_complement forward) = forward
  ∧ reverse_complement (forward ++ other)
    = reverse_complement other ++ reverse_complement forward.
Proof.
  rewrite !reverse_complement_spec. split; [done|]. split; [|split].
  - by rewrite length_reverse, length_fmap.
  - rewrite fmap_reverse, reverse_involutive, <- list_fmap_compose.
    rewrite <- (list_fmap_id forward) at 2.
    apply list_fmap_ext. intros _ c _. apply complement_involutive.
  - by rewrite fmap_app, reverse_app.
Qed.

(** X21: on a sequence of the bases A, C, G, T in either case,
    [reverse_complement] is the reverse Watson–Crick complement, and the
    result is again such a sequence.  Other characters are not kept: N
    becomes J. *)
Theorem reverse_complement_of_bases (forward : list ascii) :
  Forall is_base forward →
  reverse_complement forward = reverse (watson_crick <$> forward)
  ∧ Forall is_base (reverse_complement forward)
  ∧ reverse_complement ["N"%char] = ["J"%char].
Proof.
  intros Hb. rewrite reverse_complement_spec.
  assert (Heq : complement <$> forward = watson_crick <$> forward).
  { apply list_fmap_ext. intros i c Hc.
    apply complement_watson_crick.
    by apply (proj1 (Forall_lookup _ _) Hb i). }
  split; [by rewrite Heq|]. split; [|reflexivity].
  rewrite Forall_reverse, Forall_fmap.
  eapply Forall_impl; [exact Hb|].
  intros c. unfold is_base. cbn [list_ascii_of_string compose].
  rewrite !elem_of_cons, elem_of_nil.
  intros [->|[->|[->|[->|[->|[->|[->|[->|[]]]]]]]]];
    vm_compute; repeat (first [by left | right]).
Qed.

Lemma reverse_complement_of_bases_witness :
  Forall is_base (list_ascii_of_string "GATTACA")
  ∧ reverse_complement (list_ascii_of_string "GATTACA")
    = list_ascii_of_string "TGTAATC".
Proof.
  assert (Hb : Forall is_base (list_ascii_of_string "GATTACA")).
  { unfold is_base. cbn [list_ascii_of_string].
    repeat constructor; rewrite !elem_of_cons; tauto. }
  split; [exact Hb|].
  exact (eq_trans (proj1 (reverse_complement_of_bases _ Hb)) eq_refl).
Defined.

Lemma collect_kmers_Some (sequence : list ascii) (k : Z) (pos_of : Z → Z)
    (passes : nat) :
  ∀ i kmers,
    (∀ j, i ≤ j < i + Z.of_nat passes →
          0 ≤ pos_of j ≤ Z.of_nat (length sequence)) →
    ∃ found,
      collect_kmers sequence k pos_of i passes kmers = Some found
      ∧ ∀ kmer, kmer ∈ found ↔
                kmer ∈ kmers
                ∨ ∃ j, i ≤ j < i + Z.of_nat passes
                       ∧ kmer = take (Z.to_nat k)
                                  (drop (Z.to_nat (pos_of j)) sequence).
Proof.
  induction passes as [|passes IH]; intros i kmers Hpos.
  - exists kmers. split; [done|]. intros kmer. split; [by left|].
    intros [?|(j & ? & _)]; [done|lia].
  - cbn [collect_kmers]. unfold substr at 1.
    destruct (Z.ltb_spec (Z.of_nat (length sequence)) (pos_of i)) as [Hlt|_].
    { specialize (Hpos i). lia. }
    cbn [mbind option_bind].
    destruct (IH (i + 1)
                ({[ take (Z.to_nat k) (drop (Z.to_nat (pos_of i)) sequence) ]}
                   ∪ kmers))
      as (found & Hfound & Hin).
    { intros j Hj. apply Hpos. lia. }
    exists found. split; [exact Hfound|].
    intros kmer. rewrite Hin, elem_of_union, elem_of_singleton. split.
    + intros [[->|?]|(j & Hj & ->)].
      * right. exists i. split; [lia|done].
      * by left.
      * right. exists j. split; [lia|done].
    + intros [?|(j & Hj & ->)]; [by left; right|].
      destruct (decide (j = i)) as [->|Hne]; [by left; left|].
      right. exists j. split; [lia|done].
Qed.

Lemma collect_kmers_None (sequence : list ascii) (k : Z) (pos_of : Z → Z)
    (passes : nat) :
  ∀ i kmers j,
    i ≤ j < i + Z.of_nat passes →
    Z.of_nat (length sequence) < pos_of j →
    collect_kmers sequence k pos_of i passes kmers = None.
Proof.
  induction passes as [|passes IH]; intros i kmers j Hj Hlt; [lia|].
  cbn [collect_kmers]. unfold substr at 1.
  destruct (Z.ltb_spec (Z.of_nat (length sequence)) (pos_of i)) as [|Hle];
    [done|].
  cbn [mbind option_bind].
  apply (IH _ _ j); [|done].
  destruct (decide (j = i)) as [->|]; lia.
Qed.

Lemma clamp_spec (L k n : Z) :
  1 ≤ k ≤ L → 0 ≤ n → k + n - 1 ≤ UINT32_MAX → L < UINT32_MAX →
  clamp L k n = Z.min n (L - k + 1).
Proof.
  unfold UINT32_MAX. intros Hk Hn Hsum HL. unfold clamp, u32.
  destruct (decide (n = 0)) as [->|Hn0].
  - change (0 - 1) with (-1). change (-1 mod 4294967296) with 4294967295.
    replace (k + 4294967295) with (k - 1 + 1 * 4294967296) by lia.
    rewrite Z_mod_plus_full, Z.mod_small by lia.
    destruct (Z.ltb_spec L (k - 1)); lia.
  - rewrite (Z.mod_small (n - 1)) by lia.
    rewrite (Z.mod_small (k + (n - 1))) by lia.
    destruct (Z.ltb_spec L (k + (n - 1))).
    + rewrite Z.mod_small by lia. lia.
    + lia.
Qed.

(** X22: with [1 <= k], and [k + n - 1] and the length [L] of the
    sequence within [unsigned int], [generate_start_kmers] and
    [generate_end_kmers] return without an exception: nothing when
    [k > L], and otherwise exactly the k-mers at the first, respectively
    the last, [min (n, L - k + 1)] positions, each of length [k]. *)
Theorem generate_kmers_windows (sequence : list ascii) (k n : Z) :
  let L := Z.of_nat (length sequence) in
  1 ≤ k → 0 ≤ n → k + n - 1 ≤ UINT32_MAX → L < UINT32_MAX →
  (L < k →
   generate_start_kmers sequence k n = Some ∅
   ∧ generate_end_kmers sequence k n = Some ∅)
  ∧ (k ≤ L →
     ∃ starts ends,
       generate_start_kmers sequence k n = Some starts
       ∧ generate_end_kmers sequence k n = Some ends
       ∧ (∀ kmer, kmer ∈ starts ↔
                  ∃ i, 0 ≤ i < Z.min n (L - k + 1)
                       ∧ kmer = take (Z.to_nat k)
                                  (drop (Z.to_nat i) sequence))
       ∧ (∀ kmer, kmer ∈ ends ↔
                  ∃ i, 0 ≤ i < Z.min n (L - k + 1)
                       ∧ kmer = take (Z.to_nat k)
                                  (drop (Z.to_nat (L - k - i)) sequence))
       ∧ ∀ kmer, kmer ∈ starts ∪ ends → Z.of_nat (length kmer) = k).
Proof.
  intros L Hk Hn Hsum HL. split.
  - intros Hlt. unfold generate_start_kmers, generate_end_kmers.
    fold L. by destruct (Z.ltb_spec L k); [|lia].
  - intros Hle. unfold generate_start_kmers, generate_end_kmers. fold L.
    destruct (Z.ltb_spec L k) as [|_]; [lia|].
    rewrite clamp_spec by lia.
    set (m := Z.min n (L - k + 1)).
    destruct (collect_kmers_Some sequence k (λ i, i) (Z.to_nat m) 0 ∅)
      as (starts & Hs & Hsin).
    { intros j Hj. fold L. lia. }
    destruct (collect_kmers_Some sequence k (λ i, (L - k - i) mod 2 ^ 64)
                (Z.to_nat m) 0 ∅) as (ends & He & Hein).
    { intros j Hj. fold L. unfold UINT32_MAX in *.
      rewrite Z.mod_small by lia. lia. }
    assert (Hs' : ∀ kmer, kmer ∈ starts ↔
                  ∃ i, 0 ≤ i < m
                       ∧ kmer = take (Z.to_nat k)
                                  (drop (Z.to_nat i) sequence)).
    { intros kmer. rewrite Hsin. split.
      - intros [H|(j & Hj & ->)]; [by apply elem_of_empty in H|].
        exists j. split; [lia|done].
      - intros (j & Hj & ->). right. exists j. split; [lia|done]. }
    assert (He' : ∀ kmer, kmer ∈ ends ↔
                  ∃ i, 0 ≤ i < m
                       ∧ kmer = take (Z.to_nat k)
                                  (drop (Z.to_nat (L - k - i)) sequence)).
    { intros kmer. rewrite Hein. split.
      - intros [H|(j & Hj & ->)]; [by apply elem_of_empty in H|].
        exists j. split; [lia|].
        unfold UINT32_MAX in *. by rewrite Z.mod_small by lia.
      - intros (j & Hj & ->). right. exists j. split; [lia|].
        unfold UINT32_MAX in *. by rewrite Z.mod_small by lia. }
    exists starts, ends. repeat split; try done.
    + by apply Hs'.
    + by apply Hs'.
    + by apply He'.
    + by apply He'.
    + intros kmer [Hin|Hin]%elem_of_union.
      * apply Hs' in Hin as (i & Hi & ->).
        rewrite length_take, length_drop. fold L. lia.
      * apply He' in Hin as (i & Hi & ->).
        rewrite length_take, length_drop. fold L. lia.
Qed.

Lemma generate_kmers_windows_witness :
  generate_start_kmers (list_ascii_of_string "ACGTA") 3 2
  = Some ({[ list_ascii_of_string "ACG"; list_ascii_of_string "CGT" ]})
  ∧ ∃ starts ends,
      generate_start_kmers (list_ascii_of_string "ACGTA") 3 5 = Some starts
      ∧ generate_end_kmers (list_ascii_of_string "ACGTA") 3 5 = Some ends
      ∧ list_ascii_of_string "CGT" ∈ starts ∩ ends.
Proof.
  split; [reflexivity|].
  destruct (proj2 (generate_kmers_windows (list_ascii_of_string "ACGTA") 3 5
                     ltac:(lia) ltac:(lia) ltac:(unfold UINT32_MAX; lia)
                     ltac:(unfold UINT32_MAX; simpl; lia))
              ltac:(simpl; lia))
    as (starts & ends & Hs & He & Hsin & Hein & _).
  exists starts, ends. split; [exact Hs|]. split; [exact He|].
  apply elem_of_intersection. split.
  - apply Hsin. exists 1. split; [simpl; lia|reflexivity].
  - apply Hein. exists 1. split; [simpl; lia|reflexivity].
Defined.

(** X23: when [k + (n - 1)] exceeds [unsigned int], the sum wraps below
    the length, [n] is not reduced, and both functions run past the end of
    the sequence: [substr] throws [std::out_of_range]. *)
Theorem generate_kmers_wrapped_request (sequence : list ascii) (k n : Z) :
  let L := Z.of_nat (length sequence) in
  1 ≤ k ≤ L → n ≤ UINT32_MAX → UINT32_MAX < k + (n - 1) →
  L + k ≤ UINT32_MAX →
  generate_start_kmers sequence k n = None
  ∧ generate_end_kmers sequence k n = None.
Proof.
  intros L Hk Hn Hwrap HL. unfold UINT32_MAX in *.
  unfold generate_start_kmers, generate_end_kmers. fold L.
  destruct (Z.ltb_spec L k) as [|_]; [lia|].
  assert (Hclamp : clamp L k n = n).
  { unfold clamp, u32. rewrite (Z.mod_small (n - 1)) by lia.
    replace (k + (n - 1))
      with (k + (n - 1) - 4294967296 + 1 * 4294967296) by lia.
    rewrite Z_mod_plus_full, Z.mod_small by lia.
    destruct (Z.ltb_spec L (k + (n - 1) - 4294967296)); lia. }
  rewrite Hclamp. split.
  - apply (collect_kmers_None _ _ _ _ _ _ (L + 1)); fold L; lia.
  - apply (collect_kmers_None _ _ _ _ _ _ (L - k + 1)); fold L; [lia|].
    replace (L - k - (L - k + 1)) with (-1) by lia.
    change (-1 mod 2 ^ 64) with 18446744073709551615. lia.
Qed.

Lemma generate_kmers_wrapped_request_witness :
  generate_start_kmers (list_ascii_of_string "ACGTA") 2 4294967295 = None
  ∧ generate_end_kmers (list_ascii_of_string "ACGTA") 2 4294967295 = None.
Proof.
  apply (generate_kmers_wrapped_request (list_ascii_of_string "ACGTA")
           2 4294967295); unfold UINT32_MAX; simpl; lia.
Defined.

Lemma tree_entry_spec (tree : DfsTree) (kmer : list ascii) :
  children_named tree →
  children_named (tree_entry tree kmer).1
  ∧ same_children tree (tree_entry tree kmer).1
  ∧ Forall (λ child, child ≠ []) (tree_entry tree kmer).2.
Proof.
  intros Hnamed. unfold tree_entry.
  destruct (tree !! kmer) as [children|] eqn:Hk; cbn [fst snd].
  - split; [done|]. split; [done|]. by apply (Hnamed kmer).
  - split; [|split; [|done]].
    + intros kmer' children.
      destruct (decide (kmer' = kmer)) as [->|Hne].
      * rewrite lookup_insert_eq. by intros [= <-].
      * rewrite lookup_insert_ne by done. apply Hnamed.
    + intros kmer'.
      destruct (decide (kmer' = kmer)) as [->|Hne].
      * by rewrite lookup_insert_eq, Hk.
      * by rewrite lookup_insert_ne.
Qed.

Lemma get_paths_between_util_fuel (end_kmer : list ascii)
    (max_path_length : Z) (fuel : nat) :
  ∀ fuel' start_kmer path_accumulator state,
    max_path_length + 1 - Z.of_nat (length path_accumulator)
      ≤ Z.of_nat fuel →
    max_path_length + 1 - Z.of_nat (length path_accumulator)
      ≤ Z.of_nat fuel' →
    get_paths_between_util fuel start_kmer end_kmer path_accumulator
      max_path_length state
    = get_paths_between_util fuel' start_kmer end_kmer path_accumulator
        max_path_length state.
Proof.
  induction fuel as [|fuel IH];
    intros fuel' start_kmer acc [tree paths] Hf Hf'.
  - destruct fuel' as [|fuel']; [done|].
    cbn [get_paths_between_util]. destruct (tree_entry tree start_kmer).
    by destruct (Z.ltb_spec max_path_length (Z.of_nat (length acc))); [|lia].
  - destruct fuel' as [|fuel'].
    { cbn [get_paths_between_util]. destruct (tree_entry tree start_kmer).
      by destruct (Z.ltb_spec max_path_length (Z.of_nat (length acc)));
        [|lia]. }
    cbn [get_paths_between_util].
    destruct (tree_entry tree start_kmer) as [tree1 children].
    destruct (Z.ltb_spec max_path_length (Z.of_nat (length acc))); [done|].
    destruct (list.last start_kmer) as [c|]; [|done].
    generalize (Ok (tree1,
                    if has_ending (acc ++ [c]) end_kmer
                    then paths ++ [acc ++ [c]] else paths)).
    induction children as [|child children IHc]; intros r; [done|].
    cbn [foldl]. rewrite IHc. f_equal.
    destruct r as [st| |]; [|done..]. cbn [mbind outcome_bind].
    apply IH; rewrite length_app; cbn [length]; lia.
Qed.

Lemma get_paths_between_util_spec (end_kmer : list ascii)
    (max_path_length : Z) (fuel : nat) :
  ∀ start_kmer path_accumulator tree paths,
    start_kmer ≠ [] →
    children_named tree →
    max_path_length + 1 - Z.of_nat (length path_accumulator)
      ≤ Z.of_nat fuel →
    ∃ tree' new,
      get_paths_between_util fuel start_kmer end_kmer path_accumulator
        max_path_length (tree, paths) = Ok (tree', paths ++ new)
      ∧ children_named tree'
      ∧ same_children tree tree'
      ∧ Forall (λ p, (∃ c rest, list.last start_kmer = Some c
                                ∧ p = path_accumulator ++ c :: rest)
                     ∧ end_kmer `suffix_of` p
                     ∧ Z.of_nat (length p) ≤ max_path_length + 1) new.
Proof.
  induction fuel as [|fuel IH];
    intros start_kmer acc tree paths Hstart Hnamed Hfuel.
  - cbn [get_paths_between_util].
    destruct (tree_entry_spec tree start_kmer Hnamed) as (Hn1 & Hs1 & _).
    destruct (tree_entry tree start_kmer) as [tree1 children].
    destruct (Z.ltb_spec max_path_length (Z.of_nat (length acc))); [|lia].
    exists tree1, []. by rewrite app_nil_r.
  - cbn [get_paths_between_util].
    destruct (tree_entry_spec tree start_kmer Hnamed) as (Hn1 & Hs1 & Hc1).
    destruct (tree_entry tree start_kmer) as [tree1 children].
    cbn [fst snd] in Hn1, Hs1, Hc1.
    destruct (Z.ltb_spec max_path_length (Z.of_nat (length acc))) as [|Hle].
    { exists tree1, []. by rewrite app_nil_r. }
    destruct (list.last start_kmer) as [c|] eqn:Hlast;
      [|by apply last_None in Hlast].
    set (acc' := acc ++ [c]).
    assert (Hown : ∃ own,
               (if has_ending acc' end_kmer then paths ++ [acc'] else paths)
               = paths ++ own
               ∧ Forall (λ p, (∃ c0 rest, Some c = Some c0
                                          ∧ p = acc ++ c0 :: rest)
                              ∧ end_kmer `suffix_of` p
                              ∧ Z.of_nat (length p) ≤ max_path_length + 1)
                        own).
    { destruct (has_ending acc' end_kmer) eqn:He.
      - exists [acc']. split; [done|]. constructor; [|done].
        split; [by exists c, []|]. split; [by apply has_ending_suffix|].
        unfold acc'. rewrite length_app. cbn [length]. lia.
      - exists []. by rewrite app_nil_r. }
    destruct Hown as (own & -> & Hown).
    revert Hn1 Hs1 Hown. generalize own. clear own. revert Hc1.
    generalize tree1. clear tree1.
    induction children as [|child children IHc];
      intros tree1 Hc1 own Hn1 Hs1 Hown.
    { exists tree1, own. done. }
    cbn [foldl mbind outcome_bind].
    apply Forall_cons in Hc1 as [Hchild Hc1].
    destruct (IH child acc' tree1 (paths ++ own) Hchild Hn1)
      as (tree2 & new & -> & Hn2 & Hs2 & Hnew).
    { unfold acc'. rewrite length_app. cbn [length]. lia. }
    rewrite <- app_assoc.
    apply (IHc tree2 Hc1 (own ++ new) Hn2).
    + intros kmer. by rewrite Hs2, Hs1.
    + apply Forall_app. split; [done|].
      eapply Forall_impl; [exact Hnew|].
      intros p ((c0 & rest & _ & ->) & Hsuf & Hlen).
      split; [|done]. exists c, (c0 :: rest). split; [done|].
      unfold acc'. by rewrite <- app_assoc.
Qed.

(** X24: for a non-empty start k-mer and a tree whose children have
    non-empty k-mers, [get_paths_between] returns; each path it returns
    starts with the start k-mer, ends with the end k-mer and has at most
    [max_path_length + 1] characters; the tree lists the same children
    afterwards as before; and a larger bound on the recursion depth gives
    the same result. *)
Theorem get_paths_between_bounded (start_kmer end_kmer : list ascii)
    (tree : DfsTree) (max_path_length : Z) :
  start_kmer ≠ [] →
  children_named tree →
  (∃ tree' paths,
      get_paths_between start_kmer end_kmer tree max_path_length
      = Ok (tree', paths)
      ∧ same_children tree tree'
      ∧ Forall (λ p, start_kmer `prefix_of` p
                     ∧ end_kmer `suffix_of` p
                     ∧ Z.of_nat (length p) ≤ max_path_length + 1) paths)
  ∧ ∀ fuel,
      max_path_length + 2 - Z.of_nat (length start_kmer) ≤ Z.of_nat fuel →
      get_paths_between_with fuel start_kmer end_kmer tree max_path_length
      = get_paths_between start_kmer end_kmer tree max_path_length.
Proof.
  intros Hstart Hnamed.
  assert (Hlen : Z.of_nat (length (take (length start_kmer - 1) start_kmer))
                 = Z.of_nat (length start_kmer) - 1).
  { rewrite length_take. destruct start_kmer; [done|]. cbn [length]. lia. }
  split.
  - unfold get_paths_between, get_paths_between_with.
    destruct (get_paths_between_util_spec end_kmer max_path_length
                (Z.to_nat (max_path_length + 2
                           - Z.of_nat (length start_kmer)))
                start_kmer (take (length start_kmer - 1) start_kmer)
                tree [] Hstart Hnamed)
      as (tree' & new & Hrun & _ & Hsame & Hnew); [lia|].
    exists tree', new. split; [exact Hrun|]. split; [done|].
    eapply Forall_impl; [exact Hnew|].
    intros p ((c & rest & Hlast & ->) & Hsuf & Hbound).
    split; [|done]. exists rest.
    destruct (last_Some start_kmer c) as [[front ->] _]; [done|].
    rewrite length_app. cbn [length].
    replace (length front + 1 - 1)%nat with (length front) by lia.
    rewrite take_app_length. by rewrite <- app_assoc.
  - intros fuel Hfuel. unfold get_paths_between, get_paths_between_with.
    apply get_paths_between_util_fuel; lia.
Qed.

Lemma get_paths_between_bounded_witness :
  ["A"%char] ≠ [] ∧ children_named cycle_tree
  ∧ get_paths_between ["A"%char] ["A"%char] cycle_tree 4
    = Ok (cycle_tree,
          [list_ascii_of_string "A"; list_ascii_of_string "ACA";
           list_ascii_of_string "ACACA"])
  ∧ ∀ fuel,
      4 + 2 - 1 ≤ Z.of_nat fuel →
      get_paths_between_with fuel ["A"%char] ["A"%char] cycle_tree 4
      = get_paths_between ["A"%char] ["A"%char] cycle_tree 4.
Proof.
  assert (Hnamed : children_named cycle_tree).
  { intros kmer children. unfold cycle_tree.
    destruct (decide (kmer = ["A"%char])) as [->|Hne].
    - rewrite lookup_insert_eq. intros [= <-]. by repeat constructor.
    - rewrite lookup_insert_ne by done.
      destruct (decide (kmer = ["C"%char])) as [->|Hne'].
      + rewrite lookup_insert_eq. intros [= <-]. by repeat constructor.
      + by rewrite lookup_insert_ne, lookup_empty. }
  split; [done|]. split; [exact Hnamed|]. split; [reflexivity|].
  exact (proj2 (get_paths_between_bounded ["A"%char] ["A"%char] cycle_tree 4
                  ltac:(done) Hnamed)).
Defined.

End LocalAssemblyFacts.

Module PanEdgeFacts.
Import PanEdge.

Lemma rev_orient_involutive o : rev_orient (rev_orient o) = o.
Proof.
  unfold rev_orient.
  destruct (Z.eqb_spec o 0) as [->|H0]; [done|].
  destruct (Z.eqb_spec o 3) as [->|H3]; [done|].
  destruct (Z.eqb_spec o 0); [done|].
  by destruct (Z.eqb_spec o 3).
Qed.

Ltac order_cases :=
  repeat match goal with
         | |- context [?a =? ?b] => destruct (Z.eqb_spec a b)
         | |- context [?a <? ?b] => destruct (Z.ltb_spec a b)
         | |- context [?a >? ?b] =>
             rewrite (Z.gtb_ltb a b); destruct (Z.ltb_spec b a)
         | H : context [?a =? ?b] |- _ => destruct (Z.eqb_spec a b)
         | H : context [?a <? ?b] |- _ => destruct (Z.ltb_spec a b)
         | H : context [?a >? ?b] |- _ =>
             rewrite (Z.gtb_ltb a b) in H; destruct (Z.ltb_spec b a)
         end;
  cbn [andb orb negb] in *.

(** X25: [operator==] on edges is an equivalence relation which reads an
    edge and the same edge seen from the other strand as equal;
    [rev_orient] undoes itself and keeps an orientation below 4 below 4;
    [operator!=] is its negation. *)
Theorem panedge_equality_is_an_equivalence (x y z : PanEdge) :
  equal x x = true
  ∧ equal x y = equal y x
  ∧ (equal x y = true → equal y z = true → equal x z = true)
  ∧ equal x (reversed x) = true
  ∧ (equal x y = true ↔ key x = key y ∨ key x = key (reversed y))
  ∧ not_equal x y = negb (equal x y)
  ∧ rev_orient (rev_orient (orientation x)) = orientation x
  ∧ (0 ≤ orientation x < 4 → 0 ≤ rev_orient (orientation x) < 4).
Proof.
  assert (Hkey : ∀ a b, equal a b = true
                        ↔ key a = key b ∨ key a = key (reversed b)).
  { intros [f1 t1 o1 c1] [f2 t2 o2 c2]. unfold equal, key, reversed.
    cbn [from to orientation covg]. split.
    - order_cases; intros; try done; first [left; congruence | right; congruence].
    - intros [[= -> -> ->]|[= -> -> ->]]; order_cases; done. }
  assert (Hsym : ∀ a b, equal a b = true → equal b a = true).
  { intros a b [Hk|Hk]%Hkey; apply Hkey; [by left|right].
    destruct a as [f1 t1 o1 c1], b as [f2 t2 o2 c2].
    unfold key, reversed in *. cbn [from to orientation covg] in *.
    injection Hk as -> -> ->. by rewrite rev_orient_involutive. }
  split; [apply Hkey; by left|]. split; [|split; [|split; [|split]]].
  - destruct (equal x y) eqn:Hxy.
    + symmetry. by apply Hsym.
    + destruct (equal y x) eqn:Hyx; [|done].
      apply Hsym in Hyx. congruence.
  - intros [Hxy|Hxy]%Hkey [Hyz|Hyz]%Hkey; apply Hkey.
    + left. congruence.
    + right. congruence.
    + right. rewrite Hxy. unfold key, reversed in *.
      cbn [from to orientation covg] in *. congruence.
    + left. rewrite Hxy. unfold key, reversed in *.
      cbn [from to orientation covg] in *.
      injection Hyz as -> -> ->. by rewrite rev_orient_involutive.
  - apply Hkey. right. destruct x as [f1 t1 o1 c1].
    unfold key, reversed. cbn [from to orientation covg].
    by rewrite rev_orient_involutive.
  - apply Hkey.
  - split; [done|]. split; [apply rev_orient_involutive|].
    unfold rev_orient. intros Ho. order_cases; lia.
Qed.

(** X26: [operator<] is a strict total order on the triples (from id, to
    id, orientation).  It does not agree with [operator==]: an edge
    between two different nodes equals its reverse, and yet one of the two
    is less than the other. *)
Theorem panedge_less_is_a_strict_order (x y z : PanEdge) :
  less x x = false
  ∧ (less x y = true → less y x = false)
  ∧ (less x y = true → less y z = true → less x z = true)
  ∧ (less x y = false → less y x = false → key x = key y)
  ∧ (from x ≠ to x →
     equal x (reversed x) = true
     ∧ (less x (reversed x) = true ∨ less (reversed x) x = true)).
Proof.
  destruct x as [f1 t1 o1 c1], y as [f2 t2 o2 c2], z as [f3 t3 o3 c3].
  unfold less, key, reversed, equal. cbn [from to orientation covg].
  split; [|split; [|split; [|split]]].
  - order_cases; try done; lia.
  - order_cases; try done; lia.
  - order_cases; try done; lia.
  - order_cases; try done; intros; try lia; f_equal; try f_equal; lia.
  - intros Hne. split.
    + rewrite rev_orient_involutive. order_cases; try done; lia.
    + order_cases; auto; lia.
Qed.

End PanEdgeFacts.

Module ReadFacts.
Import Read.
Section ReadFacts.
Context {NodePtr : Type} `{EqDecision NodePtr}.
Implicit Types r : Read NodePtr.

Lemma zip_delete {A B} (l : list A) (k : list B) (i : nat) :
  zip (delete i l) (delete i k) = delete i (zip l k).
Proof.
  revert k i. induction l as [|a l IH]; intros k i; [done|].
  destruct k as [|b k], i as [|i]; cbn [delete list_delete zip zip_with].
  - by destruct l.
  - by destruct (list_delete i l).
  - done.
  - f_equal. apply IH.
Qed.

Lemma filter_delete_found (n : NodePtr) (l : list NodePtr) (k : list bool)
    (i : nat) (a : NodePtr) :
  list_find (λ x, x = n) l = Some (i, a) →
  filter (λ x, x ≠ n) (delete i l) = filter (λ x, x ≠ n) l
  ∧ filter (λ p, p.1 ≠ n) (delete i (zip l k))
    = filter (λ p, p.1 ≠ n) (zip l k)
  ∧ (i < length l)%nat.
Proof.
  revert k i. induction l as [|b l IH]; intros k i; [done|].
  cbn [list_find]. destruct (decide (b = n)) as [Hb|Hb].
  - intros [= <- <-]. cbn [delete list_delete length].
    split; [by rewrite filter_cons_False by auto|].
    split; [|lia].
    destruct k as [|o k]; [done|]. cbn [zip zip_with list_delete].
    by rewrite filter_cons_False by (cbn; auto).
  - destruct (list_find _ l) as [[j c]|] eqn:Hfind; [|done].
    intros Heq. cbn in Heq. injection Heq as <- <-.
    cbn [delete list_delete length].
    destruct k as [|o k].
    + destruct (IH [] j eq_refl) as (Hl & _ & Hj).
      rewrite !filter_cons_True by done.
      split; [by f_equal|]. split; [|lia]. by destruct (list_delete j l).
    + destruct (IH k j eq_refl) as (Hl & Hz & Hj).
      cbn [zip zip_with].
      rewrite !filter_cons_True by done.
      split; [by f_equal|]. split; [|lia].
      change (delete (S j) ((b, o) :: zip l k))
        with ((b, o) :: delete j (zip l k)).
      rewrite !filter_cons_True by done. by f_equal.
Qed.

Lemma filter_not_found (n : NodePtr) (l : list NodePtr) (k : list bool) :
  list_find (λ x, x = n) l = None →
  filter (λ x, x ≠ n) l = l
  ∧ filter (λ p, p.1 ≠ n) (zip l k) = zip l k.
Proof.
  intros Hnone%list_find_None. revert k.
  induction Hnone as [|b l Hb Hl IH]; intros k; [done|].
  rewrite filter_cons_True by done. split; [f_equal; apply (IH [])|].
  destruct k as [|o k]; [done|]. cbn [zip zip_with].
  rewrite filter_cons_True by done. f_equal. apply IH.
Qed.

Lemma remove_node_loop_spec (n : NodePtr) (fuel : nat) :
  ∀ r,
    (length (nodes r) ≤ fuel)%nat →
    length (nodes r) = length (node_orientations r) →
    Z.of_nat (length (nodes r)) ≤ UINT32_MAX →
    ∃ r',
      remove_node_loop fuel n r = Some (Ok r')
      ∧ id r' = id r
      ∧ nodes r' = filter (λ x, x ≠ n) (nodes r)
      ∧ oriented r' = filter (λ p, p.1 ≠ n) (oriented r)
      ∧ length (nodes r') = length (node_orientations r').
Proof.
  induction fuel as [|fuel IH]; intros r Hfuel Hlen Hmax.
  - destruct r as [i [|x l] k]; [|cbn in Hfuel; lia].
    exists {| id := i; nodes := []; node_orientations := k |}. done.
  - cbn [remove_node_loop].
    destruct (list_find (λ x, x = n) (nodes r)) as [[it a]|] eqn:Hfind.
    + destruct (filter_delete_found n (nodes r) (node_orientations r)
                  it a Hfind) as (Hl & Hz & Hit).
      assert (Hd : Z.to_nat (u32 (Z.of_nat it)) = it).
      { unfold u32, UINT32_MAX in *. rewrite Z.mod_small by lia. lia. }
      rewrite Hd.
      destruct (Nat.ltb_spec it (length (node_orientations r))); [|lia].
      destruct (IH {| id := id r; nodes := delete it (nodes r);
                      node_orientations := delete it (node_orientations r) |})
        as (r' & Hrun & Hid & Hnodes & Hor & Hlen').
      { cbn [nodes]. rewrite length_delete by (by apply lookup_lt_is_Some_2).
        lia. }
      { cbn [nodes node_orientations].
        rewrite !length_delete by (apply lookup_lt_is_Some_2; lia). lia. }
      { cbn [nodes].
        rewrite length_delete by (by apply lookup_lt_is_Some_2). lia. }
      exists r'. split; [exact Hrun|]. split; [done|].
      split; [by rewrite Hnodes; cbn [nodes]|]. split; [|done].
      rewrite Hor. unfold oriented. cbn [nodes node_orientations].
      by rewrite zip_delete.
    + destruct (filter_not_found n (nodes r) (node_orientations r) Hfind)
        as [Hl Hz].
      exists r. by rewrite Hl; unfold oriented; rewrite Hz.
Qed.

(** X27: on a read whose two vectors have the same length (within
    [uint]), [remove_node] returns; it keeps the id, removes every copy of
    the node and keeps every other node, in order and with its own
    orientation. *)
Theorem remove_node_removes_every_copy (n_original : NodePtr) r :
  length (nodes r) = length (node_orientations r) →
  Z.of_nat (length (nodes r)) ≤ UINT32_MAX →
  ∃ r',
    remove_node n_original r = Some (Ok r')
    ∧ id r' = id r
    ∧ nodes r' = filter (λ n, n ≠ n_original) (nodes r)
    ∧ oriented r' = filter (λ p, p.1 ≠ n_original) (oriented r)
    ∧ length (nodes r') = length (node_orientations r')
    ∧ n_original ∉ nodes r'.
Proof.
  intros Hlen Hmax.
  destruct (remove_node_loop_spec n_original (length (nodes r)) r)
    as (r' & Hrun & Hid & Hnodes & Hor & Hlen'); [lia|done|done|].
  exists r'. repeat split; try done.
  rewrite Hnodes. intros Hin%list_elem_of_filter. by destruct Hin.
Qed.

End ReadFacts.

Lemma remove_node_removes_every_copy_witness :
  ∃ r',
    remove_node 7
      {| id := 0; nodes := [7; 3; 7; 5];
         node_orientations := [true; false; false; true] |}
    = Some (Ok r')
    ∧ oriented r' = [(3, false); (5, true)].
Proof.
  destruct (remove_node_removes_every_copy 7
              {| id := 0; nodes := [7; 3; 7; 5];
                 node_orientations := [true; false; false; true] |}
              eq_refl ltac:(unfold UINT32_MAX; simpl; lia))
    as (r' & Hrun & _ & _ & Hor & _).
  exists r'. split; [exact Hrun|exact Hor].
Defined.

End ReadFacts.

Module FindPositionFacts.
Import Read.
Section FindPosition.
Context {NodePtr : Type}.
Variable node_id : NodePtr → Z.
Variable r : Read NodePtr.
Variable node_ids : list Z.
Variable node_orients : list bool.
Variable min_overlap : Z.

#[local, warning="-notation-for-abbreviation"]
Notation size := (Z.of_nat (length (nodes r))).
#[local, warning="-notation-for-abbreviation"]
Notation sought := (Z.of_nat (length node_ids)).
#[local, warning="-notation-for-abbreviation"]
Notation agree := (agree node_id r node_ids node_orients).
#[local, warning="-notation-for-abbreviation"]
Notation while_loop :=
  (while_loop node_id r node_ids node_orients min_overlap).
#[local, warning="-notation-for-abbreviation"]
Notation body := (body node_id r node_ids node_orients min_overlap).
#[local, warning="-notation-for-abbreviation"]
Notation for_loop :=
  (for_loop node_id r node_ids node_orients min_overlap).

Lemma size_t_small x : 0 ≤ x ≤ UINT32_MAX → size_t x = x.
Proof. unfold size_t, UINT32_MAX. intros. apply Z.mod_small. lia. Qed.

Lemma uint_small x : 0 ≤ x ≤ UINT32_MAX → u32 x = x.
Proof. unfold u32, UINT32_MAX. intros. apply Z.mod_small. lia. Qed.

Lemma agree_lookup (a b : Z) (flip : bool) n node o p :
  0 ≤ a → 0 ≤ b →
  nodes r !! Z.to_nat a = Some n →
  node_ids !! Z.to_nat b = Some node →
  node_orientations r !! Z.to_nat a = Some o →
  node_orients !! Z.to_nat b = Some p →
  agree a b a b flip
  = Ok ((node_id n =? node) && bool_decide (o = xorb flip p)).
Proof.
  intros Ha Hb Hn Hnode Ho Hp. unfold Read.agree.
  rewrite (proj2 (vec_get_Ok (nodes r) a n)) by done.
  rewrite (proj2 (vec_get_Ok node_ids b node)) by done.
  cbn [mbind outcome_bind].
  destruct (node_id n =? node); [|done].
  rewrite (proj2 (vec_get_Ok (node_orientations r) a o)) by done.
  rewrite (proj2 (vec_get_Ok node_orients b p)) by done.
  done.
Qed.

Hypothesis Hread : length (node_orientations r) = length (nodes r).
Hypothesis Hsought : length node_orients = length node_ids.
Hypothesis Hsize : size ≤ INT_MAX.
Hypothesis Hsought_max : sought ≤ UINT32_MAX.

Lemma agree_in_range (a b : Z) (flip : bool) :
  0 ≤ a < size → 0 ≤ b < sought →
  ∃ n node o p,
    nodes r !! Z.to_nat a = Some n
    ∧ node_ids !! Z.to_nat b = Some node
    ∧ node_orientations r !! Z.to_nat a = Some o
    ∧ node_orients !! Z.to_nat b = Some p
    ∧ agree a b a b flip
      = Ok ((node_id n =? node) && bool_decide (o = xorb flip p)).
Proof.
  intros Ha Hb.
  destruct (lookup_lt_is_Some_2 (nodes r) (Z.to_nat a)) as [n Hn]; [lia|].
  destruct (lookup_lt_is_Some_2 node_ids (Z.to_nat b)) as [node Hnode];
    [lia|].
  destruct (lookup_lt_is_Some_2 (node_orientations r) (Z.to_nat a))
    as [o Ho]; [lia|].
  destruct (lookup_lt_is_Some_2 node_orients (Z.to_nat b)) as [p Hp]; [lia|].
  exists n, node, o, p. repeat split; try done.
  apply agree_lookup; try done; lia.
Qed.

Lemma while_loop_total (s : scan) (fuel : nat) :
  scan_in_range r s →
  ∀ search_pos found_pos,
    0 ≤ search_pos < sought → 0 ≤ found_pos ≤ size →
    size - found_pos ≤ Z.of_nat fuel →
    ∃ o, while_loop fuel s search_pos found_pos = Some (Ok o)
         ∧ ∀ p, o = Some p → 0 ≤ p < size.
Proof.
  intros Hs. induction fuel as [|fuel IH];
    intros search_pos found_pos Hsp Hfp Hfuel.
  - cbn [Read.while_loop]. destruct (guard s found_pos) eqn:Hg.
    + destruct (Hs found_pos Hfp Hg) as (_ & Hlt & _). lia.
    + by exists None.
  - cbn [Read.while_loop]. destruct (guard s found_pos) eqn:Hg;
      [|by exists None].
    destruct (Hs found_pos Hfp Hg) as (Hat & Hlt & Hres).
    destruct (agree_in_range (at_node s found_pos) search_pos (negated s)
                Hat Hsp) as (n & node & o & p & _ & _ & _ & _ & ->).
    destruct ((node_id n =? node) && bool_decide (o = xorb (negated s) p));
      [|by exists None].
    rewrite (size_t_small (sought - 1)) by (unfold UINT32_MAX in *; lia).
    destruct ((search_pos =? sought - 1) || at_end s found_pos) eqn:Hexit.
    + destruct (min_overlap <=? u32 (found_pos + 1)); [|by exists None].
      eexists. split; [done|]. by intros ? [= <-].
    + apply orb_false_iff in Hexit as [Hne%Z.eqb_neq _].
      unfold INT_MAX, UINT32_MAX in Hsize, Hsought_max.
      rewrite !uint_small by (unfold UINT32_MAX; lia). apply IH; lia.
Qed.

Lemma scans_in_range (i : Z) :
  0 ≤ i < size →
  scan_in_range r (forwards r i)
  ∧ scan_in_range r (forwards_truncated r i)
  ∧ scan_in_range r (backwards r i)
  ∧ scan_in_range r (backwards_truncated r i).
Proof.
  intros Hi. unfold INT_MAX in Hsize.
  assert (Hu : ∀ x, 0 ≤ x ≤ 2 * size → u32 x = x).
  { intros x Hx. unfold u32. apply Z.mod_small. lia. }
  assert (Ht : ∀ x, 0 ≤ x ≤ 2 * size → size_t x = x).
  { intros x Hx. unfold size_t. apply Z.mod_small. lia. }
  unfold scan_in_range, forwards, forwards_truncated, backwards,
    backwards_truncated. cbn [guard at_node result].
  split; [|split; [|split]]; intros found_pos Hfp Hg.
  - rewrite Hu in * by lia. apply Z.ltb_lt in Hg. lia.
  - apply Z.ltb_lt in Hg. lia.
  - rewrite Hu in Hg by lia. apply Z.ltb_lt in Hg.
    rewrite Ht by lia. rewrite Hu by lia. lia.
  - apply Z.ltb_lt in Hg. rewrite Ht by lia. rewrite Hu by lia. lia.
Qed.

Hypothesis Hsome : 0 < sought.

Lemma agree_total (a b : Z) (flip : bool) :
  0 ≤ a < size → 0 ≤ b < sought →
  ∃ c, agree a b a b flip = Ok c
       ∧ (no_shared_id node_id r node_ids → c = false).
Proof.
  intros Ha Hb.
  destruct (agree_in_range a b flip Ha Hb)
    as (n & node & o & p & Hn & Hnode & _ & _ & ->).
  eexists. split; [done|]. intros Hno.
  apply list_elem_of_lookup_2 in Hn, Hnode.
  specialize (Hno n node Hn Hnode).
  by destruct (Z.eqb_spec (node_id n) node).
Qed.

Lemma block_spec (fuel : nat) (test : outcome bool) (c : bool) (s : scan)
    (search_pos : Z) :
  test = Ok c →
  (c = true → 0 ≤ search_pos < sought) →
  scan_in_range r s →
  size ≤ Z.of_nat fuel →
  ∃ o, block node_id r node_ids node_orients min_overlap
         fuel test s search_pos = Some (Ok o)
       ∧ (∀ p, o = Some p → 0 ≤ p < size)
       ∧ (c = false → o = None).
Proof.
  intros -> Hsp Hs Hfuel. unfold block. destruct c.
  - destruct (while_loop_total s fuel Hs search_pos 0) as (o & -> & Ho);
      [by apply Hsp|lia|lia|].
    by exists o.
  - by exists None.
Qed.

Lemma or_else_spec (first next : option (outcome (option Z))) o1 o2
    (P : Z → Prop) :
  first = Some (Ok o1) → next = Some (Ok o2) →
  (∀ p, o1 = Some p → P p) → (∀ p, o2 = Some p → P p) →
  ∃ o, or_else first next = Some (Ok o)
       ∧ (∀ p, o = Some p → P p)
       ∧ (o1 = None → o2 = None → o = None).
Proof.
  intros -> -> H1 H2. destruct o1 as [p|]; cbn [or_else].
  - exists (Some p). by split.
  - exists o2. by split.
Qed.

Lemma body_spec (fuel : nat) (i : Z) :
  0 ≤ i < size → size ≤ Z.of_nat fuel →
  ∃ o, body fuel i = Some (Ok o)
       ∧ (∀ p, o = Some p → 0 ≤ p < size)
       ∧ (no_shared_id node_id r node_ids → o = None).
Proof.
  intros Hi Hfuel.
  destruct (scans_in_range i Hi) as (Hs1 & Hs2 & Hs3 & Hs4).
  unfold Read.body, overhangs. rewrite Hread, Hsought.
  unfold INT_MAX, UINT32_MAX in Hsize, Hsought_max.
  assert (Ht : ∀ x, 0 ≤ x ≤ 2 * 4294967295 → size_t x = x).
  { intros x Hx. unfold size_t. apply Z.mod_small. lia. }
  assert (Hu : ∀ x, 0 ≤ x ≤ 4294967295 → u32 x = x).
  { intros x Hx. unfold u32. apply Z.mod_small. lia. }
  rewrite (Ht (i + sought)), (Ht (size - 1 - i)) by lia.
  (* the four tests *)
  destruct (agree_total i 0 false) as (c1 & Ht1 & Hc1); [lia..|].
  destruct (agree_total (size - 1 - i) 0 true) as (c3 & Ht3 & Hc3); [lia..|].
  assert (Ht2 : ∃ c2,
             (if size <? i + sought
              then agree 0 (size_t (i + sought - size))
                         0 (size_t (i + sought - size)) false
              else Ok false) = Ok c2
             ∧ (c2 = true → 1 ≤ i + sought - size < sought)
             ∧ (no_shared_id node_id r node_ids → c2 = false)).
  { destruct (Z.ltb_spec size (i + sought)); [|by exists false].
    rewrite Ht by lia.
    destruct (agree_total 0 (i + sought - size) false) as (c & -> & Hc);
      [lia..|].
    exists c. split; [done|]. split; [lia|done]. }
  assert (Ht4 : ∃ c4,
             (if size <? i + sought
              then agree (size - 1) (size_t (i + sought - size))
                         (size - 1) (size_t (i + sought - size)) true
              else Ok false) = Ok c4
             ∧ (c4 = true → 1 ≤ i + sought - size < sought)
             ∧ (no_shared_id node_id r node_ids → c4 = false)).
  { destruct (Z.ltb_spec size (i + sought)); [|by exists false].
    rewrite Ht by lia.
    destruct (agree_total (size - 1) (i + sought - size) true)
      as (c & -> & Hc); [lia..|].
    exists c. split; [done|]. split; [lia|done]. }
  destruct Ht2 as (c2 & Ht2 & Hsp2 & Hc2).
  destruct Ht4 as (c4 & Ht4 & Hsp4 & Hc4).
  set (sp := u32 (size_t (i + sought - size))).
  assert (Hsp : 1 ≤ i + sought - size < sought → 0 ≤ sp < sought).
  { intros Hr. unfold sp. rewrite Ht, Hu by lia. lia. }
  destruct (block_spec fuel _ c1 (forwards r i) 0 Ht1)
    as (o1 & Hb1 & Hr1 & Hn1); [lia|done|done|].
  destruct (block_spec fuel _ c2 (forwards_truncated r i) sp Ht2)
    as (o2 & Hb2 & Hr2 & Hn2); [auto|done|done|].
  destruct (block_spec fuel _ c3 (backwards r i) 0 Ht3)
    as (o3 & Hb3 & Hr3 & Hn3); [lia|done|done|].
  destruct (block_spec fuel _ c4 (backwards_truncated r i) sp Ht4)
    as (o4 & Hb4 & Hr4 & Hn4); [auto|done|done|].
  destruct (or_else_spec _ _ o3 o4 (λ p, 0 ≤ p < size) Hb3 Hb4 Hr3 Hr4)
    as (o34 & Hb34 & Hr34 & Hn34).
  destruct (or_else_spec _ _ o2 o34 (λ p, 0 ≤ p < size) Hb2 Hb34 Hr2 Hr34)
    as (o234 & Hb234 & Hr234 & Hn234).
  destruct (or_else_spec _ _ o1 o234 (λ p, 0 ≤ p < size) Hb1 Hb234 Hr1 Hr234)
    as (o & Hb & Hr & Hn).
  exists o. split; [exact Hb|]. split; [exact Hr|].
  intros Hno. apply Hn; [auto|]. apply Hn234; [auto|]. apply Hn34; auto.
Qed.

Lemma for_loop_spec (fuel passes : nat) :
  size ≤ Z.of_nat fuel →
  ∀ i, 0 ≤ i ≤ size → size - i ≤ Z.of_nat passes →
       ∃ p, for_loop fuel passes i = Some (Ok p)
            ∧ (p = UINT32_MAX ∨ 0 ≤ p < size)
            ∧ (no_shared_id node_id r node_ids → p = UINT32_MAX).
Proof.
  intros Hfuel. induction passes as [|passes IH]; intros i Hi Hpasses.
  - cbn [Read.for_loop]. destruct (Z.ltb_spec i size); [lia|].
    exists UINT32_MAX. auto.
  - cbn [Read.for_loop]. destruct (Z.ltb_spec i size) as [Hlt|];
      [|exists UINT32_MAX; auto].
    destruct (body_spec fuel i) as (o & -> & Hr & Hn); [lia|done|].
    destruct o as [p|].
    + exists p. split; [done|]. split; [right; by apply Hr|].
      intros Hno. by specialize (Hn Hno).
    + unfold INT_MAX in Hsize.
      rewrite uint_small by (unfold UINT32_MAX; lia). apply IH; lia.
Qed.

Lemma while_forwards_match (position : nat) (fuel : nat) :
  occurs_at node_id r node_ids node_orients position →
  min_overlap ≤ sought →
  ∀ k, 0 ≤ k < sought → sought - 1 - k ≤ Z.of_nat fuel →
       while_loop fuel (forwards r (Z.of_nat position)) k k
       = Some (Ok (Some (Z.of_nat position))).
Proof.
  intros Hocc Hmin. unfold INT_MAX, UINT32_MAX in Hsize, Hsought_max.
  assert (Hfits : Z.of_nat position + sought ≤ size).
  { destruct (lookup_lt_is_Some_2 node_ids (length node_ids - 1))
      as [id Hid]; [lia|].
    destruct (Hocc _ _ Hid) as (n & Hn%lookup_lt_Some & _). lia. }
  assert (Ht : ∀ x, 0 ≤ x ≤ 2 * 4294967295 → size_t x = x).
  { intros x Hx. unfold size_t. apply Z.mod_small. lia. }
  assert (Hu : ∀ x, 0 ≤ x ≤ 4294967295 → u32 x = x).
  { intros x Hx. unfold u32. apply Z.mod_small. lia. }
  induction fuel as [|fuel IH]; intros k Hk Hfuel.
  all: cbn [Read.while_loop forwards guard at_node negated at_end result].
  all: rewrite (Hu (Z.of_nat position + k)) by lia.
  all: destruct (Z.ltb_spec (Z.of_nat position + k) size); [|lia].
  all: destruct (lookup_lt_is_Some_2 node_ids (Z.to_nat k)) as [id Hid];
    [lia|].
  all: destruct (lookup_lt_is_Some_2 node_orients (Z.to_nat k)) as [p Hp];
    [lia|].
  all: destruct (Hocc _ _ Hid) as (n & Hn & Hnid & Ho).
  all: replace (position + Z.to_nat k)%nat
         with (Z.to_nat (Z.of_nat position + k)) in Hn, Ho by lia.
  all: rewrite Hp in Ho.
  all: rewrite (agree_lookup _ _ false n id p p) by (done || lia).
  all: rewrite Hnid, Z.eqb_refl, bool_decide_eq_true_2 by done.
  all: cbn [andb]; rewrite !Ht by lia; rewrite (Hu (k + 1)) by lia.
  - destruct (Z.eqb_spec k (sought - 1)); [|lia]. cbn [orb].
    by destruct (Z.leb_spec min_overlap (k + 1)); [|lia].
  - destruct (Z.eqb_spec k (sought - 1)) as [->|Hne]; cbn [orb].
    + by destruct (Z.leb_spec min_overlap (sought - 1 + 1)); [|lia].
    + destruct (Z.eqb_spec (Z.of_nat position + k) (size - 1)); [lia|].
      apply IH; lia.
Qed.

Lemma body_forwards_match (position : nat) (fuel : nat) :
  occurs_at node_id r node_ids node_orients position →
  min_overlap ≤ sought →
  sought ≤ Z.of_nat fuel →
  body fuel (Z.of_nat position) = Some (Ok (Some (Z.of_nat position))).
Proof.
  intros Hocc Hmin Hfuel. unfold Read.body.
  destruct (lookup_lt_is_Some_2 node_ids 0) as [id Hid]; [lia|].
  destruct (lookup_lt_is_Some_2 node_orients 0) as [p Hp]; [lia|].
  destruct (Hocc _ _ Hid) as (n & Hn & Hnid & Ho).
  rewrite Nat.add_0_r in Hn, Ho. rewrite Hp in Ho.
  rewrite (agree_lookup _ _ false n id p p)
    by (rewrite ?Nat2Z.id; done || lia).
  rewrite Hnid, Z.eqb_refl, bool_decide_eq_true_2 by done.
  cbn [andb block].
  rewrite (while_forwards_match position fuel Hocc Hmin 0) by lia.
  done.
Qed.

Lemma for_loop_finds (position : nat) (fuel passes : nat) :
  occurs_at node_id r node_ids node_orients position →
  min_overlap ≤ sought →
  size ≤ Z.of_nat fuel →
  ∀ i, 0 ≤ i ≤ Z.of_nat position → size - i ≤ Z.of_nat passes →
       ∃ p, for_loop fuel passes i = Some (Ok p) ∧ 0 ≤ p < size.
Proof.
  intros Hocc Hmin Hfuel.
  assert (Hfits : Z.of_nat position + sought ≤ size).
  { destruct (lookup_lt_is_Some_2 node_ids (length node_ids - 1))
      as [id Hid]; [lia|].
    destruct (Hocc _ _ Hid) as (n & Hn%lookup_lt_Some & _). lia. }
  induction passes as [|passes IH]; intros i Hi Hpasses; [lia|].
  cbn [Read.for_loop]. destruct (Z.ltb_spec i size) as [Hlt|]; [|lia].
  destruct (body_spec fuel i) as (o & Hbody & Hr & _); [lia|done|].
  rewrite Hbody. destruct o as [p|].
  - exists p. split; [done|]. by apply Hr.
  - destruct (decide (i = Z.of_nat position)) as [->|Hne].
    { rewrite body_forwards_match in Hbody by (done || lia). done. }
    unfold INT_MAX in Hsize.
    rewrite uint_small by (unfold UINT32_MAX; lia). apply IH; lia.
Qed.

End FindPosition.

(** X28: [find_position] fails its assertions when no node is sought or
    the ids and the orientations sought differ in number.  Otherwise, on a
    read whose two vectors have the same length, it returns, reads no
    vector out of range, and gives either an index into the read or the
    largest [uint]; on an empty read it gives the latter. *)
Theorem find_position_stays_in_the_read {NodePtr : Type}
    (node_id : NodePtr → Z) (r : Read NodePtr) (node_ids : list Z)
    (node_orients : list bool) (min_overlap : Z) (fuel : nat) :
  length (node_orientations r) = length (nodes r) →
  Z.of_nat (length (nodes r)) ≤ INT_MAX →
  Z.of_nat (length node_ids) ≤ UINT32_MAX →
  (length (nodes r) ≤ fuel)%nat →
  (length node_ids ≠ length node_orients ∨ node_ids = [] →
   find_position node_id r node_ids node_orients min_overlap fuel
   = Some (Fatal AssertionFailed))
  ∧ (length node_ids = length node_orients → node_ids ≠ [] →
     ∃ p, find_position node_id r node_ids node_orients min_overlap fuel
          = Some (Ok p)
          ∧ (p = UINT32_MAX ∨ 0 ≤ p < Z.of_nat (length (nodes r)))
          ∧ (nodes r = [] → p = UINT32_MAX)).
Proof.
  intros Hread Hsize Hsought_max Hfuel. unfold find_position. split.
  - intros [Hne | ->].
    + by destruct (Nat.eqb_spec (length node_ids) (length node_orients)).
    + by destruct (length [] =? length node_orients)%nat.
  - intros Heq Hsome.
    destruct (Nat.eqb_spec (length node_ids) (length node_orients)); [|done].
    destruct (Nat.ltb_spec 0 (length node_ids)) as [Hpos|Hz];
      [|destruct node_ids; [done|cbn [length] in Hz; lia]].
    cbn [negb].
    destruct (for_loop_spec node_id r node_ids node_orients min_overlap
                Hread (eq_sym Heq) Hsize Hsought_max ltac:(lia) fuel fuel
                ltac:(lia) 0) as (p & Hrun & Hrange & _); [lia..|].
    exists p. split; [exact Hrun|]. split; [exact Hrange|].
    intros Hnil. rewrite Hnil in Hrange. cbn [length] in Hrange. lia.
Qed.

Lemma find_position_stays_in_the_read_witness :
  find_position (λ n : Z, n)
    {| id := 0; nodes := [1; 2; 3; 4];
       node_orientations := [true; true; false; true] |}
    [2; 3] [true; false] 2 4 = Some (Ok 1)
  ∧ find_position (λ n : Z, n)
      {| id := 0; nodes := [1; 2; 3; 4];
         node_orientations := [true; true; false; true] |}
      [] [] 2 4 = Some (Fatal AssertionFailed).
Proof.
  split; [reflexivity|].
  apply (find_position_stays_in_the_read (λ n : Z, n)
           {| id := 0; nodes := [1; 2; 3; 4];
              node_orientations := [true; true; false; true] |}
           [] [] 2 4 eq_refl).
  - unfold INT_MAX. simpl. lia.
  - unfold UINT32_MAX. simpl. lia.
  - simpl. lia.
  - by right.
Defined.

(** X29: under the same conditions, [find_position] gives the largest
    [uint] when no node of the read has an id that is sought; and when the
    nodes sought stand somewhere in the read in the orientations sought,
    and [min_overlap] is at most their number, it gives an index into the
    read. *)
Theorem find_position_finds_an_occurrence {NodePtr : Type}
    (node_id : NodePtr → Z) (r : Read NodePtr) (node_ids : list Z)
    (node_orients : list bool) (min_overlap : Z) (fuel : nat) :
  length (node_orientations r) = length (nodes r) →
  length node_ids = length node_orients →
  node_ids ≠ [] →
  Z.of_nat (length (nodes r)) ≤ INT_MAX →
  Z.of_nat (length node_ids) ≤ UINT32_MAX →
  (length (nodes r) ≤ fuel)%nat →
  (no_shared_id node_id r node_ids →
   find_position node_id r node_ids node_orients min_overlap fuel
   = Some (Ok UINT32_MAX))
  ∧ ∀ position,
      occurs_at node_id r node_ids node_orients position →
      min_overlap ≤ Z.of_nat (length node_ids) →
      ∃ p, find_position node_id r node_ids node_orients min_overlap fuel
           = Some (Ok p)
           ∧ 0 ≤ p < Z.of_nat (length (nodes r)).
Proof.
  intros Hread Heq Hsome Hsize Hsought_max Hfuel. unfold find_position.
  destruct (Nat.eqb_spec (length node_ids) (length node_orients)); [|done].
  destruct (Nat.ltb_spec 0 (length node_ids)) as [Hpos|Hz];
    [|destruct node_ids; [done|cbn [length] in Hz; lia]].
  cbn [negb]. split.
  - intros Hno.
    destruct (for_loop_spec node_id r node_ids node_orients min_overlap
                Hread (eq_sym Heq) Hsize Hsought_max ltac:(lia) fuel fuel
                ltac:(lia) 0) as (p & Hrun & _ & Hp); [lia..|].
    by rewrite Hrun, (Hp Hno).
  - intros position Hocc Hmin.
    apply (for_loop_finds node_id r node_ids node_orients min_overlap
             Hread (eq_sym Heq) Hsize Hsought_max ltac:(lia) position);
      try done; lia.
Qed.

Lemma find_position_finds_an_occurrence_witness :
  ∃ p, find_position (λ n : Z, n)
         {| id := 0; nodes := [1; 2; 3; 4; 2; 3];
            node_orientations := [true; true; false; true; true; false] |}
         [2; 3] [true; false] 2 6 = Some (Ok p)
       ∧ 0 ≤ p < 6.
Proof.
  apply (find_position_finds_an_occurrence (λ n : Z, n)
           {| id := 0; nodes := [1; 2; 3; 4; 2; 3];
              node_orientations := [true; true; false; true; true; false] |}
           [2; 3] [true; false] 2 6 eq_refl eq_refl ltac:(done)
           ltac:(unfold INT_MAX; simpl; lia)
           ltac:(unfold UINT32_MAX; simpl; lia) ltac:(simpl; lia)) with 4%nat.
  - intros [|[|j]] node Hj; try done; injection Hj as <-; eexists; done.
  - simpl. lia.
Defined.

End FindPositionFacts.
